(** * External sort of newline-delimited byte records (sort.py)

    A shallow embedding of [sort] and [main] of sort.py: phase one reads the
    input in chunks of at most 1,000,000 lines, sorts each chunk and spills
    it to a numbered gzip segment in the temporary directory; phase two
    opens every segment and streams the k-way merge to the output; a
    [finally] block unlinks every registered segment path.

    Effects (the input iterator, the output sink, the files of the
    temporary directory, the local [temp_files] list and its counter) are
    threaded through a state-and-exception monad.  Every I/O operation asks
    an oracle whether it fails, so the theorems quantify over arbitrary
    I/O failures. *)

From Stdlib Require Import Strings.Byte Strings.Ascii NArith Lia.
From stdpp Require Import gmap list sorting strings pretty.

(** ** Byte strings and their order *)

(** A Python [bytes] object. *)
Abbreviation bytes := (list byte).

(** The delimiter, [b'\n']. *)
Definition nl : byte := x0a.

(** [a < b] on single bytes: comparison of the unsigned values. *)
Definition byte_ltb (a b : byte) : bool := (Byte.to_N a <? Byte.to_N b)%N.

(** Python's [a <= b] on [bytes]: lexicographic on unsigned byte values, a
    proper prefix being smaller. *)
Fixpoint bytes_leb (a b : bytes) : bool :=
  match a, b with
  | [], _ => true
  | _ :: _, [] => false
  | x :: a', y :: b' =>
      if byte_ltb x y then true
      else if byte_ltb y x then false
      else bytes_leb a' b'
  end.

(** Python's [a < b] on [bytes]. *)
Definition bytes_ltb (a b : bytes) : bool := negb (bytes_leb b a).

Definition bytes_le (a b : bytes) : Prop := bytes_leb a b = true.
Definition bytes_lt (a b : bytes) : Prop := bytes_ltb a b = true.

Global Instance bytes_le_dec a b : Decision (bytes_le a b).
Proof. unfold bytes_le. apply _. Defined.

Global Instance byte_eq_dec : EqDecision byte.
Proof.
  intros x y. destruct (Byte.eqb x y) eqn:E.
  - left. by apply Byte.byte_dec_bl.
  - right. by apply Byte.eqb_false.
Defined.

(** [line.endswith(b'\n')] *)
Definition endswith_nl (line : bytes) : bool :=
  match last line with
  | Some c => Byte.eqb c nl
  | None => false
  end.

(** The content of a record: the line without its final delimiter. *)
Definition content (line : bytes) : bytes := removelast line.

(** ** Line iteration over a binary stream *)

(** Iterating a binary stream ([for line in input_stream], or over a file
    opened by [gzip.open(p, mode='rb')]) yields the maximal pieces that end
    with the delimiter, and a last piece without delimiter when the stream
    does not end with one. *)
Fixpoint readlines (s : bytes) : list bytes :=
  match s with
  | [] => []
  | c :: s' =>
      if Byte.eqb c nl then [c] :: readlines s'
      else match readlines s' with
           | [] => [[c]]
           | l :: ls => (c :: l) :: ls
           end
  end.

(** [chunk.sort()]: the list sorted ascending by [<=] on [bytes]. *)
Definition list_sort (chunk : list bytes) : list bytes :=
  merge_sort bytes_le chunk.

(** ** Observable operations, exceptions and the program state *)

(** The I/O operations of the program.  A segment path
    [temp_dir / '{:06d}.gz'.format(n)] is represented by its number [n]
    (the format is injective in [n]). *)
Inductive io_op :=
  | Mkdtemp                   (* TemporaryDirectory(prefix='sort.')      *)
  | ReadInput                 (* next() on the input stream iterator      *)
  | OpenWrite (p : nat)       (* gzip.open(p, mode='wb')                  *)
  | WriteSeg (p : nat)        (* f.write(line) on segment p               *)
  | CloseWrite (p : nat)      (* leaving [with gzip.open(...) as f]       *)
  | OpenRead (p : nat)        (* gzip.open(p, mode='rb')                  *)
  | ReadSeg (p : nat)         (* next() on the reader of segment p        *)
  | CloseRead (p : nat)       (* f.close() on the reader of segment p     *)
  | WriteOut                  (* output_stream.write(line)                *)
  | FlushOut                  (* output_stream.flush()                    *)
  | Unlink (p : nat)          (* p.unlink()                               *)
  | Rmtree.                   (* TemporaryDirectory.__exit__: cleanup()   *)

Inductive exn :=
  | AssertionError
  | OSError (op : io_op).

(** What a run leaves behind, in order: each I/O operation attempted with
    its outcome, and three marks that carry no effect of their own: a path
    appended to [temp_files], a line yielded by the merge together with the
    position of the reader it came from, and a [logger.exception] call. *)
Inductive event :=
  | EvIo (op : io_op) (ok : bool)
  | EvRegister (p : nat)
  | EvYield (line : bytes) (order : nat)
  | EvLog (p : nat) (e : exn).

Record state := mkState {
  input_stream : list bytes;     (* lines the input iterator has yet to yield *)
  output_stream : list bytes;    (* lines written to the output so far        *)
  fs : gmap nat bytes;           (* files of the temporary directory          *)
  temp_files : list nat;         (* the local list [temp_files]               *)
  temp_file_counter : nat;       (* next value of [count()]                   *)
  trace : list event
}.

Definition set_input_stream (l : list bytes) (w : state) : state :=
  mkState l (output_stream w) (fs w) (temp_files w) (temp_file_counter w) (trace w).
Definition set_output_stream (l : list bytes) (w : state) : state :=
  mkState (input_stream w) l (fs w) (temp_files w) (temp_file_counter w) (trace w).
Definition set_fs (m : gmap nat bytes) (w : state) : state :=
  mkState (input_stream w) (output_stream w) m (temp_files w) (temp_file_counter w) (trace w).
Definition set_temp_files (l : list nat) (w : state) : state :=
  mkState (input_stream w) (output_stream w) (fs w) l (temp_file_counter w) (trace w).
Definition set_temp_file_counter (n : nat) (w : state) : state :=
  mkState (input_stream w) (output_stream w) (fs w) (temp_files w) n (trace w).
Definition set_trace (t : list event) (w : state) : state :=
  mkState (input_stream w) (output_stream w) (fs w) (temp_files w) (temp_file_counter w) t.

(** ** The monad: state, exceptions, and running out of loop fuel *)

Inductive res (A : Type) :=
  | Ok (a : A)
  | Raise (e : exn)
  | OutOfFuel.
Arguments Ok {A} a.
Arguments Raise {A} e.
Arguments OutOfFuel {A}.

Definition M (A : Type) : Type := state → res A * state.

Global Instance M_ret : MRet M := λ A a w, (Ok a, w).
Global Instance M_bind : MBind M := λ A B f m w,
  match m w with
  | (Ok a, w') => f a w'
  | (Raise e, w') => (Raise e, w')
  | (OutOfFuel, w') => (OutOfFuel, w')
  end.

Definition raise {A} (e : exn) : M A := λ w, (Raise e, w).
Definition out_of_fuel {A} : M A := λ w, (OutOfFuel, w).
Definition get : M state := λ w, (Ok w, w).
Definition modify (f : state → state) : M unit := λ w, (Ok tt, f w).
Definition emit (e : event) : M unit := modify (λ w, set_trace (trace w ++ [e]) w).

(** [try: body finally: fin].  The [finally] block runs on normal exit and
    on an exception; an exception of its own replaces the pending one. *)
Definition try_finally {A} (body : M A) (fin : M unit) : M A := λ w,
  match body w with
  | (OutOfFuel, w') => (OutOfFuel, w')
  | (r, w') =>
      match fin w' with
      | (Ok _, w'') => (r, w'')
      | (Raise e, w'') => (Raise e, w'')
      | (OutOfFuel, w'') => (OutOfFuel, w'')
      end
  end.

(** [try: body except Exception as e: handler].  Both exceptions of the
    model are subclasses of [Exception]. *)
Definition try_except {A} (body : M A) (handler : exn → M A) : M A := λ w,
  match body w with
  | (Raise e, w') => handler e w'
  | r => r
  end.

(** ** The heap of [heapq.merge] *)

(** An open segment: its path and the lines its iterator has yet to yield. *)
Record reader := mkReader { rd_path : nat; rd_lines : list bytes }.

(** A heap entry [[value, order, next]]: the line at the front of a reader,
    the position of the reader among the merged iterables, and the reader. *)
Definition entry : Type := bytes * nat * reader.

(** Python's [<] on two entries: lists compare by their first differing
    component, the value first and then the order. *)
Definition entry_ltb (a b : entry) : bool :=
  if bool_decide (a.1.1 = b.1.1) then a.1.2 <? b.1.2
  else bytes_ltb a.1.1 b.1.1.

(** [h[0]]: the smallest entry of the heap. *)
Fixpoint heap_top (h : list entry) : option entry :=
  match h with
  | [] => None
  | e :: h' =>
      match heap_top h' with
      | None => Some e
      | Some m => if entry_ltb e m then Some e else Some m
      end
  end.

(** The heap without the entry of the given order. *)
Definition heap_remove (order : nat) (h : list entry) : list entry :=
  filter (λ e, e.1.2 ≠ order) h.

(** Observations on a trace. *)
Definition unlink_attempts (t : list event) : list nat :=
  omap (λ e, match e with EvIo (Unlink p) _ => Some p | _ => None end) t.
Definition created (t : list event) : list nat :=
  omap (λ e, match e with EvIo (OpenWrite p) true => Some p | _ => None end) t.
Definition registered (t : list event) : list nat :=
  omap (λ e, match e with EvRegister p => Some p | _ => None end) t.
Definition logged (t : list event) : list nat :=
  omap (λ e, match e with EvLog p _ => Some p | _ => None end) t.
Definition yields (t : list event) : list (bytes * nat) :=
  omap (λ e, match e with EvYield l o => Some (l, o) | _ => None end) t.

(** ** The program *)

Section program.
(** [len(chunk) >= threshold] ends a chunk; sort.py fixes it at 1000000. *)
Variable threshold : nat.
(** [fails n op]: the operation [op], attempted as event number [n] of the
    run, raises [OSError]. *)
Variable fails : nat → io_op → bool.
(** [unlink_fails p]: [p.unlink()] raises although the file exists. *)
Variable unlink_fails : nat → bool.
(** Removing the temporary directory on leaving [with] raises. *)
Variable rmtree_fails : bool.

Definition io (op : io_op) : M unit := λ w,
  let ok := negb (fails (length (trace w)) op) in
  let w' := set_trace (trace w ++ [EvIo op ok]) w in
  if ok then (Ok tt, w') else (Raise (OSError op), w').

(** The [for line in input_stream] loop of lines 31-35, entered with the
    lines the iterator has yet to yield and the chunk built so far; the
    [assert] of line 32 raises on a line without delimiter (assertions are
    enabled); the loop returns the chunk when the stream ends or the chunk
    is full. *)
Fixpoint read_chunk (lines : list bytes) (chunk : list bytes) : M (list bytes) :=
  io ReadInput ;;
  match lines with
  | [] => mret chunk
  | line :: rest =>
      modify (set_input_stream rest) ;;
      if endswith_nl line then
        let chunk := chunk ++ [line] in
        if threshold <=? length chunk then mret chunk
        else read_chunk rest chunk
      else raise AssertionError
  end.

(** [for line in chunk: f.write(line)] *)
Fixpoint write_lines (p : nat) (chunk : list bytes) : M unit :=
  match chunk with
  | [] => mret tt
  | line :: rest =>
      io (WriteSeg p) ;;
      modify (λ w, set_fs (<[p := default [] (fs w !! p) ++ line]> (fs w)) w) ;;
      write_lines p rest
  end.

(** [with gzip.open(p, mode='wb') as f: ...] of lines 41-43: opening
    creates the file empty, the file is closed on every exit. *)
Definition write_segment (p : nat) (chunk : list bytes) : M unit :=
  io (OpenWrite p) ;;
  modify (λ w, set_fs (<[p := []]> (fs w)) w) ;;
  try_finally (write_lines p chunk) (io (CloseWrite p)).

(** Lines 38-43: sort the chunk, take the next path, append it to
    [temp_files], then write the segment. *)
Definition spill (chunk : list bytes) : M unit :=
  let chunk := list_sort chunk in
  w ← get;
  let temp_file_path := temp_file_counter w in
  modify (set_temp_file_counter (S (temp_file_counter w))) ;;
  modify (λ w, set_temp_files (temp_files w ++ [temp_file_path]) w) ;;
  emit (EvRegister temp_file_path) ;;
  write_segment temp_file_path chunk.

(** The [while True] loop of lines 29-43. *)
Fixpoint phase_one (fuel : nat) : M unit :=
  match fuel with
  | 0 => out_of_fuel
  | S fuel =>
      w ← get;
      chunk ← read_chunk (input_stream w) [];
      match chunk with
      | [] => mret tt
      | _ :: _ => spill chunk ;; phase_one fuel
      end
  end.

(** [gzip.open(p, mode='rb')]; a missing file raises. *)
Definition gzip_open_rb (p : nat) : M reader := λ w,
  match fs w !! p with
  | Some data => (io (OpenRead p) ;; mret (mkReader p (readlines data))) w
  | None => (emit (EvIo (OpenRead p) false) ;; raise (OSError (OpenRead p))) w
  end.

(** Lines 45-47. *)
Fixpoint open_segments (paths : list nat) (open_files : list reader)
    : M (list reader) :=
  match paths with
  | [] => mret open_files
  | p :: paths =>
      f ← gzip_open_rb p;
      open_segments paths (open_files ++ [f])
  end.

(** [next()] on a reader; [None] stands for [StopIteration]. *)
Definition next_line (f : reader) : M (option (bytes * reader)) :=
  io (ReadSeg (rd_path f)) ;;
  match rd_lines f with
  | [] => mret None
  | line :: rest => mret (Some (line, mkReader (rd_path f) rest))
  end.

(** The start of [heapq.merge]: the first line of every iterable, in
    order, enters the heap with the position of its iterable. *)
Fixpoint merge_init (order : nat) (its : list reader) (h : list entry)
    : M (list entry) :=
  match its with
  | [] => mret h
  | it :: its =>
      r ← next_line it;
      match r with
      | None => merge_init (S order) its h
      | Some (value, it') => merge_init (S order) its (h ++ [(value, order, it')])
      end
  end.

(** [output_stream.write(line)] *)
Definition write_output (line : bytes) : M unit :=
  io WriteOut ;;
  modify (λ w, set_output_stream (output_stream w ++ [line]) w).

(** The loop of [heapq.merge] with the body of the [for] of lines 49-50
    run at each [yield]: the smallest entry is yielded and written, then
    its reader is advanced and the entry replaced, or removed when the
    reader is exhausted. *)
Fixpoint merge_loop (fuel : nat) (h : list entry) : M unit :=
  match heap_top h with
  | None => mret tt
  | Some (value, order, it) =>
      match fuel with
      | 0 => out_of_fuel
      | S fuel =>
          emit (EvYield value order) ;;
          write_output value ;;
          r ← next_line it;
          match r with
          | Some (value', it') =>
              merge_loop fuel ((value', order, it') :: heap_remove order h)
          | None => merge_loop fuel (heap_remove order h)
          end
      end
  end.

(** Lines yet to be yielded by the readers of a heap. *)
Definition heap_size (h : list entry) : nat :=
  sum_list ((λ e : entry, S (length (rd_lines e.2))) <$> h).

(** [for line in heapq_merge( *open_files): output_stream.write(line)] *)
Definition merge_and_write (open_files : list reader) : M unit :=
  h ← merge_init 0 open_files [];
  merge_loop (heap_size h) h.

(** [for f in open_files: f.close()] *)
Fixpoint close_all (open_files : list reader) : M unit :=
  match open_files with
  | [] => mret tt
  | f :: rest => io (CloseRead (rd_path f)) ;; close_all rest
  end.

(** Lines 45-54. *)
Definition phase_two : M unit :=
  w ← get;
  open_files ← open_segments (temp_files w) [];
  try_finally (merge_and_write open_files) (close_all open_files) ;;
  io FlushOut.

(** [p.unlink()]: fails when the file does not exist or when the
    removal itself fails. *)
Definition unlink (p : nat) : M unit := λ w,
  let ok := bool_decide (is_Some (fs w !! p)) && negb (unlink_fails p) in
  let w' := set_trace (trace w ++ [EvIo (Unlink p) ok]) w in
  if ok then (Ok tt, set_fs (delete p (fs w')) w')
  else (Raise (OSError (Unlink p)), w').

(** Lines 56-60. *)
Fixpoint unlink_all (paths : list nat) : M unit :=
  match paths with
  | [] => mret tt
  | p :: paths =>
      try_except (unlink p) (λ e, emit (EvLog p e)) ;;
      unlink_all paths
  end.

(** The body of the outer [try], lines 29-54.  The [while] loop runs at
    most once per line of input and once more. *)
Definition sort_body : M unit :=
  w ← get;
  phase_one (S (length (input_stream w))) ;;
  phase_two.

(** [sort(input_stream, output_stream, temp_dir)] *)
Definition sort : M unit :=
  modify (set_temp_files []) ;;
  modify (set_temp_file_counter 0) ;;
  try_finally sort_body (w ← get; unlink_all (temp_files w)).

(** Leaving [with TemporaryDirectory(...)]: the directory and what is
    left in it are removed; a failure is raised to the caller
    ([ignore_cleanup_errors] is not set). *)
Definition rmtree : M unit := λ w,
  let ok := negb rmtree_fails in
  let w' := set_trace (trace w ++ [EvIo Rmtree ok]) w in
  if ok then (Ok tt, set_fs ∅ w') else (Raise (OSError Rmtree), w').

(** [main()], lines 20-22. *)
Definition main : M unit :=
  io Mkdtemp ;;
  try_finally sort rmtree.
End program.

(** The state in which the program starts on the bytes of standard input. *)
Definition initial (input : bytes) : state :=
  mkState (readlines input) [] ∅ [] 0 [].

(** The chunk threshold of sort.py. *)
Definition chunk_threshold : nat := N.to_nat 1000000.

(** [sort] and [main] of sort.py, run on an input. *)
Definition run_sort fails unlink_fails (input : bytes) : res unit * state :=
  sort chunk_threshold fails unlink_fails (initial input).
Definition run_main fails unlink_fails rmtree_fails (input : bytes)
    : res unit * state :=
  main chunk_threshold fails unlink_fails rmtree_fails (initial input).

(** No operation fails. *)
Definition no_failure : nat → io_op → bool := λ _ _, false.
Definition no_unlink_failure : nat → bool := λ _, false.

(** Every line of the input ends with the delimiter. *)
Definition well_formed (input : bytes) : Prop :=
  Forall (λ l, endswith_nl l = true) (readlines input).

(** ** Vocabulary of the statements *)

(** Scanning a trace of the body of [sort] from [k] registered paths: every
    registered path is the next number, every segment that is opened for
    writing, written or closed has been registered before, and nothing is
    unlinked, removed or logged.  The result is the number of registered
    paths at the end. *)
Fixpoint scan (k : nat) (t : list event) : option nat :=
  match t with
  | [] => Some k
  | e :: t =>
      match e with
      | EvRegister p => if decide (p = k) then scan (S k) t else None
      | EvIo (OpenWrite p) _ | EvIo (WriteSeg p) _ | EvIo (CloseWrite p) _ =>
          if decide (p < k) then scan k t else None
      | EvIo (Unlink _) _ | EvIo Rmtree _ | EvIo Mkdtemp _ | EvLog _ _ => None
      | _ => scan k t
      end
  end.

(** Events of reading the input and of reading segments back. *)
Definition is_quiet (e : event) : bool :=
  match e with
  | EvIo (ReadInput | OpenRead _ | ReadSeg _ | CloseRead _ | WriteOut | FlushOut) _ => true
  | _ => false
  end.
Definition quiet (t : list event) : Prop := Forall (λ e, is_quiet e = true) t.

(** Events of writing segment [p] after it has been opened. *)
Definition is_seg_write (p : nat) (e : event) : bool :=
  match e with
  | EvIo (WriteSeg q) _ | EvIo (CloseWrite q) _ => bool_decide (q = p)
  | _ => false
  end.

(** No operation of the trace failed. *)
Definition ev_ok (e : event) : bool :=
  match e with EvIo _ false => false | _ => true end.
Definition all_ok (t : list event) : Prop := Forall (λ e, ev_ok e = true) t.

(** The state with more events. *)
Definition add_trace (t : list event) (w : state) : state :=
  set_trace (trace w ++ t) w.

(** The order of heap entries on their keys [(value, order)]. *)
Definition key_le (a b : bytes * nat) : Prop :=
  bytes_lt a.1 b.1 ∨ (a.1 = b.1 ∧ a.2 ≤ b.2).

(** The lines a heap has yet to yield, each with the order of its reader. *)
Definition entry_contents (e : entry) : list (bytes * nat) :=
  (e.1.1, e.1.2) :: ((λ l, (l, e.1.2)) <$> rd_lines e.2).
Definition heap_contents (h : list entry) : list (bytes * nat) :=
  h ≫= entry_contents.

(** The heap entries made from readers at positions [order], [order+1]... *)
Fixpoint init_entries (order : nat) (its : list reader) : list entry :=
  match its with
  | [] => []
  | it :: its =>
      match rd_lines it with
      | [] => init_entries (S order) its
      | line :: rest => (line, order, mkReader (rd_path it) rest) :: init_entries (S order) its
      end
  end.

(** The [i]-th chunk of the lines [L] for threshold [T], and the segment
    spilled for it. *)
Definition chunk_of (T : nat) (L : list bytes) (i : nat) : list bytes :=
  take T (drop (i * T) L).
Definition segment_of (T : nat) (L : list bytes) (i : nat) : bytes :=
  concat (list_sort (chunk_of T L i)).

(** [n] chunks cover [len] lines: all full but possibly the last. *)
Definition chunk_count (T len n : nat) : Prop :=
  len ≤ n * T ∧ (n = 0 ∨ (n - 1) * T < len).

Definition is_ok {A} (r : res A) : bool :=
  match r with Ok _ => true | _ => false end.
Definition is_raise {A} (r : res A) : bool :=
  match r with Raise _ => true | _ => false end.

(** A record: a content without delimiter followed by the delimiter. *)
Definition proper (l : bytes) : Prop := ∃ c, l = c ++ [nl] ∧ nl ∉ c.

(** What a result tells about the run that produced it: a normal return
    had no failed operation and satisfies [Q]; [AssertionError] needs a
    line without delimiter ([bad]); an [OSError] needs the oracle to fail
    that operation; the loops never run out of fuel. *)
Definition outcome {A} (fails : nat → io_op → bool) (r : res A)
    (t : list event) (bad : Prop) (Q : A → Prop) : Prop :=
  match r with
  | Ok a => all_ok t ∧ Q a
  | Raise AssertionError => bad
  | Raise (OSError op) => ∃ n, fails n op = true
  | OutOfFuel => False
  end.

(** A heap of [heapq.merge] in good shape: the orders are distinct, and
    each reader, with the line taken from its front, is ascending. *)
Definition heap_wf (h : list entry) : Prop :=
  NoDup ((λ e : entry, e.1.2) <$> h)
  ∧ Forall (λ e : entry, StronglySorted bytes_le (e.1.1 :: rd_lines e.2)) h.

(** The lines of readers at positions [order], [order+1]..., each with the
    position of its reader. *)
Fixpoint tagged (order : nat) (its : list reader) : list (bytes * nat) :=
  match its with
  | [] => []
  | it :: its => ((λ l, (l, order)) <$> rd_lines it) ++ tagged (S order) its
  end.

(** The reader that [gzip.open(p, mode='rb')] gives in a state. *)
Definition reader_of (w : state) (p : nat) : reader :=
  mkReader p (readlines (default [] (fs w !! p))).

(** The heap after its entry [m] was yielded: the reader of [m] advances
    and the entry is replaced, or removed when the reader is exhausted. *)
Definition heap_advance (m : entry) (h : list entry) : list entry :=
  match rd_lines m.2 with
  | [] => heap_remove m.1.2 h
  | line :: rest => (line, m.1.2, mkReader (rd_path m.2) rest) :: heap_remove m.1.2 h
  end.

(** Whether [p.unlink()] succeeds in a state, and the events it leaves:
    the attempt and, when it failed, the log entry of the handler. *)
Definition unlink_ok (unlink_fails : nat → bool) (m : gmap nat bytes) (p : nat)
    : bool :=
  bool_decide (is_Some (m !! p)) && negb (unlink_fails p).
Definition unlink_events (unlink_fails : nat → bool) (m : gmap nat bytes)
    (p : nat) : list event :=
  EvIo (Unlink p) (unlink_ok unlink_fails m p)
  :: if unlink_ok unlink_fails m p then [] else [EvLog p (OSError (Unlink p))].

(** The readers of the segments of the first [n] chunks. *)
Definition segment_readers (T : nat) (L : list bytes) (n : nat) : list reader :=
  (λ i, mkReader i (list_sort (chunk_of T L i))) <$> seq 0 n.

(** The shape of the lines that line iteration yields. *)
Definition line_shaped (l : bytes) : Prop := l ≠ [] ∧ nl ∉ removelast l.

(** Records leave in the order of their contents (delimiter excluded):
    whenever the content of [a] is below the content of [b], [a] comes
    first. *)
Definition emits_in_content_order (out : list bytes) : Prop :=
  ∀ i j a b, out !! i = Some a → out !! j = Some b →
    bytes_lt (content a) (content b) → i < j.

(** Records leave in the order of the whole lines (delimiter included). *)
Definition emits_in_line_order (out : list bytes) : Prop :=
  ∀ i j a b, out !! i = Some a → out !! j = Some b → bytes_lt a b → i < j.

(** No byte of the string is below the delimiter. *)
Definition above_nl (c : bytes) : Prop := Forall (λ x, byte_ltb x nl = false) c.

(** The result and the output of [sort] run with a threshold [T] and without
    failures. *)
Definition scenario_output (T : nat) (input : bytes) : res unit * list bytes :=
  let o := sort T no_failure no_unlink_failure (initial input) in
  (o.1, output_stream o.2).

(** The lines of the segment file at path [p]. *)
Definition segment_lines (w : state) (p : nat) : list bytes :=
  readlines (default [] (fs w !! p)).

(** The states at the head of the [while] loop of phase one: the state in
    which the loop is entered, and the state after each iteration that read
    a chunk and spilled it. *)
Inductive loop_head (T : nat) (fails : nat → io_op → bool) (w0 : state)
    : state → Prop :=
  | loop_head_start : loop_head T fails w0 w0
  | loop_head_next w chunk w1 w2 :
      loop_head T fails w0 w →
      read_chunk T fails (input_stream w) [] w = (Ok chunk, w1) →
      chunk ≠ [] →
      spill fails chunk w1 = (Ok tt, w2) →
      loop_head T fails w0 w2.


(** * Python dictionaries *)

(** A Python [dict] (a [defaultdict], a [Counter]): its items in insertion
    order, every key once. *)
Definition dict (K V : Type) : Type := list (K * V).

(** [d.get(k)] *)
Fixpoint dict_get {K V} `{EqDecision K} (k : K) (d : dict K V) : option V :=
  match d with
  | [] => None
  | (k', v) :: d => if decide (k' = k) then Some v else dict_get k d
  end.

(** [d[k]] read and updated in place on a dict whose missing keys read as
    [dflt]: the value of an existing key is replaced where it is, a
    missing key is inserted last with the updated default. *)
Fixpoint dict_upd {K V} `{EqDecision K} (f : V → V) (dflt : V) (k : K)
    (d : dict K V) : dict K V :=
  match d with
  | [] => [(k, f dflt)]
  | (k', v) :: d =>
      if decide (k' = k) then (k', f v) :: d
      else (k', v) :: dict_upd f dflt k d
  end.

(** * Disk usage by directory and storage class (s3_ls_du.py) *)

Module s3_ls_du.

(** [sorted(d.items())]: the keys of a dict are distinct, so the order of
    the items is the order of their keys, code point by code point. *)
Definition item_le {V} (a b : string * V) : Prop := String.le a.1 b.1.
#[global] Instance item_le_dec {V} : RelDecision (@item_le V).
Proof. intros a b. unfold item_le. apply _. Defined.
Definition sorted_items {V} (d : dict string V) : list (string * V) :=
  merge_sort item_le d.

(** [s.ljust(width)] and [s.lstrip('/')] *)
Definition ljust (width : nat) (s : string) : string :=
  s +:+ String.string_of_list_ascii (replicate (width - String.length s) " "%char).
Fixpoint lstrip_slash (s : string) : string :=
  match s with
  | String c s' => if decide (c = "/"%char) then lstrip_slash s' else s
  | EmptyString => s
  end.

(** [s.split(sep)] for a separator of one character. *)
Fixpoint split_on (sep : ascii) (s : string) : list string :=
  match s with
  | EmptyString => [EmptyString]
  | String c s' =>
      if decide (c = sep) then EmptyString :: split_on sep s'
      else match split_on sep s' with
           | part :: parts => String c part :: parts
           | [] => [String c EmptyString]
           end
  end.

(** [class Directory]: [total_bytes] by storage class and the
    subdirectories by name. *)
#[warnings="-register-all"]
Inductive Directory : Type :=
  mkDirectory (total_bytes : dict string Z) (subdirectories : dict string Directory).

Definition total_bytes (self : Directory) : dict string Z :=
  match self with mkDirectory tb _ => tb end.
Definition subdirectories (self : Directory) : dict string Directory :=
  match self with mkDirectory _ subs => subs end.

Definition subdir_count_limit : nat := 50.

(** [Directory()] *)
Definition Directory_init : Directory := mkDirectory [] [].

(** [Directory.update], lines 29-34. *)
Fixpoint update (key_parts : list string) (storage_class : string) (size : Z)
    (self : Directory) : Directory :=
  let total_bytes' :=
    dict_upd (λ v, v + size)%Z 0%Z storage_class (total_bytes self) in
  match key_parts with
  | subdir :: rest =>
      if decide (length (subdirectories self) < subdir_count_limit) then
        mkDirectory total_bytes'
          (dict_upd (update rest storage_class size) Directory_init subdir
             (subdirectories self))
      else mkDirectory total_bytes' (subdirectories self)
  | [] => mkDirectory total_bytes' (subdirectories self)
  end.

(** What one call of [print] in [print_usage] is given: the bucket, the
    padded key, the storage class and the number of bytes that
    [nice_bytes] formats (a floating-point division, which is not
    modelled). *)
Record printed : Type := mkPrinted {
  p_bucket : string;
  p_key : string;
  p_class : string;
  p_bytes : Z;
}.

(** [Directory.print_usage], lines 36-42, as the list of the rows printed.
    The subdirectories are visited in the order of their names; each is
    paired with its own printing before the pairs are sorted by name. *)
Fixpoint print_usage (self : Directory) (bucket_name : string) (key : string)
    : list printed :=
  match self with
  | mkDirectory total_bytes subdirectories =>
      ((λ it, mkPrinted bucket_name (ljust 60 key) it.1 it.2)
         <$> sorted_items total_bytes)
      ++ (if decide (length subdirectories < subdir_count_limit) then
            sorted_items
              ((fix each (l : dict string Directory) : dict string (string → list printed) :=
                  match l with
                  | [] => []
                  | (subdir_name, subdir) :: l =>
                      (subdir_name, print_usage subdir bucket_name) :: each l
                  end) subdirectories)
            ≫= (λ it, it.2 (lstrip_slash (key +:+ "/" +:+ it.1)))
          else [])
  end.

Inductive exn : Type := UnicodeDecodeError | ValueError.

Section builtins.
(** [line.decode('UTF-8')], [line.split()] and [int(size)]; [None] stands
    for [UnicodeDecodeError] and [ValueError]. *)
Variable decode : bytes → option string.
Variable split : string → list string.
Variable int : string → option Z.

(** The body of the loop of [process_stream], lines 51-55. *)
Definition process_line (total_usage_by_bucket : dict string Directory) (line : bytes)
    : exn + dict string Directory :=
  match decode line with
  | None => inl UnicodeDecodeError
  | Some line =>
      match split line with
      | [bucket_name; key; size; storage_class] =>
          match int size with
          | None => inl ValueError
          | Some size =>
              inr (dict_upd
                     (update (removelast (split_on "/" key)) storage_class size)
                     Directory_init bucket_name total_usage_by_bucket)
          end
      | _ => inl ValueError
      end
  end.

(** [process_stream], lines 49-55: the first line that raises ends it. *)
Fixpoint process_stream (total_usage_by_bucket : dict string Directory)
    (stream : list bytes) : exn + dict string Directory :=
  match stream with
  | [] => inr total_usage_by_bucket
  | line :: stream =>
      match process_line total_usage_by_bucket line with
      | inl e => inl e
      | inr total_usage_by_bucket =>
          process_stream total_usage_by_bucket stream
      end
  end.

(** [main], lines 11-14, on the bytes of standard input: the rows printed,
    or the exception that [process_stream] raised before anything was
    printed. *)
Definition main (stdin : bytes) : exn + list printed :=
  match process_stream [] (readlines stdin) with
  | inl e => inl e
  | inr total_usage_by_bucket =>
      inr (sorted_items total_usage_by_bucket
             ≫= (λ it, print_usage it.2 it.1 EmptyString))
  end.

(** The fields of a line that [process_stream] accepts: bucket, key, size
    and storage class. *)
Definition record_of (line : bytes) : option (string * string * Z * string) :=
  match decode line with
  | None => None
  | Some line =>
      match split line with
      | [bucket_name; key; size; storage_class] =>
          match int size with
          | None => None
          | Some size => Some (bucket_name, key, size, storage_class)
          end
      | _ => None
      end
  end.
End builtins.

(** ** Vocabulary of the statements *)

(** An object as [update] is given it: the names of the directories of its
    key, its storage class and its size. *)
Definition object : Type := list string * string * Z.

(** The directory that [update] builds from objects, in order. *)
Definition build (objs : list object) : Directory :=
  foldl (λ d o, update o.1.1 o.1.2 o.2 d) Directory_init objs.

(** The bytes of a storage class under the directory at path [P]. *)
Definition usage (P : list string) (sc : string) (objs : list object) : Z :=
  foldr Z.add 0%Z
    (omap (λ o : object,
             if decide (o.1.2 = sc ∧ P `prefix_of` o.1.1) then Some o.2
             else None) objs).

(** The objects below the subdirectory [name], seen from it. *)
Definition sub_objects (name : string) (objs : list object) : list object :=
  omap (λ o : object,
          match o.1.1 with
          | n :: rest => if decide (n = name) then Some (rest, o.1.2, o.2)
                         else None
          | [] => None
          end) objs.

(** The key that [print_usage] builds for the directory at path [P] below
    the directory of key [key]. *)
Definition key_of (key : string) (P : list string) : string :=
  foldl (λ k name, lstrip_slash (k +:+ "/" +:+ name)) key P.

(** The objects of a bucket among records. *)
Definition objects_of (bucket : string)
    (recs : list (string * string * Z * string)) : list object :=
  omap (λ r : string * string * Z * string,
          if decide (r.1.1.1 = bucket)
          then Some (removelast (split_on "/" r.1.1.2), r.2, r.1.2)
          else None) recs.

(** The directories by bucket after one more record. *)
Definition add_record (total : dict string Directory)
    (r : string * string * Z * string) : dict string Directory :=
  dict_upd (update (removelast (split_on "/" r.1.1.2)) r.2 r.1.2)
    Directory_init r.1.1.1 total.

(** The records of the lines of standard input that are accepted. *)
Definition records (decode : bytes → option string)
    (split : string → list string) (int : string → option Z) (stdin : bytes)
    : list (string * string * Z * string) :=
  omap (record_of decode split int) (readlines stdin).

(** The objects below the directory at path [P], seen from it, and the
    names of the subdirectories that the objects give that directory. *)
Definition below (P : list string) (objs : list object) : list object :=
  foldl (λ os name, sub_objects name os) objs P.
Definition child_names (P : list string) (objs : list object) : gset string :=
  list_to_set (omap (λ o : object, head o.1.1) (below P objs)).

(** Every directory of a tree keeps at most [n] subdirectories. *)
Fixpoint fanout_le (n : nat) (d : Directory) : Prop :=
  match d with
  | mkDirectory _ subs =>
      length subs ≤ n
      ∧ (fix each (l : dict string Directory) : Prop :=
           match l with
           | [] => True
           | (_, sub) :: l => fanout_le n sub ∧ each l
           end) subs
  end.

End s3_ls_du.

(** * Request counts from S3 access logs (sum_up_s3_logs.py) *)

Module sum_up_s3_logs.

(** A [bytes] literal. *)
Definition b (s : string) : bytes := String.list_byte_of_string s.

(** [s.startswith(prefix)] *)
Fixpoint startswith (prefix s : bytes) : bool :=
  match prefix, s with
  | [], _ => true
  | p :: prefix, x :: s => Byte.eqb p x && startswith prefix s
  | _ :: _, [] => false
  end.

(** ** The regular expressions

    Both expressions are sequences of byte classes; wherever a class is
    repeated, the byte that has to follow the repetition is outside the
    class, so the only match is the one that takes the longest run. *)

(** The classes [[lo-hi]] and a single byte. *)
Definition byte_in (lo hi x : byte) : bool :=
  (Byte.to_N lo <=? Byte.to_N x)%N && (Byte.to_N x <=? Byte.to_N hi)%N.
Definition byte_is (c x : byte) : bool := Byte.eqb c x.
Definition is_digit : byte → bool := byte_in "0" "9".
Definition is_upper : byte → bool := byte_in "A" "Z".
Definition is_lower : byte → bool := byte_in "a" "z".

(** A prefix of [s] matches the classes, one byte each. *)
Fixpoint match_classes (classes : list (byte → bool)) (s : bytes) : bool :=
  match classes, s with
  | [], _ => true
  | c :: classes, x :: s => c x && match_classes classes s
  | _ :: _, [] => false
  end.

(** [s[i:i+n]] *)
Definition slice (i n : nat) (s : bytes) : bytes := take n (drop i s).

(** The longest prefix of bytes of a class, and what follows it. *)
Fixpoint span (p : byte → bool) (s : bytes) : bytes * bytes :=
  match s with
  | x :: s' => if p x then let r := span p s' in (x :: r.1, r.2) else ([], s)
  | [] => ([], [])
  end.

(** [(c+)] before a byte outside [c], and a literal byte. *)
Definition run (p : byte → bool) (s : bytes) : option (bytes * bytes) :=
  match span p s with
  | ([], _) => None
  | r => Some r
  end.
Definition lit (c : byte) (s : bytes) : option bytes :=
  match s with
  | x :: s' => if Byte.eqb x c then Some s' else None
  | [] => None
  end.

Definition is_hex (x : byte) : bool := is_digit x || byte_in "a" "f" x.
Definition not_space (x : byte) : bool := negb (byte_is " " x).
(** [[0-9A-Za-z:/ +-]] *)
Definition date_class (x : byte) : bool :=
  is_digit x || is_upper x || is_lower x || byte_is ":" x || byte_is "/" x
  || byte_is " " x || byte_is "+" x || byte_is "-" x.

(** [re_line.match(line).groups()], lines 114-118: bucket, date,
    operation and key. *)
Definition re_line_match (line : bytes) : option (bytes * bytes * bytes * bytes) :=
  '(_, s) ← run is_hex line; s ← lit " " s;
  '(bucket, s) ← run not_space s; s ← lit " " s;
  s ← lit "[" s; '(dt_str, s) ← run date_class s; s ← lit "]" s; s ← lit " " s;
  '(_, s) ← run not_space s; s ← lit " " s;
  '(_, s) ← run not_space s; s ← lit " " s;
  '(_, s) ← run not_space s; s ← lit " " s;
  '(operation, s) ← run not_space s; s ← lit " " s;
  '(key, _) ← run not_space s;
  Some (bucket, dt_str, operation, key).

(** [re_date], lines 137-140: 26 bytes. *)
Definition re_date : list (byte → bool) :=
  [byte_in "0" "3"; is_digit; byte_is "/";
   is_upper; is_lower; is_lower; byte_is "/";
   is_digit; is_digit; is_digit; is_digit; byte_is ":";
   byte_in "0" "2"; is_digit; byte_is ":";
   byte_in "0" "5"; is_digit; byte_is ":";
   byte_in "0" "6"; is_digit; byte_is " ";
   (λ x, byte_is "+" x || byte_is "-" x);
   is_digit; is_digit; is_digit; is_digit].

(** ** The months *)

(** [bytes.split()]: the runs of bytes that are not ASCII whitespace. *)
Definition is_space (x : byte) : bool :=
  byte_is " " x || byte_in x09 x0d x.
Fixpoint split_go (cur : bytes) (s : bytes) : list bytes :=
  match s with
  | [] => match cur with [] => [] | _ => [cur] end
  | x :: s =>
      if is_space x then
        match cur with [] => split_go [] s | _ => cur :: split_go [] s end
      else split_go (cur ++ [x]) s
  end.
Definition split (s : bytes) : list bytes := split_go [] s.

Definition month_names : list bytes :=
  split (b "Jan Feb Mar Apr May Jun Jul Aug Sep Oct Nov Dec").

(** [{name: n for n, name in enumerate(month_names, start=1)}] *)
Definition month_by_name : dict bytes Z :=
  foldl (λ d it, dict_upd (λ _, it.1) 0%Z it.2 d) []
    (zip (Z.of_nat <$> seq 1 (length month_names)) month_names).

(** ** Parsing *)

Inductive exn : Type :=
  | InvalidLineFormat          (* Exception('Invalid line format') *)
  | InvalidDateFormat          (* Exception('Invalid date format: ...') *)
  | TimezoneNotImplemented     (* Exception('Timezone support ...') *)
  | KeyError
  | ValueError
  | UnicodeDecodeError.

(** [int(s)] on bytes that are decimal digits, as the groups of [re_date]
    are. *)
Definition int (s : bytes) : Z :=
  foldl (λ acc x, 10 * acc + (Z.of_N (Byte.to_N x) - 48))%Z 0%Z s.

(** [s.decode('ascii')] *)
Definition decode_ascii (s : bytes) : option string :=
  if forallb (λ x, (Byte.to_N x <? 128)%N) s
  then Some (String.string_of_list_byte s) else None.

Section library.
(** The values of [datetime] and its constructor, [None] for the
    [ValueError] of a field out of range; [strftime('%Y-%m-%d')];
    [decode('UTF-8')]. *)
Variable datetime_t : Type.
Variable datetime : Z → Z → Z → Z → Z → Z → option datetime_t.
Variable strftime : datetime_t → string.
Variable decode_utf8 : bytes → option string.

(** [parse_date], lines 149-160. *)
Definition parse_date (dt_str : bytes) : exn + datetime_t :=
  if match_classes re_date dt_str then
    let day := slice 0 2 dt_str in
    let month_name := slice 3 3 dt_str in
    let year := slice 7 4 dt_str in
    let hour := slice 12 2 dt_str in
    let minute := slice 15 2 dt_str in
    let second := slice 18 2 dt_str in
    let tz_hours := slice 22 2 dt_str in
    let tz_minutes := slice 24 2 dt_str in
    if decide (tz_hours ≠ b "00" ∨ tz_minutes ≠ b "00")
    then inl TimezoneNotImplemented
    else
      match dict_get month_name month_by_name with
      | None => inl KeyError
      | Some month =>
          match datetime (int year) month (int day)
                  (int hour) (int minute) (int second) with
          | None => inl ValueError
          | Some d => inr d
          end
      end
  else inl InvalidDateFormat.

(** [Record], line 121. *)
Record Record : Type := mkRecord {
  bucket : string;
  date : datetime_t;
  operation : string;
  key : string;
}.

(** [parse_line], lines 124-134. *)
Definition parse_line (line : bytes) : exn + Record :=
  match re_line_match line with
  | None => inl InvalidLineFormat
  | Some (bucket, dt_str, operation, key) =>
      match decode_ascii bucket with
      | None => inl UnicodeDecodeError
      | Some bucket =>
          match parse_date dt_str with
          | inl e => inl e
          | inr date =>
              match decode_ascii operation with
              | None => inl UnicodeDecodeError
              | Some operation =>
                  match decode_utf8 key with
                  | None => inl UnicodeDecodeError
                  | Some key => inr (mkRecord bucket date operation key)
                  end
              end
          end
      end
  end.

(** ** Counting *)

(** The keys of the counter: bucket, key, day and operation. *)
Definition counter_key : Type := string * string * string * string.

(** [print_counts], lines 98-103: the lines printed. *)
Definition format_count (it : counter_key * nat) : string :=
  it.1.1.1.1 +:+ " " +:+ it.1.1.1.2 +:+ " date=" +:+ it.1.1.2
  +:+ " operation=" +:+ it.1.2 +:+ " count=" +:+ pretty it.2.
Definition print_counts (counter : dict counter_key nat) : list string :=
  format_count <$> counter.

(** [len(counter) >= threshold] prints the counts and starts a new
    counter; sum_up_s3_logs.py fixes it at 1000000. *)
Variable threshold : nat.

(** The loop of [process_stream], lines 80-91, entered with the counter:
    what it prints, and the counter it ends with or the exception that
    ends it.  The progress messages of the logger are left out. *)
Fixpoint process_lines (counter : dict counter_key nat) (stream : list bytes)
    : list string * (exn + dict counter_key nat) :=
  match stream with
  | [] => ([], inr counter)
  | line :: stream =>
      if startswith (b "#") line then process_lines counter stream
      else
        match parse_line line with
        | inl e => ([], inl e)
        | inr rec =>
            let k := (bucket rec, key rec, strftime (date rec), operation rec) in
            let counter := dict_upd S 0 k counter in
            if threshold <=? length counter then
              let r := process_lines [] stream in
              (print_counts counter ++ r.1, r.2)
            else process_lines counter stream
        end
  end.

(** [process_stream], lines 75-95: what it prints and the exception it
    logs, if any. *)
Definition process_stream (stream : list bytes) : list string * option exn :=
  match process_lines [] stream with
  | (out, inr counter) =>
      (out ++ match counter with [] => [] | _ => print_counts counter end, None)
  | (out, inl e) => (out, Some e)
  end.

(** ** Vocabulary of the statements *)

(** The key under which a line is counted; [None] for a comment and for a
    line that does not parse. *)
Definition line_key (line : bytes) : option counter_key :=
  if startswith (b "#") line then None
  else
    match parse_line line with
    | inl _ => None
    | inr rec => Some (bucket rec, key rec, strftime (date rec), operation rec)
    end.

(** A line that [process_stream] passes: a comment or a line that parses. *)
Definition accepted (line : bytes) : Prop :=
  startswith (b "#") line = true ∨ ∃ rec, parse_line line = inr rec.
End library.

(** The count of a key among printed items. *)
Definition printed_count (k : counter_key) (items : list (counter_key * nat))
    : nat :=
  sum_list (omap (λ it : counter_key * nat,
                    if decide (it.1 = k) then Some it.2 else None) items).

(** The threshold of sum_up_s3_logs.py. *)
Definition flush_threshold : nat := N.to_nat 1000000.

(** The count of a key in a counter. *)
Definition count_of (k : counter_key) (counter : dict counter_key nat) : nat :=
  default 0 (dict_get k counter).

(** Two decimal digits, four decimal digits. *)
Definition digit (n : N) : byte :=
  default "0"%byte (Byte.of_N (48 + n `mod` 10)).
Definition digits2 (n : N) : bytes := [digit (n / 10); digit n].
Definition digits4 (n : N) : bytes :=
  [digit (n / 1000); digit (n / 100); digit (n / 10); digit n].

(** A time stamp of an S3 access log, [%d/%b/%Y:%H:%M:%S] followed by an
    offset of [0000] with a sign; the month is given by its number. *)
Definition timestamp (year month day hour minute second : N) (sign : byte)
    : bytes :=
  digits2 day ++ b "/" ++ default [] (month_names !! N.to_nat (month - 1))
  ++ b "/" ++ digits4 year ++ b ":" ++ digits2 hour ++ b ":"
  ++ digits2 minute ++ b ":" ++ digits2 second ++ b " " ++ [sign] ++ b "0000".

(** The sample line of the module, lines 163-171; [x22] is the double
    quote. *)
Definition sample_line : bytes :=
  b "c8f54323b37925ebe7617174b0e940623caad6e9e798e7f0dc55675743eb04c0 "
  ++ b "edc-data-staging [03/May/2019:02:40:29 +0000] 94.130.17.190 - "
  ++ b "B9579B47C8F79A37 "
  ++ b "REST.GET.OBJECT edc-s3-mock-data/Cases/ID002 "
  ++ [x22] ++ b "GET /edc-data-staging/edc-s3-mock-data/Cases/ID002 HTTP/1.1"
  ++ [x22] ++ b " 200 - 1234 1234 16 15 " ++ [x22] ++ b "-" ++ [x22] ++ b " "
  ++ [x22] ++ b "python-requests/2.21.0" ++ [x22] ++ b " - "
  ++ b "PwohJhVIBLoSRUrr+D9ElHt/av4XzO86zvIxp27mb5fFMWmKp0uon8DiSFHn63vmSalkc4ZWDdY= - "
  ++ b "ECDHE-RSA-AES128-GCM-SHA256 - s3.eu-central-1.amazonaws.com TLSv1.2".

End sum_up_s3_logs.
(** ** Facts on the byte order *)

Lemma byte_ltb_irrefl a : byte_ltb a a = false.
Proof. unfold byte_ltb. apply N.ltb_irrefl. Qed.

Lemma to_N_inj a b : Byte.to_N a = Byte.to_N b → a = b.
Proof.
  intros H. apply (f_equal Byte.of_N) in H.
  rewrite !Byte.of_to_N in H. congruence.
Qed.

Lemma byte_ltb_tricho a b :
  byte_ltb a b = false → byte_ltb b a = false → a = b.
Proof.
  unfold byte_ltb. intros H1%N.ltb_ge H2%N.ltb_ge. apply to_N_inj. lia.
Qed.

Lemma byte_ltb_asym a b : byte_ltb a b = true → byte_ltb b a = false.
Proof. unfold byte_ltb. intros H%N.ltb_lt. apply N.ltb_ge. lia. Qed.

Lemma byte_ltb_trans a b c :
  byte_ltb a b = true → byte_ltb b c = true → byte_ltb a c = true.
Proof. unfold byte_ltb. rewrite !N.ltb_lt. lia. Qed.

Lemma bytes_leb_refl a : bytes_leb a a = true.
Proof. induction a as [|x a IH]; simpl; [done|]. by rewrite byte_ltb_irrefl. Qed.

Lemma bytes_leb_total a b : bytes_leb a b = true ∨ bytes_leb b a = true.
Proof.
  revert b. induction a as [|x a IH]; intros [|y b]; simpl; auto.
  destruct (byte_ltb x y) eqn:Hxy; [auto|].
  destruct (byte_ltb y x) eqn:Hyx; auto.
Qed.

Lemma bytes_leb_antisym a b :
  bytes_leb a b = true → bytes_leb b a = true → a = b.
Proof.
  revert b. induction a as [|x a IH]; intros [|y b]; simpl; try done.
  destruct (byte_ltb x y) eqn:Hxy.
  - by rewrite (byte_ltb_asym _ _ Hxy).
  - destruct (byte_ltb y x) eqn:Hyx; [done|].
    intros H1 H2. rewrite (byte_ltb_tricho _ _ Hxy Hyx). f_equal. by apply IH.
Qed.

Lemma bytes_leb_trans a b c :
  bytes_leb a b = true → bytes_leb b c = true → bytes_leb a c = true.
Proof.
  revert b c. induction a as [|x a IH]; intros [|y b] [|z c]; simpl; try done.
  destruct (byte_ltb x y) eqn:Hxy.
  - destruct (byte_ltb y z) eqn:Hyz.
    + by rewrite (byte_ltb_trans _ _ _ Hxy Hyz).
    + destruct (byte_ltb z y) eqn:Hzy; [done|].
      rewrite <- (byte_ltb_tricho _ _ Hyz Hzy). by rewrite Hxy.
  - destruct (byte_ltb y x) eqn:Hyx; [done|].
    rewrite (byte_ltb_tricho _ _ Hxy Hyx).
    destruct (byte_ltb y z) eqn:Hyz; [done|].
    destruct (byte_ltb z y) eqn:Hzy; [done|]. eauto.
Qed.

Global Instance bytes_le_refl : Reflexive bytes_le.
Proof. intros a. apply bytes_leb_refl. Qed.
Global Instance bytes_le_trans : Transitive bytes_le.
Proof. intros a b c. apply bytes_leb_trans. Qed.
Global Instance bytes_le_total : Total bytes_le.
Proof. intros a b. apply bytes_leb_total. Qed.
Global Instance bytes_le_antisym : AntiSymm (=) bytes_le.
Proof. intros a b. apply bytes_leb_antisym. Qed.

Lemma bytes_lt_le a b : bytes_lt a b → bytes_le a b.
Proof.
  unfold bytes_lt, bytes_ltb, bytes_le. intros H%negb_true_iff.
  destruct (bytes_leb_total a b); congruence.
Qed.

Lemma bytes_lt_not_le a b : bytes_lt a b ↔ ¬ bytes_le b a.
Proof.
  unfold bytes_lt, bytes_ltb, bytes_le. rewrite negb_true_iff.
  destruct (bytes_leb b a); naive_solver.
Qed.

(** ** Facts on lines *)

Lemma eqb_nl c : Byte.eqb c nl = true ↔ c = nl.
Proof.
  split; [apply Byte.byte_dec_bl|]. intros ->. reflexivity.
Qed.

Lemma endswith_nl_snoc c x : endswith_nl (c ++ [x]) = Byte.eqb x nl.
Proof. unfold endswith_nl. by rewrite last_snoc. Qed.

Lemma endswith_nl_cons x l : l ≠ [] → endswith_nl (x :: l) = endswith_nl l.
Proof. unfold endswith_nl. destruct l; [done|]. by rewrite last_cons_cons. Qed.

Lemma endswith_nl_inv l : endswith_nl l = true → ∃ c, l = c ++ [nl].
Proof.
  destruct l as [|x l _] using rev_ind; [done|].
  rewrite endswith_nl_snoc. intros H%eqb_nl. subst x. eauto.
Qed.

Lemma proper_endswith l : proper l → endswith_nl l = true.
Proof. intros (c & -> & _). by rewrite endswith_nl_snoc. Qed.

Lemma readlines_cons_nl s : readlines (nl :: s) = [nl] :: readlines s.
Proof. reflexivity. Qed.

Lemma readlines_cons_other c s :
  c ≠ nl →
  readlines (c :: s) =
    match readlines s with [] => [[c]] | l :: ls => (c :: l) :: ls end.
Proof.
  intros Hc. simpl. destruct (Byte.eqb c nl) eqn:E; [|done].
  by apply eqb_nl in E.
Qed.

Lemma readlines_proper_app c s :
  nl ∉ c → readlines (c ++ nl :: s) = (c ++ [nl]) :: readlines s.
Proof.
  induction c as [|x c IH]; intros Hc; [done|].
  apply not_elem_of_cons in Hc as [Hx Hc]. simpl app.
  rewrite readlines_cons_other by done. by rewrite IH.
Qed.

(** Reading back what was written line by line gives the lines. *)
Lemma readlines_concat ls : Forall proper ls → readlines (concat ls) = ls.
Proof.
  induction 1 as [|l ls (c & -> & Hc) _ IH]; [done|].
  simpl. rewrite <- app_assoc. simpl. rewrite readlines_proper_app by done.
  by rewrite IH.
Qed.

(** The lines of a stream, joined, are the stream. *)
Lemma concat_readlines s : concat (readlines s) = s.
Proof.
  induction s as [|c s IH]; [done|]. simpl.
  destruct (Byte.eqb c nl) eqn:E.
  - simpl. by rewrite IH.
  - destruct (readlines s) as [|l ls]; simpl in *; by rewrite <- IH.
Qed.

(** Each line is non-empty and has no delimiter before its last byte. *)
Lemma readlines_shape s :
  Forall line_shaped (readlines s).
Proof.
  unfold line_shaped.
  induction s as [|c s IH]; [constructor|]. simpl.
  destruct (Byte.eqb c nl) eqn:E.
  - constructor; [|done]. split; [done|]. simpl. apply not_elem_of_nil.
  - destruct (readlines s) as [|l ls].
    + constructor; [|done]. split; [done|]. simpl. apply not_elem_of_nil.
    + apply Forall_cons in IH as [[Hl Hnl] IH]. constructor; [|done].
      split; [done|]. destruct l as [|y l]; [done|].
      change (removelast (c :: y :: l)) with (c :: removelast (y :: l)).
      apply not_elem_of_cons. split; [|done].
      intros Hc. subst c. by rewrite (proj2 (eqb_nl nl)) in E.
Qed.

Lemma line_shaped_proper l : line_shaped l → endswith_nl l = true → proper l.
Proof.
  intros [_ Hnl] He. destruct (endswith_nl_inv l He) as [c ->].
  exists c. split; [done|]. by rewrite removelast_last in Hnl.
Qed.

Lemma readlines_proper s l :
  l ∈ readlines s → endswith_nl l = true → proper l.
Proof.
  intros Hl He. pose proof (readlines_shape s) as Hs.
  rewrite Forall_forall in Hs. by apply line_shaped_proper; [apply Hs|].
Qed.

(** Every line but the last ends with the delimiter. *)
Lemma readlines_init_endswith s ls l :
  readlines s = ls ++ [l] → Forall (λ l, endswith_nl l = true) ls.
Proof.
  revert ls l. induction s as [|c s IH]; intros ls l; simpl.
  - by destruct ls.
  - destruct (Byte.eqb c nl) eqn:E.
    + destruct ls as [|l' ls]; [constructor|].
      intros [= <- H]. constructor; [|by eapply IH].
      unfold endswith_nl. simpl. done.
    + destruct (readlines s) as [|l0 ls0] eqn:Hr.
      * destruct ls as [|l' [|]]; [constructor|done|done].
      * destruct ls as [|l' ls]; [constructor|].
        intros [= <- H]. pose proof (IH (l0 :: ls) l) as IH'.
        rewrite H in IH'. specialize (IH' eq_refl).
        apply Forall_cons in IH' as [H0 IH']. constructor; [|done].
        rewrite endswith_nl_cons; [done|]. by intros ->.
Qed.

Lemma readlines_nil s : readlines s = [] ↔ s = [].
Proof.
  split; [|by intros ->]. destruct s as [|c s]; [done|]. simpl.
  destruct (Byte.eqb c nl); [done|]. by destruct (readlines s).
Qed.

Lemma last_readlines s l :
  last (readlines s) = Some l → endswith_nl l = endswith_nl s.
Proof.
  revert l. induction s as [|c s IH]; intros l; [done|]. simpl.
  destruct (Byte.eqb c nl) eqn:E.
  - destruct (readlines s) as [|l0 ls] eqn:Hr.
    + apply readlines_nil in Hr as ->. intros [= <-]. done.
    + rewrite last_cons_cons. intros Hl. rewrite (IH _ Hl).
      rewrite endswith_nl_cons; [done|]. intros ->. done.
  - destruct (readlines s) as [|l0 ls] eqn:Hr.
    + apply readlines_nil in Hr as ->. by intros [= <-].
    + assert (s ≠ []) as Hs by (by intros ->).
      rewrite (endswith_nl_cons _ s Hs). destruct ls as [|l1 ls].
      * intros [= <-]. rewrite <- (IH l0 eq_refl).
        apply endswith_nl_cons. intros ->.
        pose proof (readlines_shape s) as Hsh. rewrite Hr in Hsh.
        by apply Forall_cons in Hsh as [[? _] _].
      * rewrite !last_cons_cons. intros Hl. apply IH.
        by rewrite last_cons_cons.
Qed.

(** An input is well formed when it is empty or ends with the delimiter. *)
Lemma well_formed_iff input :
  well_formed input ↔ input = [] ∨ endswith_nl input = true.
Proof.
  unfold well_formed.
  destruct (readlines input) as [|l ls _] eqn:Hr using rev_ind.
  - apply readlines_nil in Hr as ->. split; [auto|constructor].
  - pose proof (readlines_init_endswith _ _ _ Hr) as Hinit.
    pose proof (last_readlines input l) as Hlast.
    rewrite Hr, last_snoc in Hlast. specialize (Hlast eq_refl).
    rewrite Forall_app, Forall_singleton. split.
    + intros [_ Hl]. right. congruence.
    + intros [->|He]; [by destruct ls|]. split; [done|congruence].
Qed.

Lemma well_formed_proper input :
  well_formed input → Forall proper (readlines input).
Proof.
  unfold well_formed. rewrite !Forall_forall. intros H l Hl.
  eapply readlines_proper; eauto.
Qed.

(** ** Facts on traces *)

Lemma registered_app t1 t2 : registered (t1 ++ t2) = registered t1 ++ registered t2.
Proof. apply omap_app. Qed.
Lemma created_app t1 t2 : created (t1 ++ t2) = created t1 ++ created t2.
Proof. apply omap_app. Qed.
Lemma unlink_attempts_app t1 t2 :
  unlink_attempts (t1 ++ t2) = unlink_attempts t1 ++ unlink_attempts t2.
Proof. apply omap_app. Qed.
Lemma logged_app t1 t2 : logged (t1 ++ t2) = logged t1 ++ logged t2.
Proof. apply omap_app. Qed.
Lemma yields_app t1 t2 : yields (t1 ++ t2) = yields t1 ++ yields t2.
Proof. apply omap_app. Qed.

Lemma scan_app k t1 t2 :
  scan k (t1 ++ t2) = scan k t1 ≫= λ k', scan k' t2.
Proof.
  revert k. induction t1 as [|e t1 IH]; intros k; [done|].
  destruct e as [[] ?| | |]; simpl; repeat case_decide; auto.
Qed.

Lemma scan_app_Some k t1 t2 k1 k2 :
  scan k t1 = Some k1 → scan k1 t2 = Some k2 → scan k (t1 ++ t2) = Some k2.
Proof. intros H1 H2. by rewrite scan_app, H1. Qed.

Lemma quiet_app t1 t2 : quiet t1 → quiet t2 → quiet (t1 ++ t2).
Proof. apply Forall_app_2. Qed.

Lemma quiet_nil : quiet [].
Proof. constructor. Qed.

Lemma quiet_scan k t : quiet t → scan k t = Some k.
Proof.
  induction 1 as [|e t He _ IH]; [done|].
  destruct e as [[] ?| | |]; simpl in *; done.
Qed.

Lemma quiet_yields t : quiet t → yields t = [].
Proof.
  induction 1 as [|e t He _ IH]; [done|].
  destruct e as [[] ?| | |]; simpl in *; done.
Qed.

Lemma quiet_created t : quiet t → created t = [].
Proof.
  induction 1 as [|e t He _ IH]; [done|].
  destruct e as [[] ?| | |]; simpl in *; done.
Qed.

Lemma all_ok_app t1 t2 : all_ok t1 → all_ok t2 → all_ok (t1 ++ t2).
Proof. apply Forall_app_2. Qed.

Lemma all_ok_nil : all_ok [].
Proof. constructor. Qed.

(** What a scanned trace registers, in order; it unlinks and logs nothing. *)
Lemma scan_registered k t k' :
  scan k t = Some k' →
  k ≤ k' ∧ registered t = seq k (k' - k) ∧ unlink_attempts t = [] ∧ logged t = [].
Proof.
  revert k. induction t as [|e t IH]; intros k; simpl.
  - intros [= <-]. by rewrite Nat.sub_diag.
  - destruct e as [[] ?| | |]; simpl; repeat case_decide; try done;
      try (intros Hs; by apply IH in Hs).
    subst. intros Hs. apply IH in Hs as (? & -> & ? & ?).
    replace (k' - k) with (S (k' - S k)) by lia. split; [lia|]. done.
Qed.


(** ** Running the monad *)

Lemma bind_run {A B} (m : M A) (f : A → M B) w :
  (m ≫= f) w =
    match m w with
    | (Ok a, w') => f a w'
    | (Raise e, w') => (Raise e, w')
    | (OutOfFuel, w') => (OutOfFuel, w')
    end.
Proof. reflexivity. Qed.

Lemma add_trace_nil w : add_trace [] w = w.
Proof. destruct w. unfold add_trace, set_trace. simpl. by rewrite app_nil_r. Qed.

Lemma add_trace_app t1 t2 w : add_trace t2 (add_trace t1 w) = add_trace (t1 ++ t2) w.
Proof. destruct w. unfold add_trace, set_trace. simpl. by rewrite app_assoc. Qed.

Lemma outcome_weaken {A} fails (r : res A) t t' (bad bad' : Prop) (Q Q' : A → Prop) :
  outcome fails r t bad Q →
  (all_ok t → all_ok t') →
  (bad → bad') → (∀ a, all_ok t → Q a → Q' a) →
  outcome fails r t' bad' Q'.
Proof. destruct r as [a|[]|]; simpl; intuition eauto. Qed.

Lemma all_ok_cons_io op t : all_ok t → all_ok (EvIo op true :: t).
Proof. by constructor. Qed.

Lemma seg_write_facts p t :
  Forall (λ e, is_seg_write p e = true) t →
  (∀ k, p < k → scan k t = Some k) ∧ yields t = [] ∧ created t = [].
Proof.
  induction 1 as [|e t He _ (IH1 & IH2 & IH3)]; [done|].
  destruct e as [[] ?| | |]; simpl in *; try done;
    apply bool_decide_eq_true in He as ->; (split_and!; [|done..]);
    intros k Hk; rewrite decide_True by done; auto.
Qed.

Section specs.
Context (threshold : nat) (fails : nat → io_op → bool).
Hypothesis Hthreshold : 0 < threshold.

Lemma io_spec op w :
  ∃ ok : bool, io fails op w
          = (if ok then Ok tt else Raise (OSError op), add_trace [EvIo op ok] w)
        ∧ (ok = false → fails (length (trace w)) op = true).
Proof.
  unfold io. destruct (fails (length (trace w)) op) eqn:Hf; simpl.
  - by exists false.
  - by exists true.
Qed.

Lemma read_chunk_spec lines chunk w :
  input_stream w = lines → length chunk < threshold →
  ∃ r t rest,
    read_chunk threshold fails lines chunk w
      = (r, set_input_stream rest (add_trace t w))
    ∧ quiet t
    ∧ outcome fails r t (∃ bad, bad ∈ lines ∧ endswith_nl bad = false)
        (λ c, let n := threshold - length chunk in
              c = chunk ++ take n lines ∧ rest = drop n lines
              ∧ Forall (λ l, endswith_nl l = true) (take n lines)).
Proof.
  revert chunk w. induction lines as [|line lines IH]; intros chunk w Hin Hlen.
  - simpl. rewrite bind_run.
    destruct (io_spec ReadInput w) as [[|] [-> Hok]]; simpl.
    + exists (Ok chunk), [EvIo ReadInput true], []. split_and!.
      * destruct w; simpl in *; by subst.
      * by repeat constructor.
      * simpl. rewrite take_nil, drop_nil, app_nil_r.
        split_and!; by repeat constructor.
    + exists (Raise (OSError ReadInput)), [EvIo ReadInput false], [].
      split_and!; [destruct w; simpl in *; by subst|by repeat constructor|].
      simpl. eauto.
  - simpl. rewrite bind_run.
    destruct (io_spec ReadInput w) as [[|] [-> Hok]]; simpl.
    2:{ exists (Raise (OSError ReadInput)), [EvIo ReadInput false], (line :: lines).
        split_and!; [destruct w; simpl in *; by subst|by repeat constructor|].
        simpl. eauto. }
    rewrite bind_run. simpl.
    destruct (endswith_nl line) eqn:Hline.
    2:{ exists (Raise AssertionError), [EvIo ReadInput true], lines.
        split_and!; [done|by repeat constructor|].
        simpl. exists line. split; [left|done]. }
    rewrite length_app. simpl.
    destruct (threshold <=? length chunk + 1) eqn:Hfull.
    + apply Nat.leb_le in Hfull.
      exists (Ok (chunk ++ [line])), [EvIo ReadInput true], lines.
      split_and!; [done|by repeat constructor|].
      simpl. replace (threshold - length chunk) with 1 by lia. simpl.
      rewrite take_0, drop_0. split_and!; by repeat constructor.
    + apply Nat.leb_gt in Hfull.
      destruct (IH (chunk ++ [line])
                  (set_input_stream lines (add_trace [EvIo ReadInput true] w)))
        as (r & t & rest & -> & Hq & Hout); [done|rewrite length_app; simpl; lia|].
      exists r, (EvIo ReadInput true :: t), rest. split_and!.
      * destruct w; simpl. unfold add_trace, set_trace, set_input_stream. simpl.
        by rewrite <- app_assoc.
      * by constructor.
      * eapply outcome_weaken; [exact Hout|apply all_ok_cons_io| |].
        -- intros (bad & ? & ?). exists bad. split; [by right|done].
        -- simpl. intros c Hok' (-> & -> & Hall). rewrite length_app. simpl.
           replace (threshold - length chunk)
             with (S (threshold - (length chunk + 1))) by lia. simpl.
           rewrite <- app_assoc. rewrite length_app in Hall. simpl in Hall.
           split_and!; [done|done|by constructor].
Qed.

Lemma write_lines_spec p chunk w data :
  fs w !! p = Some data →
  ∃ r t written,
    write_lines fails p chunk w
      = (r, set_fs (<[p := data ++ concat written]> (fs w)) (add_trace t w))
    ∧ Forall (λ e, is_seg_write p e = true) t
    ∧ outcome fails r t False (λ _, written = chunk).
Proof.
  revert w data. induction chunk as [|line chunk IH]; intros w data Hp.
  - exists (Ok tt), [], []. split_and!; [|constructor|by split; [constructor|]].
    simpl. rewrite app_nil_r, insert_id, add_trace_nil by done. by destruct w.
  - simpl. rewrite bind_run.
    destruct (io_spec (WriteSeg p) w) as [[|] [-> Hok]]; simpl.
    2:{ exists (Raise (OSError (WriteSeg p))), [EvIo (WriteSeg p) false], [].
        split_and!.
        - simpl. rewrite app_nil_r, insert_id by done. by destruct w.
        - repeat constructor. simpl. by apply bool_decide_eq_true.
        - simpl. eauto. }
    rewrite bind_run. simpl. rewrite Hp. simpl.
    destruct (IH (set_fs (<[p:=data ++ line]> (fs w))
                    (add_trace [EvIo (WriteSeg p) true] w)) (data ++ line))
      as (r & t & written & -> & Hq & Hout).
    { simpl. apply lookup_insert_eq. }
    exists r, (EvIo (WriteSeg p) true :: t), (line :: written). split_and!.
    + destruct w; simpl. unfold add_trace, set_trace, set_fs. simpl.
      by rewrite insert_insert_eq, <- !app_assoc.
    + constructor; [|done]. simpl. by apply bool_decide_eq_true.
    + eapply outcome_weaken; [exact Hout|apply all_ok_cons_io|done|].
      simpl. by intros _ _ ->.
Qed.

Lemma write_segment_spec p chunk w :
  ∃ r t fs',
    write_segment fails p chunk w = (r, set_fs fs' (add_trace t w))
    ∧ (∀ q, q ≠ p → fs' !! q = fs w !! q)
    ∧ (∀ k, p < k → scan k t = Some k)
    ∧ yields t = []
    ∧ outcome fails r t False
        (λ _, fs' = <[p := concat chunk]> (fs w) ∧ created t = [p]).
Proof.
  unfold write_segment. rewrite bind_run.
  destruct (io_spec (OpenWrite p) w) as [[|] [-> Hok]]; simpl.
  2:{ exists (Raise (OSError (OpenWrite p))), [EvIo (OpenWrite p) false], (fs w).
      split_and!; [by destruct w|done| |done|simpl; eauto].
      intros k Hk. simpl. by rewrite decide_True. }
  rewrite bind_run. simpl. unfold try_finally.
  set (w1 := set_fs (<[p:=[]]> (fs w)) (add_trace [EvIo (OpenWrite p) true] w)).
  destruct (write_lines_spec p chunk w1 []) as (r & t & written & -> & Hq & Hout).
  { apply lookup_insert_eq. }
  apply seg_write_facts in Hq as (Hscan & Hy & Hc).
  set (w2 := set_fs _ (add_trace t w1)).
  destruct (io_spec (CloseWrite p) w2) as [ok [Hclose Hok']].
  assert (∀ k, p < k →
            scan k (EvIo (OpenWrite p) true :: t ++ [EvIo (CloseWrite p) ok])
            = Some k) as Hscan'.
  { intros k Hk. simpl. rewrite decide_True by done.
    eapply scan_app_Some; [by apply Hscan|]. simpl. by rewrite decide_True. }
  assert (yields (EvIo (OpenWrite p) true :: t ++ [EvIo (CloseWrite p) ok]) = [])
    as Hy'.
  { simpl. by rewrite yields_app, Hy. }
  assert (∀ q, q ≠ p →
            <[p:=[] ++ concat written]> (<[p:=[]]> (fs w)) !! q = fs w !! q) as Hfr.
  { intros q Hq. by rewrite !lookup_insert_ne. }
  destruct r as [[]|e|]; simpl in Hout; [| |done].
  - destruct Hout as [Hall ->]. rewrite Hclose. destruct ok.
    + eexists (Ok tt), _, _. split_and!; [|exact Hfr|exact Hscan'|exact Hy'|].
      * subst w2 w1. destruct w; simpl. unfold add_trace, set_trace, set_fs.
        simpl. by rewrite <- !app_assoc.
      * simpl. split_and!.
        -- constructor; [done|]. apply all_ok_app; [done|by repeat constructor].
        -- by rewrite insert_insert_eq.
        -- by rewrite created_app, Hc.
    + eexists (Raise (OSError (CloseWrite p))), _, _.
      split_and!; [|exact Hfr|exact Hscan'|exact Hy'|simpl; eauto].
      subst w2 w1. destruct w; simpl. unfold add_trace, set_trace, set_fs.
      simpl. by rewrite <- !app_assoc.
  - rewrite Hclose.
    exists (Raise (if ok then e else OSError (CloseWrite p))),
      (EvIo (OpenWrite p) true :: t ++ [EvIo (CloseWrite p) ok]),
      (<[p:=[] ++ concat written]> (<[p:=[]]> (fs w))).
    split_and!; [|exact Hfr|exact Hscan'|exact Hy'|].
    + subst w2 w1. destruct w, ok; simpl; unfold add_trace, set_trace, set_fs;
        simpl; by rewrite <- !app_assoc.
    + destruct ok; simpl; [|eauto]. by destruct e.
Qed.

Lemma spill_spec chunk w :
  let k := temp_file_counter w in
  ∃ r t fs',
    spill fails chunk w
      = (r, mkState (input_stream w) (output_stream w) fs'
              (temp_files w ++ [k]) (S k) (trace w ++ t))
    ∧ (∀ q, q ≠ k → fs' !! q = fs w !! q)
    ∧ scan k t = Some (S k)
    ∧ yields t = []
    ∧ outcome fails r t False
        (λ _, fs' = <[k := concat (list_sort chunk)]> (fs w) ∧ created t = [k]).
Proof.
  clear Hthreshold. intros k. subst k. unfold spill.
  repeat (rewrite bind_run; simpl).
  set (k := temp_file_counter w). set (w1 := set_trace _ _).
  destruct (write_segment_spec k (list_sort chunk) w1)
    as (r & t & fs' & -> & Hfr & Hscan & Hy & Hout).
  exists r, (EvRegister k :: t), fs'. split_and!.
  - subst w1. destruct w; simpl. unfold add_trace, set_trace, set_fs. simpl.
    by rewrite <- !app_assoc.
  - exact Hfr.
  - simpl. rewrite decide_True by done. apply Hscan. lia.
  - exact Hy.
  - eapply outcome_weaken; [exact Hout|by constructor|done|].
    simpl. by intros _ _ [-> ->].
Qed.

Lemma chunk_of_S L i :
  chunk_of threshold L (S i) = chunk_of threshold (drop threshold L) i.
Proof.
  unfold chunk_of. by rewrite drop_drop.
Qed.

Lemma phase_one_spec fuel w :
  length (input_stream w) < fuel →
  let L := input_stream w in
  let k0 := temp_file_counter w in
  ∃ r t rest fs' n,
    phase_one threshold fails fuel w
      = (r, mkState rest (output_stream w) fs' (temp_files w ++ seq k0 n)
              (k0 + n) (trace w ++ t))
    ∧ scan k0 t = Some (k0 + n)
    ∧ yields t = []
    ∧ (∀ q, q < k0 → fs' !! q = fs w !! q)
    ∧ outcome fails r t (∃ bad, bad ∈ L ∧ endswith_nl bad = false)
        (λ _, rest = []
              ∧ Forall (λ l, endswith_nl l = true) L
              ∧ chunk_count threshold (length L) n
              ∧ (∀ i, i < n → fs' !! (k0 + i) = Some (segment_of threshold L i))
              ∧ (∀ q, k0 + n ≤ q → fs' !! q = fs w !! q)
              ∧ created t = seq k0 n).
Proof.
  revert w. induction fuel as [|fuel IH]; intros w Hfuel; [lia|].
  simpl. repeat (rewrite bind_run; simpl).
  destruct (read_chunk_spec (input_stream w) [] w)
    as (r & t & rest & -> & Hq & Hout); [done|simpl; lia|].
  destruct r as [chunk|e|]; simpl in Hout; [| |done].
  2:{ exists (Raise e), t, rest, (fs w), 0. split_and!.
      - destruct w; simpl. by rewrite app_nil_r, Nat.add_0_r.
      - rewrite Nat.add_0_r. by apply quiet_scan.
      - by apply quiet_yields.
      - done.
      - by destruct e. }
  destruct Hout as (Hok & Hc & Hrest & Hall). simpl in Hc, Hrest, Hall.
  rewrite Nat.sub_0_r in Hc, Hrest, Hall.
  destruct chunk as [|c0 chunk'].
  { assert (input_stream w = []) as HL.
    { destruct (input_stream w); [done|]. destruct threshold; [lia|done]. }
    exists (Ok tt), t, rest, (fs w), 0. split_and!.
    - destruct w; simpl. by rewrite app_nil_r, Nat.add_0_r.
    - rewrite Nat.add_0_r. by apply quiet_scan.
    - by apply quiet_yields.
    - done.
    - simpl. rewrite HL in *. rewrite drop_nil in Hrest. split_and!; try done.
      + unfold chunk_count. simpl. lia.
      + lia.
      + by apply quiet_created. }
  rewrite bind_run.
  set (w1 := set_input_stream rest (add_trace t w)).
  destruct (spill_spec (c0 :: chunk') w1) as (r1 & t1 & fs1 & -> & Hfr1 & Hs1 & Hy1 & Hout1).
  simpl in Hfr1, Hs1, Hout1.
  set (k0 := temp_file_counter w) in *.
  destruct r1 as [[]|e|]; simpl in Hout1; [| |done].
  2:{ exists (Raise e), (t ++ t1), rest, fs1, 1. split_and!.
      - destruct w; simpl. by rewrite app_assoc, Nat.add_1_r.
      - rewrite Nat.add_1_r. eapply scan_app_Some; [by apply quiet_scan|done].
      - by rewrite yields_app, Hy1, quiet_yields.
      - intros q Hq'. apply Hfr1. lia.
      - destruct e; simpl in *; [done|eauto]. }
  destruct Hout1 as (Hok1 & -> & Hc1).
  set (w2 := mkState _ _ _ _ _ _).
  destruct (IH w2) as (r2 & t2 & rest2 & fs2 & n & -> & Hs2 & Hy2 & Hfr2 & Hout2).
  { subst w2 w1. simpl. subst rest. rewrite length_drop.
    assert (0 < length (input_stream w)); [|lia].
    destruct (input_stream w); simpl; [|lia]. by rewrite take_nil in Hc. }
  simpl in Hs2, Hfr2, Hout2.
  exists r2, (t ++ t1 ++ t2), rest2, fs2, (S n). split_and!.
  - subst w2 w1. destruct w; simpl. rewrite <- !app_assoc. simpl.
    do 2 f_equal. unfold k0. simpl. lia.
  - eapply scan_app_Some; [by apply quiet_scan|].
    eapply scan_app_Some; [done|]. by replace (k0 + S n) with (S k0 + n) by lia.
  - by rewrite !yields_app, Hy1, Hy2, quiet_yields.
  - intros q Hq'. rewrite Hfr2 by lia. rewrite lookup_insert_ne by lia. done.
  - eapply outcome_weaken; [exact Hout2| | |].
    + intros ?. by repeat apply all_ok_app.
    + subst rest. intros (bad & Hb & ?). exists bad. split; [|done].
      rewrite <- (take_drop threshold (input_stream w)).
      apply elem_of_app. by right.
    + simpl. intros _ Hok2 (-> & Hall2 & Hcnt & Hseg & Hrest2 & Hc2).
      subst rest.
      assert (length (c0 :: chunk') = threshold ∨
              (length (c0 :: chunk') = length (input_stream w) ∧
               length (input_stream w) < threshold)) as Hlen.
      { rewrite Hc, length_take. lia. }
      split_and!.
      * done.
      * rewrite <- (take_drop threshold (input_stream w)). by apply Forall_app.
      * unfold chunk_count in *. rewrite length_drop in Hcnt.
        assert (0 < length (input_stream w)) as Hpos.
        { destruct (input_stream w); simpl; [|lia]. by rewrite take_nil in Hc. }
        simpl in Hlen. destruct Hcnt as [H1 H2].
        rewrite Nat.sub_succ, Nat.sub_0_r.
        destruct n as [|n]; simpl in *; [lia|].
        rewrite Nat.sub_0_r in H2. lia.
      * intros i Hi. destruct i as [|i].
        -- rewrite Nat.add_0_r, Hfr2 by lia. rewrite lookup_insert_eq.
           unfold segment_of, chunk_of. simpl. by rewrite drop_0, Hc.
        -- subst k0. rewrite Nat.add_succ_r. rewrite Hseg by lia.
           unfold segment_of. by rewrite chunk_of_S.
      * intros q Hq'. rewrite Hrest2 by lia. rewrite lookup_insert_ne by lia. done.
      * rewrite !created_app, Hc1, Hc2, quiet_created by done. done.
Qed.

(** One iteration of the loop of phase one. *)
Lemma phase_one_S fuel w :
  phase_one threshold fails (S fuel) w
  = match read_chunk threshold fails (input_stream w) [] w with
    | (Ok [], w1) => (Ok tt, w1)
    | (Ok (c :: chunk), w1) =>
        match spill fails (c :: chunk) w1 with
        | (Ok _, w2) => phase_one threshold fails fuel w2
        | (Raise e, w2) => (Raise e, w2)
        | (OutOfFuel, w2) => (OutOfFuel, w2)
        end
    | (Raise e, w1) => (Raise e, w1)
    | (OutOfFuel, w1) => (OutOfFuel, w1)
    end.
Proof.
  clear Hthreshold. simpl. repeat (rewrite bind_run; simpl).
  destruct (read_chunk threshold fails (input_stream w) [] w)
    as [[[|c chunk]|e|] w1]; try done.
Qed.
End specs.

(** ** The order on keys and the heap *)

Lemma bytes_le_lt_eq a b : bytes_le a b → bytes_lt a b ∨ a = b.
Proof.
  intros Hab. destruct (decide (bytes_le b a)) as [Hba|Hba].
  - right. by apply (anti_symm bytes_le).
  - left. by apply bytes_lt_not_le.
Qed.

Lemma bytes_lt_irrefl a : ¬ bytes_lt a a.
Proof. rewrite bytes_lt_not_le. intros H. by apply H. Qed.

Lemma bytes_lt_trans a b c : bytes_lt a b → bytes_lt b c → bytes_lt a c.
Proof.
  rewrite !bytes_lt_not_le. intros Hab Hbc Hca.
  apply Hab. transitivity c; [|done].
  destruct (total bytes_le b c); [done|]. by destruct Hbc.
Qed.

Global Instance key_le_refl : Reflexive key_le.
Proof. intros [v o]. right. done. Qed.

Global Instance key_le_trans : Transitive key_le.
Proof.
  intros [v1 o1] [v2 o2] [v3 o3]. unfold key_le. simpl.
  intros [H1|[-> H1]] [H2|[-> H2]]; eauto using bytes_lt_trans.
  right. split; [done|lia].
Qed.

Global Instance key_le_antisym : AntiSymm (=) key_le.
Proof.
  intros [v1 o1] [v2 o2]. unfold key_le. simpl.
  intros [H1|[E1 H1]] [H2|[E2 H2]]; subst;
    try (exfalso; eapply bytes_lt_irrefl; eauto using bytes_lt_trans; fail).
  f_equal. lia.
Qed.

Lemma key_le_fst a b : key_le a b → bytes_le a.1 b.1.
Proof. intros [H|[-> _]]; [by apply bytes_lt_le|done]. Qed.

Lemma key_le_tag v l o : bytes_le v l → key_le (v, o) (l, o).
Proof. intros [H| ->]%bytes_le_lt_eq; [by left|by right]. Qed.

Lemma entry_ltb_true a b : entry_ltb a b = true → key_le a.1 b.1.
Proof.
  unfold entry_ltb, key_le. case_bool_decide as E.
  - intros H%Nat.ltb_lt. right. split; [done|lia].
  - intros H. by left.
Qed.

Lemma entry_ltb_false a b : entry_ltb a b = false → key_le b.1 a.1.
Proof.
  unfold entry_ltb, key_le. case_bool_decide as E.
  - intros H%Nat.ltb_ge. right. done.
  - unfold bytes_ltb. intros H%negb_false_iff.
    destruct (bytes_le_lt_eq _ _ H) as [?|?]; [by left|congruence].
Qed.

Lemma heap_top_None h : heap_top h = None → h = [].
Proof.
  destruct h as [|e h]; [done|]. simpl.
  destruct (heap_top h); [|done]. by destruct (entry_ltb e e0).
Qed.

Lemma heap_top_elem_of h m : heap_top h = Some m → m ∈ h.
Proof.
  revert m. induction h as [|e h IH]; intros m; [done|]. simpl.
  destruct (heap_top h) as [m'|].
  - destruct (entry_ltb e m'); intros [= <-]; [left|right; by apply IH].
  - intros [= <-]. left.
Qed.

(** The top of the heap is below every entry of the heap. *)
Lemma heap_top_min h m e : heap_top h = Some m → e ∈ h → key_le m.1 e.1.
Proof.
  revert m. induction h as [|e' h IH]; intros m; [done|]. simpl.
  destruct (heap_top h) as [m'|] eqn:Hm'.
  - destruct (entry_ltb e' m') eqn:Hlt; intros [= <-] [->|He]%elem_of_cons.
    + done.
    + transitivity m'.1; [by apply entry_ltb_true|by apply IH].
    + by apply entry_ltb_false.
    + by apply IH.
  - apply heap_top_None in Hm' as ->. intros [= <-] [->|He]%elem_of_cons; [done|].
    by apply elem_of_nil in He.
Qed.

Lemma Forall_submseteq {A} (P : A → Prop) (l1 l2 : list A) :
  l1 ⊆+ l2 → Forall P l2 → Forall P l1.
Proof.
  intros [k Hk]%submseteq_Permutation H2. rewrite Hk in H2.
  by apply Forall_app in H2 as [? _].
Qed.

Lemma entry_contents_bound (e : entry) :
  StronglySorted bytes_le (e.1.1 :: rd_lines e.2) →
  Forall (key_le e.1) (entry_contents e).
Proof.
  intros [Hall _]%StronglySorted_cons. destruct e as [[v o] it]. simpl in *.
  constructor; [done|]. apply Forall_fmap. eapply Forall_impl; [exact Hall|].
  intros l Hl. simpl. by apply key_le_tag.
Qed.

(** In a heap in good shape the top is below every line yet to be yielded. *)
Lemma heap_top_bound h m :
  heap_wf h → heap_top h = Some m → Forall (key_le m.1) (heap_contents h).
Proof.
  intros [_ Hs] Hm. unfold heap_contents. apply Forall_bind.
  rewrite Forall_forall in Hs. apply Forall_forall. intros e He.
  eapply Forall_impl; [apply entry_contents_bound; by apply Hs|].
  intros k Hk. simpl in Hk. transitivity e.1; [|done]. by eapply heap_top_min.
Qed.

Lemma heap_remove_cons_eq o (e : entry) h :
  e.1.2 = o → heap_remove o (e :: h) = heap_remove o h.
Proof. intros E. unfold heap_remove. rewrite filter_cons_False; naive_solver. Qed.

Lemma heap_remove_cons_ne o (e : entry) h :
  e.1.2 ≠ o → heap_remove o (e :: h) = e :: heap_remove o h.
Proof. intros E. unfold heap_remove. by rewrite filter_cons_True. Qed.

Lemma heap_remove_not_elem_of o h :
  o ∉ (λ e : entry, e.1.2) <$> h → heap_remove o h = h.
Proof.
  induction h as [|e h IH]; [done|]. rewrite fmap_cons, not_elem_of_cons.
  intros [Hne Hh]. rewrite heap_remove_cons_ne by done. f_equal. by apply IH.
Qed.

Lemma heap_remove_orders o h :
  (λ e : entry, e.1.2) <$> heap_remove o h
  = filter (λ o', o' ≠ o) ((λ e : entry, e.1.2) <$> h).
Proof.
  induction h as [|e h IH]; [done|].
  rewrite fmap_cons. destruct (decide (e.1.2 = o)) as [E|E].
  - rewrite heap_remove_cons_eq by done.
    rewrite filter_cons_False by naive_solver. done.
  - rewrite heap_remove_cons_ne by done.
    rewrite filter_cons_True by done. rewrite fmap_cons. by rewrite IH.
Qed.

(** Taking an entry out of a heap in good shape. *)
Lemma heap_remove_contents h m :
  heap_wf h → m ∈ h →
  heap_contents h ≡ₚ entry_contents m ++ heap_contents (heap_remove m.1.2 h).
Proof.
  intros [Hnd _]. induction h as [|e h IH]; [by intros ?%elem_of_nil|].
  rewrite fmap_cons in Hnd. apply NoDup_cons in Hnd as [Hne Hnd].
  intros [->|Hm]%elem_of_cons.
  - rewrite heap_remove_cons_eq by done. by rewrite heap_remove_not_elem_of.
  - assert (e.1.2 ≠ m.1.2) as Hneq.
    { intros E. apply Hne. rewrite E. by apply (list_elem_of_fmap_2 (λ e : entry, e.1.2)). }
    rewrite heap_remove_cons_ne by done. unfold heap_contents in *.
    rewrite !bind_cons.
    rewrite (IH Hnd Hm). rewrite !app_assoc. f_equiv. apply Permutation_app_comm.
Qed.

Lemma heap_remove_wf o h : heap_wf h → heap_wf (heap_remove o h).
Proof.
  intros [Hnd Hs]. split.
  - rewrite heap_remove_orders. by apply NoDup_filter.
  - unfold heap_remove. rewrite Forall_forall in Hs. apply Forall_forall.
    intros e [_ He]%list_elem_of_filter. by apply Hs.
Qed.

Lemma heap_remove_fresh o h : o ∉ (λ e : entry, e.1.2) <$> heap_remove o h.
Proof.
  rewrite heap_remove_orders. rewrite list_elem_of_filter. by intros [? _].
Qed.

Lemma heap_size_remove h m :
  heap_wf h → m ∈ h →
  heap_size h = S (length (rd_lines m.2)) + heap_size (heap_remove m.1.2 h).
Proof.
  intros [Hnd _]. induction h as [|e h IH]; [by intros ?%elem_of_nil|].
  rewrite fmap_cons in Hnd. apply NoDup_cons in Hnd as [Hne Hnd].
  intros [->|Hm]%elem_of_cons.
  - rewrite heap_remove_cons_eq by done. by rewrite heap_remove_not_elem_of.
  - assert (e.1.2 ≠ m.1.2) as Hneq.
    { intros E. apply Hne. rewrite E. by apply (list_elem_of_fmap_2 (λ e : entry, e.1.2)). }
    rewrite heap_remove_cons_ne by done. unfold heap_size in *.
    rewrite !fmap_cons. simpl. rewrite (IH Hnd Hm). simpl. lia.
Qed.

Lemma heap_advance_wf h m :
  heap_wf h → m ∈ h → heap_wf (heap_advance m h).
Proof.
  intros Hwf Hm. pose proof (heap_remove_wf m.1.2 h Hwf) as [Hnd Hs].
  unfold heap_advance. destruct (rd_lines m.2) as [|line rest] eqn:E; [done|].
  split.
  - rewrite fmap_cons. apply NoDup_cons. split; [apply heap_remove_fresh|done].
  - constructor; [|done]. simpl. destruct Hwf as [_ Hall].
    rewrite Forall_forall in Hall. specialize (Hall m Hm). rewrite E in Hall.
    by apply StronglySorted_cons in Hall as [_ ?].
Qed.

Lemma heap_advance_contents h m :
  heap_wf h → m ∈ h →
  heap_contents h ≡ₚ m.1 :: heap_contents (heap_advance m h).
Proof.
  intros Hwf Hm. rewrite (heap_remove_contents h m Hwf Hm).
  unfold heap_advance, entry_contents. destruct m as [[v o] it]. simpl.
  by destruct (rd_lines it).
Qed.

Lemma heap_advance_size h m :
  heap_wf h → m ∈ h → heap_size h = S (heap_size (heap_advance m h)).
Proof.
  intros Hwf Hm. rewrite (heap_size_remove h m Hwf Hm).
  unfold heap_advance. by destruct (rd_lines m.2).
Qed.

Lemma heap_size_cons (e : entry) h :
  heap_size (e :: h) = S (length (rd_lines e.2)) + heap_size h.
Proof. reflexivity. Qed.

Lemma init_entries_orders order its o :
  o ∈ (λ e : entry, e.1.2) <$> init_entries order its → order ≤ o.
Proof.
  revert order. induction its as [|it its IH]; intros order; simpl.
  - by intros ?%elem_of_nil.
  - destruct (rd_lines it).
    + intros H. apply IH in H. lia.
    + rewrite fmap_cons. intros [->|H]%elem_of_cons; [done|].
      apply IH in H. lia.
Qed.

Lemma init_entries_wf order its :
  Forall (λ f, StronglySorted bytes_le (rd_lines f)) its →
  heap_wf (init_entries order its).
Proof.
  intros Hs. revert order.
  induction Hs as [|it its Hit _ IH]; intros order; simpl.
  - split; constructor.
  - destruct (IH (S order)) as [Hnd Hall].
    destruct (rd_lines it) as [|line rest] eqn:E; [done|]. split.
    + rewrite fmap_cons. apply NoDup_cons. split; [|done].
      intros H%init_entries_orders. simpl in H. lia.
    + by constructor.
Qed.

Lemma init_entries_contents order its :
  heap_contents (init_entries order its) = tagged order its.
Proof.
  revert order. induction its as [|it its IH]; intros order; [done|]. simpl.
  destruct (rd_lines it) as [|line rest]; simpl; [apply IH|].
  unfold heap_contents in *. simpl. by rewrite IH.
Qed.

Lemma init_entries_size order its :
  heap_size (init_entries order its) = length (tagged order its).
Proof.
  revert order. induction its as [|it its IH]; intros order; [done|].
  cbn [init_entries tagged]. rewrite length_app, length_fmap.
  destruct (rd_lines it) as [|line rest]; [apply IH|].
  rewrite heap_size_cons, IH. done.
Qed.

Section merge_specs.
Context (fails : nat → io_op → bool).

Lemma next_line_spec f w :
  ∃ r t,
    next_line fails f w = (r, add_trace t w)
    ∧ quiet t
    ∧ outcome fails r t False
        (λ o, o = match rd_lines f with
                  | [] => None
                  | line :: rest => Some (line, mkReader (rd_path f) rest)
                  end).
Proof.
  unfold next_line. rewrite bind_run.
  destruct (io_spec fails (ReadSeg (rd_path f)) w) as [[|] [-> Hok]]; simpl.
  - destruct (rd_lines f);
      eexists (Ok _), [EvIo (ReadSeg (rd_path f)) true];
      (split_and!; [done|by repeat constructor|]);
      simpl; split; by repeat constructor.
  - exists (Raise (OSError (ReadSeg (rd_path f)))),
      [EvIo (ReadSeg (rd_path f)) false].
    split_and!; [done|by repeat constructor|simpl; eauto].
Qed.

Lemma merge_init_spec order its h w :
  ∃ r t,
    merge_init fails order its h w = (r, add_trace t w)
    ∧ quiet t
    ∧ outcome fails r t False (λ h', h' = h ++ init_entries order its).
Proof.
  revert order h w. induction its as [|it its IH]; intros order h w.
  - exists (Ok h), []. rewrite add_trace_nil.
    split_and!; [done|constructor|]. simpl. split; [constructor|].
    by rewrite app_nil_r.
  - simpl. rewrite bind_run.
    destruct (next_line_spec it w) as (r & t & -> & Hq & Hout).
    destruct r as [o|e|]; simpl in Hout; [| |done].
    2:{ exists (Raise e), t. split_and!; [done|done|]. by destruct e. }
    destruct Hout as [Hok ->].
    destruct (rd_lines it) as [|line rest].
    + destruct (IH (S order) h (add_trace t w)) as (r2 & t2 & -> & Hq2 & Hout2).
      exists r2, (t ++ t2). rewrite add_trace_app.
      split_and!; [done|by apply quiet_app|].
      eapply outcome_weaken; [exact Hout2| |done|done].
      intros ?. by apply all_ok_app.
    + destruct (IH (S order) (h ++ [(line, order, mkReader (rd_path it) rest)])
                  (add_trace t w)) as (r2 & t2 & -> & Hq2 & Hout2).
      exists r2, (t ++ t2). rewrite add_trace_app.
      split_and!; [done|by apply quiet_app|].
      eapply outcome_weaken; [exact Hout2| |done|].
      * intros ?. by apply all_ok_app.
      * simpl. intros h' _ ->. by rewrite <- app_assoc.
Qed.

Lemma merge_loop_spec fuel h w :
  heap_wf h → heap_size h ≤ fuel →
  ∃ r t out,
    merge_loop fails fuel h w
      = (r, set_output_stream (output_stream w ++ out) (add_trace t w))
    ∧ (∀ k, scan k t = Some k)
    ∧ created t = []
    ∧ StronglySorted key_le (yields t)
    ∧ yields t ⊆+ heap_contents h
    ∧ outcome fails r t False
        (λ _, out = (yields t).*1 ∧ yields t ≡ₚ heap_contents h).
Proof.
  revert h w. induction fuel as [|fuel IH]; intros h w Hwf Hfuel;
    destruct (heap_top h) as [m|] eqn:Htop.
  - pose proof (heap_top_elem_of _ _ Htop) as Hm.
    rewrite (heap_advance_size h m Hwf Hm) in Hfuel. lia.
  - apply heap_top_None in Htop as ->. exists (Ok tt), [], [].
    simpl. rewrite app_nil_r, add_trace_nil.
    split_and!; try done; try (by destruct w); constructor.
  - pose proof (heap_top_elem_of _ _ Htop) as Hm.
    pose proof (heap_top_bound _ _ Hwf Htop) as Hbound.
    pose proof (heap_advance_contents h m Hwf Hm) as Hperm.
    pose proof (heap_advance_wf h m Hwf Hm) as Hwf'.
    pose proof (heap_advance_size h m Hwf Hm) as Hsize.
    destruct m as [[v o] it]. simpl in Hperm, Hbound.
    simpl. rewrite Htop. repeat (rewrite bind_run; simpl).
    unfold write_output. rewrite bind_run.
    set (w1 := set_trace _ w).
    destruct (io_spec fails WriteOut w1) as [[|] [-> Hok]]; simpl.
    2:{ exists (Raise (OSError WriteOut)), [EvYield v o; EvIo WriteOut false], [].
        split_and!.
        - subst w1. destruct w; simpl. unfold add_trace, set_trace. simpl.
          by rewrite app_nil_r, <- app_assoc.
        - done.
        - done.
        - simpl. repeat constructor.
        - simpl. rewrite Hperm. apply submseteq_skip, submseteq_nil_l.
        - simpl. eauto. }
    repeat (rewrite bind_run; simpl).
    set (w2 := set_output_stream _ _).
    destruct (next_line_spec it w2) as (r & t & -> & Hq & Hout).
    destruct r as [nx|e|]; simpl in Hout; [| |done].
    2:{ exists (Raise e), (EvYield v o :: EvIo WriteOut true :: t), [v].
        split_and!.
        - subst w2 w1. destruct w; simpl. unfold add_trace, set_trace. simpl.
          by rewrite <- !app_assoc.
        - intros k. simpl. by apply quiet_scan.
        - simpl. by apply quiet_created.
        - simpl. rewrite quiet_yields by done. repeat constructor.
        - simpl. rewrite quiet_yields by done.
          rewrite Hperm. apply submseteq_skip, submseteq_nil_l.
        - by destruct e. }
    destruct Hout as [Hok' ->].
    destruct (IH (heap_advance (v, o, it) h) (add_trace t w2))
      as (r' & t' & out' & Heq & Hscan & Hcr & Hsort & Hsub & Hout');
      [done|lia|].
    exists r', (EvYield v o :: EvIo WriteOut true :: t ++ t'), (v :: out').
    assert (Forall (key_le (v, o)) (yields t')) as Hlow.
    { eapply Forall_submseteq; [exact Hsub|].
      rewrite Hperm in Hbound. by apply Forall_cons in Hbound as [_ ?]. }
    split_and!.
    + transitivity (merge_loop fails fuel (heap_advance (v, o, it) h)
                      (add_trace t w2)).
      * unfold heap_advance. simpl. by destruct (rd_lines it).
      * rewrite Heq. subst w2 w1. destruct w; simpl.
        unfold add_trace, set_trace, set_output_stream. simpl.
        by rewrite <- !app_assoc.
    + intros k. simpl. rewrite scan_app, quiet_scan by done. simpl. apply Hscan.
    + simpl. by rewrite created_app, Hcr, quiet_created.
    + simpl. rewrite yields_app, quiet_yields by done. simpl.
      by constructor.
    + simpl. rewrite yields_app, quiet_yields by done. simpl.
      rewrite Hperm. by apply submseteq_skip.
    + eapply outcome_weaken; [exact Hout'| |done|].
      * intros ?. do 2 (constructor; [done|]). by apply all_ok_app.
      * simpl. intros _ _ [-> Hp].
        rewrite yields_app, (quiet_yields t) by done. simpl.
        split; [reflexivity|]. by rewrite Hperm, Hp.
  - apply heap_top_None in Htop as ->. exists (Ok tt), [], [].
    simpl. rewrite app_nil_r, add_trace_nil.
    split_and!; try done; try (by destruct w); constructor.
Qed.

Lemma merge_and_write_spec open_files w :
  Forall (λ f, StronglySorted bytes_le (rd_lines f)) open_files →
  ∃ r t out,
    merge_and_write fails open_files w
      = (r, set_output_stream (output_stream w ++ out) (add_trace t w))
    ∧ (∀ k, scan k t = Some k)
    ∧ created t = []
    ∧ StronglySorted key_le (yields t)
    ∧ yields t ⊆+ tagged 0 open_files
    ∧ outcome fails r t False
        (λ _, out = (yields t).*1 ∧ yields t ≡ₚ tagged 0 open_files).
Proof.
  intros Hs. unfold merge_and_write. rewrite bind_run.
  destruct (merge_init_spec 0 open_files [] w) as (r & t & -> & Hq & Hout).
  destruct r as [h|e|]; simpl in Hout; [| |done].
  2:{ exists (Raise e), t, []. split_and!.
      - destruct w; simpl. unfold add_trace, set_trace, set_output_stream.
        simpl. by rewrite app_nil_r.
      - intros k. by apply quiet_scan.
      - by apply quiet_created.
      - rewrite quiet_yields by done. constructor.
      - rewrite quiet_yields by done. apply submseteq_nil_l.
      - by destruct e. }
  destruct Hout as [Hok ->]. simpl.
  destruct (merge_loop_spec (heap_size (init_entries 0 open_files))
              (init_entries 0 open_files) (add_trace t w))
    as (r' & t' & out' & -> & Hscan & Hcr & Hsort & Hsub & Hout');
    [by apply init_entries_wf|done|].
  rewrite init_entries_contents in Hsub, Hout'.
  exists r', (t ++ t'), out'. split_and!.
  - destruct w; simpl. unfold add_trace, set_trace, set_output_stream.
    simpl. by rewrite <- app_assoc.
  - intros k. rewrite scan_app, quiet_scan by done. simpl. apply Hscan.
  - by rewrite created_app, Hcr, quiet_created.
  - by rewrite yields_app, quiet_yields.
  - by rewrite yields_app, quiet_yields.
  - eapply outcome_weaken; [exact Hout'| |done|].
    + intros ?. by apply all_ok_app.
    + simpl. intros _ _ [-> Hp]. by rewrite yields_app, (quiet_yields t).
Qed.

Lemma close_all_spec open_files w :
  ∃ r t,
    close_all fails open_files w = (r, add_trace t w)
    ∧ quiet t
    ∧ outcome fails r t False (λ _, True).
Proof.
  revert w. induction open_files as [|f rest IH]; intros w.
  - exists (Ok tt), []. rewrite add_trace_nil.
    split_and!; [done|constructor|]. by split; [constructor|].
  - simpl. rewrite bind_run.
    destruct (io_spec fails (CloseRead (rd_path f)) w) as [[|] [-> Hok]]; simpl.
    + destruct (IH (add_trace [EvIo (CloseRead (rd_path f)) true] w))
        as (r & t & -> & Hq & Hout).
      exists r, (EvIo (CloseRead (rd_path f)) true :: t).
      rewrite add_trace_app. split_and!; [done|by constructor|].
      eapply outcome_weaken; [exact Hout|apply all_ok_cons_io|done|done].
    + exists (Raise (OSError (CloseRead (rd_path f)))),
        [EvIo (CloseRead (rd_path f)) false].
      split_and!; [done|by repeat constructor|simpl; eauto].
Qed.

Lemma gzip_open_rb_spec p w :
  is_Some (fs w !! p) →
  ∃ r t,
    gzip_open_rb fails p w = (r, add_trace t w)
    ∧ quiet t
    ∧ outcome fails r t False (λ f, f = reader_of w p).
Proof.
  intros [data Hp]. unfold gzip_open_rb, reader_of. rewrite Hp.
  rewrite bind_run.
  destruct (io_spec fails (OpenRead p) w) as [[|] [-> Hok]]; simpl.
  - eexists (Ok _), [EvIo (OpenRead p) true].
    split_and!; [done|by repeat constructor|]. simpl.
    split; by repeat constructor.
  - exists (Raise (OSError (OpenRead p))), [EvIo (OpenRead p) false].
    split_and!; [done|by repeat constructor|simpl; eauto].
Qed.

Lemma open_segments_spec paths acc w :
  (∀ p, p ∈ paths → is_Some (fs w !! p)) →
  ∃ r t,
    open_segments fails paths acc w = (r, add_trace t w)
    ∧ quiet t
    ∧ outcome fails r t False (λ l, l = acc ++ (reader_of w <$> paths)).
Proof.
  revert acc w. induction paths as [|p paths IH]; intros acc w Hfs.
  - exists (Ok acc), []. rewrite add_trace_nil.
    split_and!; [done|constructor|]. simpl. split; [constructor|].
    by rewrite app_nil_r.
  - simpl. rewrite bind_run.
    destruct (gzip_open_rb_spec p w) as (r & t & -> & Hq & Hout).
    { apply Hfs. left. }
    destruct r as [f|e|]; simpl in Hout; [| |done].
    2:{ exists (Raise e), t. split_and!; [done|done|]. by destruct e. }
    destruct Hout as [Hok ->].
    destruct (IH (acc ++ [reader_of w p]) (add_trace t w))
      as (r2 & t2 & -> & Hq2 & Hout2).
    { intros q Hq'. simpl. apply Hfs. by right. }
    exists r2, (t ++ t2). rewrite add_trace_app.
    split_and!; [done|by apply quiet_app|].
    eapply outcome_weaken; [exact Hout2| |done|].
    + intros ?. by apply all_ok_app.
    + simpl. intros l _ ->. rewrite <- app_assoc. done.
Qed.

Lemma phase_two_spec w :
  (∀ p, p ∈ temp_files w → is_Some (fs w !! p)) →
  Forall (λ f, StronglySorted bytes_le (rd_lines f)) (reader_of w <$> temp_files w) →
  ∃ r t out,
    phase_two fails w
      = (r, set_output_stream (output_stream w ++ out) (add_trace t w))
    ∧ (∀ k, scan k t = Some k)
    ∧ created t = []
    ∧ StronglySorted key_le (yields t)
    ∧ yields t ⊆+ tagged 0 (reader_of w <$> temp_files w)
    ∧ outcome fails r t False
        (λ _, out = (yields t).*1
              ∧ yields t ≡ₚ tagged 0 (reader_of w <$> temp_files w)).
Proof.
  intros Hfs Hs. unfold phase_two. repeat (rewrite bind_run; simpl).
  destruct (open_segments_spec (temp_files w) [] w Hfs)
    as (r & t & -> & Hq & Hout).
  destruct r as [open_files|e|]; simpl in Hout; [| |done].
  2:{ exists (Raise e), t, []. split_and!.
      - destruct w; simpl. unfold add_trace, set_trace, set_output_stream.
        simpl. by rewrite app_nil_r.
      - intros k. by apply quiet_scan.
      - by apply quiet_created.
      - rewrite quiet_yields by done. constructor.
      - rewrite quiet_yields by done. apply submseteq_nil_l.
      - by destruct e. }
  destruct Hout as [Hok ->]. simpl. rewrite bind_run. unfold try_finally.
  set (open_files := reader_of w <$> temp_files w) in *.
  destruct (merge_and_write_spec open_files (add_trace t w) Hs)
    as (r1 & t1 & out & -> & Hscan & Hcr & Hsort & Hsub & Hout1).
  set (w1 := set_output_stream _ _).
  destruct (close_all_spec open_files w1) as (r2 & t2 & Hclose & Hq2 & Hout2).
  assert (∀ k t3, quiet t3 → scan k (t ++ t1 ++ t2 ++ t3) = Some k) as Hscan'.
  { intros k t3 Hq3. rewrite scan_app, quiet_scan by done. simpl.
    rewrite scan_app, Hscan. simpl. apply quiet_scan. by apply quiet_app. }
  assert (∀ t3, quiet t3 → created (t ++ t1 ++ t2 ++ t3) = []) as Hcr'.
  { intros t3 Hq3. rewrite !created_app, Hcr, (quiet_created t),
      (quiet_created t2), (quiet_created t3) by done. done. }
  assert (∀ t3, quiet t3 → yields (t ++ t1 ++ t2 ++ t3) = yields t1) as Hy'.
  { intros t3 Hq3. rewrite !yields_app, (quiet_yields t), (quiet_yields t2),
      (quiet_yields t3) by done. simpl. by rewrite app_nil_r. }
  assert (∀ t3, set_output_stream (output_stream w ++ out)
                     (add_trace (t ++ t1 ++ t2 ++ t3) w)
                   = add_trace t3 (add_trace t2 w1)) as Hst.
  { intros t3. subst w1. destruct w; simpl.
    unfold add_trace, set_trace, set_output_stream. simpl.
    by rewrite <- !app_assoc. }
  destruct r1 as [[]|e1|]; simpl in Hout1; [| |done].
  - destruct Hout1 as (Hok1 & -> & Hp). rewrite Hclose.
    destruct r2 as [[]|e2|]; simpl in Hout2; [| |done].
    + destruct Hout2 as [Hok2 _].
      destruct (io_spec fails FlushOut (add_trace t2 w1)) as [[|] [-> Hok3]].
      * exists (Ok tt), (t ++ t1 ++ t2 ++ [EvIo FlushOut true]), (yields t1).*1.
        assert (quiet [EvIo FlushOut true]) as Hq3 by (by repeat constructor).
        rewrite Hst, Hy' by done.
        split_and!; [done|intros; by apply Hscan'|by apply Hcr'|done|done|].
        simpl. split; [|done].
        repeat apply all_ok_app; try done. by repeat constructor.
      * exists (Raise (OSError FlushOut)),
          (t ++ t1 ++ t2 ++ [EvIo FlushOut false]), (yields t1).*1.
        assert (quiet [EvIo FlushOut false]) as Hq3 by (by repeat constructor).
        rewrite Hst, Hy' by done.
        split_and!; [done|intros; by apply Hscan'|by apply Hcr'|done|done|].
        simpl. eauto.
    + exists (Raise e2), (t ++ t1 ++ t2 ++ []), (yields t1).*1.
      rewrite Hst, Hy', add_trace_nil by constructor.
      split_and!; [done|intros; apply Hscan'; constructor
                  |apply Hcr'; constructor|done|done|].
      by destruct e2.
  - rewrite Hclose.
    exists (Raise (match r2 with Raise e2 => e2 | _ => e1 end)),
      (t ++ t1 ++ t2 ++ []), out.
    rewrite Hst, Hy', add_trace_nil by constructor.
    split_and!; [|intros; apply Hscan'; constructor
                |apply Hcr'; constructor|done|done|].
    + by destruct r2 as [[]|e2|].
    + destruct r2 as [[]|e2|]; simpl in *; [by destruct e1|by destruct e2|done].
Qed.
End merge_specs.

(** ** Cleanup and the whole of [sort] *)

Lemma unlink_events_ext uf (m1 m2 : gmap nat bytes) paths :
  (∀ q, q ∈ paths → m1 !! q = m2 !! q) →
  paths ≫= unlink_events uf m1 = paths ≫= unlink_events uf m2.
Proof.
  induction paths as [|p paths IH]; intros H; [done|].
  rewrite !bind_cons. rewrite IH by (intros; apply H; by right).
  f_equal. unfold unlink_events, unlink_ok. rewrite (H p) by left. done.
Qed.

(** The [finally] block of [sort] never raises: it attempts every path in
    order and logs the failures. *)
Lemma unlink_all_spec uf paths w :
  NoDup paths →
  ∃ fs',
    unlink_all uf paths w
      = (Ok tt, set_fs fs' (add_trace (paths ≫= unlink_events uf (fs w)) w))
    ∧ (∀ q, fs' !! q = if decide (q ∈ paths ∧ unlink_ok uf (fs w) q = true)
                       then None else fs w !! q).
Proof.
  revert w. induction paths as [|p paths IH]; intros w Hnd.
  - exists (fs w). split; [simpl; rewrite add_trace_nil; by destruct w|].
    intros q. case_decide as Hq; [|done]. by destruct Hq as [?%elem_of_nil _].
  - apply NoDup_cons in Hnd as [Hp Hnd]. simpl. rewrite bind_run.
    unfold try_except, unlink. fold (unlink_ok uf (fs w) p).
    destruct (unlink_ok uf (fs w) p) eqn:Hok; simpl.
    + set (w1 := set_fs _ _).
      assert (fs w1 = delete p (fs w)) as Hfs1 by done.
      destruct (IH w1 Hnd) as (fs' & -> & Hfs'). rewrite Hfs1 in Hfs'.
      exists fs'. split.
      * rewrite Hfs1. rewrite (unlink_events_ext uf (delete p (fs w)) (fs w)).
        2:{ intros q Hq. apply lookup_delete_ne. by intros ->. }
        subst w1. destruct w; simpl. unfold add_trace, set_trace, set_fs. simpl.
        by rewrite <- !app_assoc.
      * intros q. rewrite Hfs'. clear Hfs'.
        destruct (decide (q = p)) as [->|Hne].
        -- rewrite lookup_delete_eq.
           rewrite (decide_True (P := p ∈ p :: paths ∧ _)) by (split; [left|done]).
           by case_decide.
        -- rewrite lookup_delete_ne by done. unfold unlink_ok.
           rewrite lookup_delete_ne by done.
           apply decide_ext. rewrite elem_of_cons. intuition congruence.
    + set (w1 := set_trace _ _).
      assert (fs w1 = fs w) as Hfs1 by done.
      destruct (IH w1 Hnd) as (fs' & -> & Hfs'). rewrite Hfs1 in Hfs'.
      exists fs'. split.
      * rewrite Hfs1.
        subst w1. destruct w; simpl. unfold add_trace, set_trace, set_fs. simpl.
        by rewrite <- !app_assoc.
      * intros q. rewrite Hfs'. clear Hfs'.
        apply decide_ext. rewrite elem_of_cons. split; [tauto|].
        intros [[->|Hq] Hq']; [congruence|done].
Qed.

Lemma unlink_events_attempts uf m paths :
  unlink_attempts (paths ≫= unlink_events uf m) = paths.
Proof.
  induction paths as [|p paths IH]; [done|].
  rewrite bind_cons, unlink_attempts_app, IH. unfold unlink_events.
  by destruct (unlink_ok uf m p).
Qed.

Lemma unlink_events_logged uf m paths :
  logged (paths ≫= unlink_events uf m)
  = filter (λ p, unlink_ok uf m p = false) paths.
Proof.
  induction paths as [|p paths IH]; [done|].
  rewrite bind_cons, logged_app, IH. unfold unlink_events.
  destruct (unlink_ok uf m p) eqn:E; simpl.
  - by rewrite filter_cons_False by congruence.
  - by rewrite filter_cons_True by done.
Qed.

Lemma unlink_events_quiet_obs uf m paths :
  registered (paths ≫= unlink_events uf m) = []
  ∧ created (paths ≫= unlink_events uf m) = []
  ∧ yields (paths ≫= unlink_events uf m) = [].
Proof.
  induction paths as [|p paths (IH1 & IH2 & IH3)]; [done|].
  rewrite bind_cons, registered_app, created_app, yields_app, IH1, IH2, IH3.
  unfold unlink_events. by destruct (unlink_ok uf m p).
Qed.

Lemma tagged_fst order its : (tagged order its).*1 = concat (rd_lines <$> its).
Proof.
  revert order. induction its as [|it its IH]; intros order; [done|]. simpl.
  rewrite fmap_app, IH. f_equal. rewrite <- list_fmap_compose.
  apply list_fmap_id.
Qed.

Lemma list_sort_sorted l : StronglySorted bytes_le (list_sort l).
Proof. apply StronglySorted_merge_sort; apply _. Qed.

Lemma list_sort_perm l : list_sort l ≡ₚ l.
Proof. apply merge_sort_Permutation. Qed.

Lemma chunk_of_0 T L : chunk_of T L 0 = take T L.
Proof. unfold chunk_of. by rewrite drop_0. Qed.

(** The chunks, joined, are the lines. *)
Lemma chunks_concat T L n :
  length L ≤ n * T → concat (chunk_of T L <$> seq 0 n) = L.
Proof.
  revert L. induction n as [|n IH]; intros L Hlen.
  - destruct L; [done|simpl in Hlen; lia].
  - cbn [seq]. rewrite fmap_cons. cbn [concat]. rewrite chunk_of_0.
    rewrite <- fmap_S_seq, <- list_fmap_compose.
    rewrite (list_fmap_ext _ (chunk_of T (drop T L))).
    2:{ intros i x _. simpl. apply chunk_of_S. }
    rewrite IH; [apply take_drop|]. rewrite length_drop. simpl in Hlen. lia.
Qed.

Lemma segment_readers_lines T L n :
  length L ≤ n * T →
  concat (rd_lines <$> segment_readers T L n) ≡ₚ L.
Proof.
  intros Hlen. rewrite <- (chunks_concat T L n Hlen) at 2.
  unfold segment_readers. rewrite <- list_fmap_compose.
  generalize (seq 0 n). intros l. induction l as [|i l IH]; [done|].
  simpl. by rewrite IH, list_sort_perm.
Qed.

Lemma segment_readers_sorted T L n :
  Forall (λ f, StronglySorted bytes_le (rd_lines f)) (segment_readers T L n).
Proof.
  unfold segment_readers. apply Forall_fmap, Forall_forall. intros i _.
  simpl. apply list_sort_sorted.
Qed.

Lemma chunk_of_subseteq T L i : chunk_of T L i ⊆ L.
Proof.
  unfold chunk_of. intros x Hx. apply elem_of_take in Hx as (j & Hj & _).
  rewrite lookup_drop in Hj. by eapply list_elem_of_lookup_2.
Qed.

(** Reading a segment back gives the sorted chunk. *)
Lemma readlines_segment T L i :
  Forall line_shaped L → Forall (λ l, endswith_nl l = true) L →
  readlines (segment_of T L i) = list_sort (chunk_of T L i).
Proof.
  intros Hsh Hend. unfold segment_of. apply readlines_concat.
  rewrite list_sort_perm. apply Forall_forall. intros l Hl%chunk_of_subseteq.
  rewrite Forall_forall in Hsh, Hend. apply line_shaped_proper; auto.
Qed.

Lemma chunk_threshold_pos : 0 < chunk_threshold.
Proof. unfold chunk_threshold. lia. Qed.

Local Arguments phase_one : simpl never.
Local Arguments phase_two : simpl never.

Section sort_specs.
Context (threshold : nat) (fails : nat → io_op → bool).
Context (unlink_fails : nat → bool).
Hypothesis Hthreshold : 0 < threshold.

Lemma sort_body_spec w :
  temp_files w = [] → temp_file_counter w = 0 →
  Forall line_shaped (input_stream w) →
  ∃ r t rest fs' n out,
    sort_body threshold fails w
      = (r, mkState rest (output_stream w ++ out) fs' (seq 0 n) n (trace w ++ t))
    ∧ scan 0 t = Some n
    ∧ StronglySorted key_le (yields t)
    ∧ (out = [] ∨ Forall (λ l, endswith_nl l = true) (input_stream w))
    ∧ outcome fails r t (∃ bad, bad ∈ input_stream w ∧ endswith_nl bad = false)
        (λ _, let L := input_stream w in
              rest = []
              ∧ Forall (λ l, endswith_nl l = true) L
              ∧ chunk_count threshold (length L) n
              ∧ (∀ i, i < n → fs' !! i = Some (segment_of threshold L i))
              ∧ (∀ q, n ≤ q → fs' !! q = fs w !! q)
              ∧ created t = seq 0 n
              ∧ out = (yields t).*1
              ∧ yields t ≡ₚ tagged 0 (segment_readers threshold L n)).
Proof.
  intros Htf Hc Hsh. unfold sort_body. repeat (rewrite bind_run; simpl).
  destruct (phase_one_spec threshold fails Hthreshold
              (S (length (input_stream w))) w)
    as (r & t & rest & fs' & n & -> & Hscan & Hy & _ & Hout); [lia|].
  rewrite Htf, Hc in *. simpl in *.
  destruct r as [[]|e|]; simpl in Hout; [| |done].
  2:{ exists (Raise e), t, rest, fs', n, []. rewrite app_nil_r.
      split_and!; [done|done|rewrite Hy; constructor|by left|].
      by destruct e. }
  destruct Hout as (Hok & -> & Hend & Hcnt & Hseg & Hrest & Hcr).
  set (w1 := mkState _ _ _ _ _ _).
  assert (reader_of w1 <$> seq 0 n
          = segment_readers threshold (input_stream w) n) as Hrd.
  { unfold segment_readers. apply list_fmap_ext. intros i x Hx.
    apply lookup_seq in Hx as [-> Hx]. unfold reader_of. simpl.
    rewrite Hseg by done. simpl. by rewrite readlines_segment. }
  destruct (phase_two_spec fails w1)
    as (r2 & t2 & out & -> & Hscan2 & Hcr2 & Hsort & Hsub & Hout2).
  { simpl. intros p Hp%elem_of_seq. rewrite Hseg by lia. eauto. }
  { simpl. rewrite Hrd. apply segment_readers_sorted. }
  simpl in Hsub, Hout2. rewrite Hrd in Hsub, Hout2.
  exists r2, (t ++ t2), [], fs', n, out. split_and!.
  - subst w1. unfold set_output_stream, add_trace, set_trace. simpl.
    by rewrite app_assoc.
  - rewrite scan_app, Hscan. simpl. apply Hscan2.
  - by rewrite yields_app, Hy.
  - by right.
  - eapply outcome_weaken; [exact Hout2| |done|].
    + intros ?. by apply all_ok_app.
    + simpl. intros _ _ [-> Hp].
      rewrite yields_app, Hy, created_app, Hcr, Hcr2, app_nil_r. simpl.
      split_and!; done.
Qed.

Lemma sort_spec w :
  Forall line_shaped (input_stream w) →
  ∃ r t rest fs' fs'' n out,
    sort threshold fails unlink_fails w
      = (r, mkState rest (output_stream w ++ out) fs'' (seq 0 n) n
              (trace w ++ t ++ (seq 0 n ≫= unlink_events unlink_fails fs')))
    ∧ sort_body threshold fails (set_temp_file_counter 0 (set_temp_files [] w))
      = (r, mkState rest (output_stream w ++ out) fs' (seq 0 n) n (trace w ++ t))
    ∧ scan 0 t = Some n
    ∧ StronglySorted key_le (yields t)
    ∧ (out = [] ∨ Forall (λ l, endswith_nl l = true) (input_stream w))
    ∧ (∀ q, fs'' !! q
            = if decide (q ∈ seq 0 n ∧ unlink_ok unlink_fails fs' q = true)
              then None else fs' !! q)
    ∧ outcome fails r t (∃ bad, bad ∈ input_stream w ∧ endswith_nl bad = false)
        (λ _, let L := input_stream w in
              rest = []
              ∧ Forall (λ l, endswith_nl l = true) L
              ∧ chunk_count threshold (length L) n
              ∧ (∀ i, i < n → fs' !! i = Some (segment_of threshold L i))
              ∧ (∀ q, n ≤ q → fs' !! q = fs w !! q)
              ∧ created t = seq 0 n
              ∧ out = (yields t).*1
              ∧ yields t ≡ₚ tagged 0 (segment_readers threshold L n)).
Proof.
  intros Hsh. unfold sort. repeat (rewrite bind_run; simpl).
  unfold try_finally.
  set (w0 := set_temp_file_counter 0 (set_temp_files [] w)).
  destruct (sort_body_spec w0)
    as (r & t & rest & fs' & n & out & Hb & Hscan & Hsort & Hemp & Hout);
    [done..|].
  rewrite Hb. simpl in Hb, Hout |- *.
  set (w1 := mkState _ _ _ _ _ _) in *.
  rewrite bind_run. simpl.
  destruct (unlink_all_spec unlink_fails (seq 0 n) w1) as (fs'' & Hu & Hfs'');
    [apply NoDup_seq|].
  change (temp_files w1) with (seq 0 n). rewrite Hu.
  exists r, t, rest, fs', fs'', n, out.
  split_and!; [|done|done|done|exact Hemp|exact Hfs''|exact Hout].
  destruct r as [[]|e|]; simpl in Hout; [| |done].
  - subst w1. unfold add_trace, set_trace, set_fs. simpl. by rewrite <- app_assoc.
  - subst w1. unfold add_trace, set_trace, set_fs. simpl. by rewrite <- app_assoc.
Qed.
End sort_specs.

(** [sort] run on the bytes of an input, with the threshold of sort.py. *)
Lemma run_sort_spec fails uf input :
  ∃ r t rest fs' fs'' n out,
    run_sort fails uf input
      = (r, mkState rest out fs'' (seq 0 n) n
              (t ++ (seq 0 n ≫= unlink_events uf fs')))
    ∧ sort_body chunk_threshold fails (initial input)
      = (r, mkState rest out fs' (seq 0 n) n t)
    ∧ scan 0 t = Some n
    ∧ StronglySorted key_le (yields t)
    ∧ (out = [] ∨ well_formed input)
    ∧ (∀ q, fs'' !! q
            = if decide (q ∈ seq 0 n ∧ unlink_ok uf fs' q = true)
              then None else fs' !! q)
    ∧ outcome fails r t (¬ well_formed input)
        (λ _, let L := readlines input in
              rest = []
              ∧ well_formed input
              ∧ chunk_count chunk_threshold (length L) n
              ∧ (∀ i, i < n → fs' !! i = Some (segment_of chunk_threshold L i))
              ∧ (∀ q, n ≤ q → fs' !! q = None)
              ∧ created t = seq 0 n
              ∧ out = (yields t).*1
              ∧ yields t ≡ₚ tagged 0 (segment_readers chunk_threshold L n)).
Proof.
  unfold run_sort.
  destruct (sort_spec chunk_threshold fails uf chunk_threshold_pos (initial input))
    as (r & t & rest & fs' & fs'' & n & out & Hs & Hb & Hscan & Hsort & Hemp
        & Hfs & Hout); [apply readlines_shape|].
  exists r, t, rest, fs', fs'', n, out. simpl in *.
  split_and!; [done|done|done|done|done|done|].
  eapply outcome_weaken; [exact Hout|done| |].
  - intros (bad & Hbad & Hnl) Hwf. unfold well_formed in Hwf.
    rewrite Forall_forall in Hwf. specialize (Hwf bad Hbad). congruence.
  - simpl. intros _ _ (? & ? & ? & ? & Hnone & ? & ? & ?).
    split_and!; first [done|intros q Hq; by rewrite Hnone].
Qed.

(** ** Consequences for a run of [sort] *)

Lemma outcome_ok {A} fails (r : res A) t (bad : Prop) (Q : A → Prop) :
  outcome fails r t bad Q → (∀ n op, fails n op = false) → ¬ bad →
  ∃ a, r = Ok a ∧ Q a.
Proof.
  intros Hout Hf Hbad. destruct r as [a|[|op]|]; simpl in Hout.
  - exists a. by destruct Hout.
  - done.
  - destruct Hout as [n Hn]. rewrite Hf in Hn. done.
  - done.
Qed.

Lemma run_sort_no_failure fails uf input :
  (∀ n op, fails n op = false) → well_formed input →
  (run_sort fails uf input).1 = Ok tt.
Proof.
  intros Hf Hwf.
  destruct (run_sort_spec fails uf input)
    as (r & t & rest & fs' & fs'' & n & out & -> & _ & _ & _ & _ & _ & Hout).
  destruct (outcome_ok _ _ _ _ _ Hout Hf) as ([] & -> & _); [|done].
  by intros H.
Qed.

Lemma run_sort_output fails uf input :
  (run_sort fails uf input).1 = Ok tt →
  well_formed input
  ∧ StronglySorted bytes_le (output_stream (run_sort fails uf input).2)
  ∧ output_stream (run_sort fails uf input).2 ≡ₚ readlines input.
Proof.
  destruct (run_sort_spec fails uf input)
    as (r & t & rest & fs' & fs'' & n & out & -> & _ & _ & Hsort & _ & _ & Hout).
  simpl. intros ->. simpl in Hout.
  destruct Hout as (_ & _ & Hwf & [Hcnt _] & _ & _ & _ & -> & Hp).
  split_and!; [done| |].
  - eapply StronglySorted_fmap; [|exact Hsort]. intros x y. apply key_le_fst.
  - rewrite Hp, tagged_fst. by apply segment_readers_lines.
Qed.

Lemma StronglySorted_lookup_le {A} (R : relation A) `{!Reflexive R} l i j a b :
  StronglySorted R l → l !! i = Some a → l !! j = Some b → i ≤ j → R a b.
Proof.
  intros Hs. revert i j. induction Hs as [|x l Hs IH Hx]; intros i j; [done|].
  destruct i as [|i], j as [|j]; simpl; try lia.
  - by intros [= <-] [= <-] _.
  - intros [= <-] Hb _. rewrite Forall_forall in Hx. apply Hx.
    by eapply list_elem_of_lookup_2.
  - intros Ha Hb Hij. apply (IH i j); [done|done|lia].
Qed.

Lemma sorted_line_order out : StronglySorted bytes_le out → emits_in_line_order out.
Proof.
  intros Hs i j a b Ha Hb Hlt. destruct (decide (i < j)) as [|Hge]; [done|].
  exfalso. apply bytes_lt_not_le in Hlt. apply Hlt.
  eapply (StronglySorted_lookup_le bytes_le out j i); eauto. lia.
Qed.

(** On contents without bytes below the delimiter, the order of the
    contents is the order of the lines. *)
Lemma bytes_leb_content ca cb :
  above_nl cb → nl ∉ cb →
  bytes_leb (cb ++ [nl]) (ca ++ [nl]) = true → bytes_leb cb ca = true.
Proof.
  intros Hab Hnl. revert ca. induction Hab as [|y cb Hy Hab IH]; intros ca; [done|].
  apply not_elem_of_cons in Hnl as [Hne Hnl].
  destruct ca as [|x ca]; simpl.
  - rewrite Hy. destruct (byte_ltb nl y) eqn:E; [done|].
    destruct Hne. symmetry. by apply byte_ltb_tricho.
  - destruct (byte_ltb y x); [done|]. destruct (byte_ltb x y); [done|].
    by apply IH.
Qed.

Lemma proper_content l : proper l → l = content l ++ [nl] ∧ nl ∉ content l.
Proof.
  intros (c & -> & Hc). unfold content. by rewrite removelast_last.
Qed.

(** ** Scenarios of the specification, run with small thresholds *)

(** Threshold 2, ["banana"; "apple"; "cherry"; "date"]. *)
Example scenario_a :
  scenario_output 2
    ([x62;x61;x6e;x61;x6e;x61;x0a] ++ [x61;x70;x70;x6c;x65;x0a]
     ++ [x63;x68;x65;x72;x72;x79;x0a] ++ [x64;x61;x74;x65;x0a])
  = (Ok tt, [[x61;x70;x70;x6c;x65;x0a]; [x62;x61;x6e;x61;x6e;x61;x0a];
             [x63;x68;x65;x72;x72;x79;x0a]; [x64;x61;x74;x65;x0a]]).
Proof. vm_compute. reflexivity. Qed.

(** Threshold 10, ["b"; "a"; "a"]: the duplicate is kept. *)
Example scenario_b :
  scenario_output 10 [x62;x0a;x61;x0a;x61;x0a]
  = (Ok tt, [[x61;x0a]; [x61;x0a]; [x62;x0a]]).
Proof. vm_compute. reflexivity. Qed.

(** Empty input: nothing is written and no segment is created. *)
Example scenario_c :
  let o := sort 10 no_failure no_unlink_failure (initial []) in
  o.1 = Ok tt ∧ output_stream o.2 = [] ∧ created (trace o.2) = [].
Proof. vm_compute. done. Qed.

(** Threshold 2 and a failure of the write of the second segment: the
    error is raised and both segment paths are unlinked. *)
Example scenario_write_failure :
  let fails := λ (_ : nat) op, match op with WriteSeg 1 => true | _ => false end in
  let o := sort 2 fails no_unlink_failure (initial [x62;x0a;x61;x0a;x63;x0a]) in
  o.1 = Raise (OSError (WriteSeg 1)) ∧ unlink_attempts (trace o.2) = [0; 1].
Proof. vm_compute. done. Qed.

(** ** Properties of the specification *)



(** C2, as stated, fails: on the two records ["a"] and ["a\t"] the content
    ["a"] is below the content ["a\t"], yet ["a\t\n"] is written first. *)
Lemma content_order_counterexample :
  ¬ emits_in_content_order
      (output_stream
         (run_sort no_failure no_unlink_failure [x61;x0a;x61;x09;x0a]).2).
Proof.
  assert (output_stream
            (run_sort no_failure no_unlink_failure [x61;x0a;x61;x09;x0a]).2
          = [[x61;x09;x0a]; [x61;x0a]]) as -> by (vm_compute; reflexivity).
  intros H. specialize (H 1 0 [x61;x0a] [x61;x09;x0a] eq_refl eq_refl eq_refl).
  lia.
Qed.

(** C2, amended. The order in which [sort] writes two records is that of
    the whole lines, the delimiter included: [a] is written before [b]
    whenever [a < b] as byte strings.  It is the order of the contents
    whenever no byte of the two contents is below the delimiter. *)
Theorem sort_emits_in_line_order fails uf input :
  (run_sort fails uf input).1 = Ok tt →
  let out := output_stream (run_sort fails uf input).2 in
  emits_in_line_order out
  ∧ ∀ i j a b, out !! i = Some a → out !! j = Some b →
      above_nl (content a) → above_nl (content b) →
      bytes_lt (content a) (content b) → i < j.
Proof.
  intros Hok out. destruct (run_sort_output fails uf input Hok) as (Hwf & Hs & Hp).
  fold out in Hs, Hp. pose proof (sorted_line_order out Hs) as Hlo.
  split; [done|]. intros i j a b Ha Hb Haa Hab Hlt.
  apply (Hlo i j a b Ha Hb).
  assert (Forall proper out) as Hprop.
  { rewrite Hp. by apply well_formed_proper. }
  rewrite Forall_forall in Hprop.
  destruct (proper_content a) as [Ea Hna];
    [apply Hprop; by eapply list_elem_of_lookup_2|].
  destruct (proper_content b) as [Eb Hnb];
    [apply Hprop; by eapply list_elem_of_lookup_2|].
  rewrite Ea, Eb. unfold bytes_lt, bytes_ltb in *.
  apply negb_true_iff. apply negb_true_iff in Hlt.
  destruct (bytes_leb (content b ++ [nl]) (content a ++ [nl])) eqn:E; [|done].
  apply bytes_leb_content in E; [congruence|done|done].
Qed.

Lemma sort_emits_in_line_order_witness :
  emits_in_line_order
    (output_stream (run_sort no_failure no_unlink_failure [x61;x0a;x61;x09;x0a]).2).
Proof.
  apply (sort_emits_in_line_order no_failure no_unlink_failure [x61;x0a;x61;x09;x0a]).
  vm_compute. reflexivity.
Defined.

Lemma chunk_count_exact T n : 0 < T → chunk_count T T n → n = 1.
Proof.
  intros HT [H1 H2]. destruct n as [|[|n]]; simpl in *; [lia|done|].
  destruct H2 as [|H2]; lia.
Qed.

Lemma chunk_count_succ T n : 0 < T → chunk_count T (S T) n → n = 2.
Proof.
  intros HT [H1 H2]. destruct n as [|[|[|n]]]; simpl in *; [lia|lia|done|].
  destruct H2 as [|H2]; lia.
Qed.

Lemma chunk_count_0 T n : chunk_count T 0 n → n = 0.
Proof. intros [_ [?|?]]; [done|lia]. Qed.

Lemma readlines_repeat_nl n : readlines (repeat nl n) = repeat [nl] n.
Proof. induction n as [|n IH]; [done|]. simpl. by rewrite IH. Qed.

Lemma well_formed_repeat_nl n : well_formed (repeat nl n).
Proof.
  unfold well_formed. rewrite readlines_repeat_nl.
  apply Forall_forall. intros l Hl. apply list_elem_of_In, repeat_spec in Hl.
  by subst.
Qed.

Lemma run_sort_created fails uf input :
  (∀ n op, fails n op = false) → well_formed input →
  (run_sort fails uf input).1 = Ok tt
  ∧ ∃ n, chunk_count chunk_threshold (length (readlines input)) n
         ∧ created (trace (run_sort fails uf input).2) = seq 0 n.
Proof.
  intros Hf Hwf. split; [by apply run_sort_no_failure|].
  destruct (run_sort_spec fails uf input)
    as (r & t & rest & fs' & fs'' & n & out & -> & _ & _ & _ & _ & _ & Hout).
  destruct (outcome_ok _ _ _ _ _ Hout Hf) as ([] & -> & Hq); [by intros H|].
  simpl in Hq. destruct Hq as (_ & _ & Hcnt & _ & _ & Hcr & _).
  exists n. split; [done|]. simpl. rewrite created_app, Hcr.
  destruct (unlink_events_quiet_obs uf fs' (seq 0 n)) as (_ & -> & _).
  by rewrite app_nil_r.
Qed.

(** C5. An input that does not end with the delimiter makes [sort] raise:
    nothing is written to the output, and when no operation fails the error
    is the assertion error.  On an input that is empty or ends with the
    delimiter the assertion never fails. *)
Theorem sort_rejects_unterminated_input fails uf input :
  (input ≠ [] → endswith_nl input = false →
     is_raise (run_sort fails uf input).1 = true
     ∧ output_stream (run_sort fails uf input).2 = []
     ∧ ((∀ n op, fails n op = false) →
        (run_sort fails uf input).1 = Raise AssertionError))
  ∧ (input = [] ∨ endswith_nl input = true →
     (run_sort fails uf input).1 ≠ Raise AssertionError).
Proof.
  destruct (run_sort_spec fails uf input)
    as (r & t & rest & fs' & fs'' & n & out & -> & _ & _ & _ & Hemp & _ & Hout).
  simpl. split.
  - intros Hne Hend.
    assert (¬ well_formed input) as Hwf.
    { rewrite well_formed_iff. intros [?|?]; congruence. }
    destruct Hemp as [->|?]; [|done]. split_and!; [|done|].
    + destruct r as [[]|e|]; simpl in *; [|done|done]. by destruct Hout as (_ & _ & ? & _).
    + intros Hf. destruct r as [[]|[|op]|]; simpl in *; [|done| |done].
      * by destruct Hout as (_ & _ & ? & _).
      * destruct Hout as [k Hk]. by rewrite Hf in Hk.
  - intros Hwf%well_formed_iff ->. simpl in Hout. done.
Qed.

Lemma sort_rejects_unterminated_input_witness :
  is_raise (run_sort no_failure no_unlink_failure [x61;x0a;x62]).1 = true
  ∧ output_stream (run_sort no_failure no_unlink_failure [x61;x0a;x62]).2 = []
  ∧ (run_sort no_failure no_unlink_failure [x61;x0a;x62]).1 = Raise AssertionError.
Proof.
  destruct (sort_rejects_unterminated_input no_failure no_unlink_failure
              [x61;x0a;x62]) as [H _].
  destruct H as (H1 & H2 & H3); [done|reflexivity|].
  split_and!; [exact H1|exact H2|]. apply H3. reflexivity.
Defined.

(** C6. Without failures, an input of exactly 1,000,000 records creates
    exactly one segment file, an input of 1,000,001 records exactly two,
    and the empty input none, with nothing written to the output. *)
Theorem sort_segment_count fails uf input :
  (∀ n op, fails n op = false) → well_formed input →
  (run_sort fails uf input).1 = Ok tt
  ∧ (length (readlines input) = chunk_threshold →
     created (trace (run_sort fails uf input).2) = [0])
  ∧ (length (readlines input) = S chunk_threshold →
     created (trace (run_sort fails uf input).2) = [0; 1])
  ∧ (input = [] →
     created (trace (run_sort fails uf input).2) = []
     ∧ output_stream (run_sort fails uf input).2 = []).
Proof.
  intros Hf Hwf.
  destruct (run_sort_created fails uf input Hf Hwf) as (Hok & n & Hcnt & Hcr).
  pose proof chunk_threshold_pos as HT. split_and!; [done| | |].
  - intros E. rewrite E in Hcnt. apply chunk_count_exact in Hcnt as ->; done.
  - intros E. rewrite E in Hcnt. apply chunk_count_succ in Hcnt as ->; done.
  - intros ->. simpl in Hcnt. apply chunk_count_0 in Hcnt as ->.
    split; [done|].
    destruct (run_sort_output fails uf [] Hok) as (_ & _ & Hp).
    by apply Permutation_nil_r in Hp.
Qed.

Lemma sort_segment_count_witness :
  created (trace (run_sort no_failure no_unlink_failure
                    (repeat nl chunk_threshold)).2) = [0].
Proof.
  destruct (sort_segment_count no_failure no_unlink_failure
              (repeat nl chunk_threshold)) as (_ & H & _).
  - reflexivity.
  - apply well_formed_repeat_nl.
  - apply H. rewrite readlines_repeat_nl. apply repeat_length.
Defined.

(** ** Cleanup *)

Lemma unlink_events_elem uf m paths e :
  e ∈ paths ≫= unlink_events uf m →
  ∃ p, p ∈ paths
       ∧ (e = EvIo (Unlink p) (unlink_ok uf m p)
          ∨ (unlink_ok uf m p = false ∧ e = EvLog p (OSError (Unlink p)))).
Proof.
  intros (p & He & Hp)%list_elem_of_bind. exists p. split; [done|].
  unfold unlink_events in He. apply elem_of_cons in He as [->|He]; [by left|].
  destruct (unlink_ok uf m p); [by apply elem_of_nil in He|].
  apply list_elem_of_singleton in He as ->. by right.
Qed.







(** C3, as stated, fails for the temporary directory: when its removal
    fails after a successful [sort], the failure is not logged and [main]
    raises it. *)
Lemma directory_removal_counterexample :
  (run_sort no_failure no_unlink_failure [x61;x0a]).1 = Ok tt
  ∧ (run_main no_failure no_unlink_failure true [x61;x0a]).1
    = Raise (OSError Rmtree)
  ∧ logged (trace (run_main no_failure no_unlink_failure true [x61;x0a]).2) = []
  ∧ last (trace (run_main no_failure no_unlink_failure true [x61;x0a]).2)
    = Some (EvIo Rmtree false).
Proof. vm_compute. done. Qed.

Lemma main_spec T fails uf rf w :
  fails (length (trace w)) Mkdtemp = false →
  (sort T fails uf (add_trace [EvIo Mkdtemp true] w)).1 ≠ OutOfFuel →
  main T fails uf rf w
  = let s := sort T fails uf (add_trace [EvIo Mkdtemp true] w) in
    if rf then (Raise (OSError Rmtree), add_trace [EvIo Rmtree false] s.2)
    else (s.1, set_fs ∅ (add_trace [EvIo Rmtree true] s.2)).
Proof.
  intros Hf Hnf. unfold main. rewrite bind_run. unfold io at 1. rewrite Hf. simpl.
  unfold try_finally, rmtree. fold (add_trace [EvIo Mkdtemp true] w).
  destruct (sort T fails uf (add_trace [EvIo Mkdtemp true] w)) as [r ws].
  simpl in *. destruct r as [[]|e|], rf; simpl; done.
Qed.

(** C3, amended. On every exit of [sort], normal or by an error of any
    phase, the [finally] block attempts to unlink every registered segment
    path, in order of registration and after everything else; every
    segment file that was created is among them; each failed attempt is
    logged and the others still take place; the block changes neither a
    normal return nor the error raised by the body.  The temporary
    directory is removed by [main] on leaving [with], after [sort]; a
    failure of that removal is raised by [main]. *)
Theorem sort_cleanup fails uf rf input :
  let body := sort_body chunk_threshold fails (initial input) in
  let o := run_sort fails uf input in
  let m := run_main fails uf rf input in
  (o.1 = body.1 ∧ o.1 ≠ OutOfFuel ∧ output_stream o.2 = output_stream body.2)
  ∧ (∃ tc, trace o.2 = trace body.2 ++ tc
           ∧ unlink_attempts (trace body.2) = []
           ∧ unlink_attempts tc = registered (trace body.2)
           ∧ (∀ e, e ∈ tc → ∃ p, (∃ ok, e = EvIo (Unlink p) ok)
                                  ∨ e = EvLog p (OSError (Unlink p))))
  ∧ (∀ p, p ∈ created (trace o.2) → p ∈ unlink_attempts (trace o.2))
  ∧ (∀ p, p ∈ logged (trace o.2) ↔ EvIo (Unlink p) false ∈ trace o.2)
  ∧ (fails 0 Mkdtemp = false →
       last (trace m.2) = Some (EvIo Rmtree (negb rf))
       ∧ (rf = true → m.1 = Raise (OSError Rmtree))
       ∧ (rf = false →
          m.1 = (sort chunk_threshold fails uf
                   (add_trace [EvIo Mkdtemp true] (initial input))).1)).
Proof.
  intros body o m. subst body o m.
  destruct (run_sort_spec fails uf input)
    as (r & t & rest & fs' & fs'' & n & out & -> & -> & Hscan & _ & _ & _ & Hout).
  simpl. pose proof (scan_registered _ _ _ Hscan) as (_ & Hreg & Hun & Hlog).
  rewrite Nat.sub_0_r in Hreg. split_and!.
  - done.
  - intros ->. done.
  - done.
  - exists (seq 0 n ≫= unlink_events uf fs'). split_and!; [done|done| |].
    + by rewrite unlink_events_attempts.
    + intros e (p & _ & [->|[_ ->]])%unlink_events_elem; exists p; eauto.
  - intros p Hp. rewrite unlink_attempts_app, unlink_events_attempts, Hun.
    simpl. rewrite created_app in Hp.
    destruct (unlink_events_quiet_obs uf fs' (seq 0 n)) as (_ & Hc & _).
    rewrite Hc, app_nil_r in Hp. clear Hc.
    assert (∀ t k k', scan k t = Some k' → ∀ p, p ∈ created t → p < k') as Hcr.
    { clear. intros t. induction t as [|e t IH]; intros k k' Hs p Hp.
      - by apply elem_of_nil in Hp.
      - destruct e as [[] [|]| | |]; simpl in Hs, Hp; repeat case_decide;
          try done; try (by eapply IH).
        apply elem_of_cons in Hp as [->|Hp]; [|by eapply IH].
        apply scan_registered in Hs as (? & _). lia. }
    apply elem_of_seq. specialize (Hcr t 0 n Hscan p Hp). lia.
  - intros p. rewrite logged_app, Hlog, unlink_events_logged. simpl.
    rewrite list_elem_of_filter, elem_of_app. split.
    + intros [Hok Hp]. right. apply list_elem_of_bind. exists p.
      split; [|done]. unfold unlink_events. rewrite Hok. left.
    + intros [Hin|Hin].
      * exfalso. assert (p ∈ unlink_attempts t) as Hin';
          [|rewrite Hun in Hin'; by apply elem_of_nil in Hin'].
        unfold unlink_attempts. apply list_elem_of_omap. by eexists.
      * apply unlink_events_elem in Hin as (q & Hq & [[= -> Hok]|[_ ?]]); done.
  - intros Hf.
    assert (Forall line_shaped (input_stream (add_trace [EvIo Mkdtemp true]
                                                (initial input)))) as Hsh.
    { apply readlines_shape. }
    destruct (sort_spec chunk_threshold fails uf chunk_threshold_pos _ Hsh)
      as (r' & t' & rest' & f1 & f2 & n' & out' & Hs & _ & _ & _ & _ & _ & Hout').
    unfold run_main. rewrite main_spec; [|done|].
    2:{ rewrite Hs. simpl. intros ->. done. }
    rewrite Hs. simpl. destruct rf; simpl.
    + rewrite app_comm_cons, last_snoc. done.
    + rewrite app_comm_cons, last_snoc. done.
Qed.

(** After a call without failures the temporary directory holds no segment
    file. *)
Lemma run_sort_no_leftover fails input :
  (∀ n op, fails n op = false) → well_formed input →
  fs (run_sort fails no_unlink_failure input).2 = ∅.
Proof.
  intros Hf Hwf.
  destruct (run_sort_spec fails no_unlink_failure input)
    as (r & t & rest & fs' & fs'' & n & out & -> & _ & _ & _ & _ & Hfs & Hout).
  destruct (outcome_ok _ _ _ _ _ Hout Hf) as ([] & -> & Hq); [by intros H|].
  simpl in Hq. destruct Hq as (_ & _ & _ & Hseg & Hnone & _).
  simpl. apply map_eq. intros q. rewrite Hfs, lookup_empty.
  case_decide as Hd; [done|]. destruct (decide (q < n)) as [Hlt|Hge].
  - destruct Hd. split; [apply elem_of_seq; lia|].
    unfold unlink_ok, no_unlink_failure. rewrite Hseg by done. done.
  - apply Hnone. lia.
Qed.

Lemma sort_cleanup_witness :
  last (trace (run_main no_failure no_unlink_failure true [x61;x0a]).2)
  = Some (EvIo Rmtree false).
Proof.
  destruct (sort_cleanup no_failure no_unlink_failure true [x61;x0a])
    as (_ & _ & _ & _ & H).
  apply H. reflexivity.
Defined.

(** ** The merge *)




(** ** Phase one *)

Lemma readlines_sorted_chunk c :
  Forall proper c → readlines (concat (list_sort c)) = list_sort c.
Proof. intros Hc. apply readlines_concat. by rewrite list_sort_perm. Qed.

Lemma loop_head_inv T fails input w :
  0 < T →
  loop_head T fails (initial input) w →
  temp_files w = seq 0 (temp_file_counter w)
  ∧ ∃ consumed,
      readlines input = consumed ++ input_stream w
      ∧ Forall (λ p, StronglySorted bytes_le (segment_lines w p)) (temp_files w)
      ∧ concat (segment_lines w <$> temp_files w) ≡ₚ consumed.
Proof.
  intros HT.
  induction 1 as [|w chunk w1 w2 Hlh (Htf & consumed & HL & Hs & Hp) Hrc Hne Hsp].
  - split; [done|]. exists []. simpl. split_and!; [done|constructor|done].
  - destruct (read_chunk_spec T fails HT (input_stream w) [] w eq_refl)
      as (r & t & rest & Hrc' & _ & Hout); [exact HT|].
    rewrite Hrc in Hrc'. injection Hrc' as <- ->. simpl in Hout.
    destruct Hout as (_ & Hc & Hrest & Hend). rewrite Nat.sub_0_r in *.
    destruct (spill_spec fails chunk (set_input_stream rest (add_trace t w)))
      as (r2 & t2 & fs2 & Hsp' & _ & _ & _ & Hout2).
    rewrite Hsp in Hsp'. injection Hsp' as <- ->. simpl in Hout2.
    destruct Hout2 as (_ & -> & _).
    cbn [temp_file_counter input_stream output_stream fs temp_files trace
         set_input_stream add_trace set_trace].
    set (k := temp_file_counter w) in *.
    set (w2 := mkState _ _ _ _ _ _).
    change (temp_files w2) with (temp_files w ++ [k]).
    change (temp_file_counter w2) with (S k).
    change (input_stream w2) with rest.
    assert (Forall proper chunk) as Hprop.
    { apply Forall_forall. intros l Hl. apply line_shaped_proper.
      - pose proof (readlines_shape input) as Hsh. rewrite HL in Hsh.
        apply Forall_app in Hsh as [_ Hsh]. rewrite Forall_forall in Hsh.
        apply Hsh. rewrite <- (take_drop T (input_stream w)).
        apply elem_of_app. left. by rewrite <- Hc.
      - rewrite Forall_forall in Hend. apply Hend. by rewrite <- Hc. }
    assert (∀ p, p ∈ temp_files w → segment_lines w2 p = segment_lines w p)
      as Hold.
    { intros p Hp'. unfold segment_lines. subst w2. cbn [fs].
      rewrite lookup_insert_ne; [done|]. rewrite Htf in Hp'.
      apply elem_of_seq in Hp'. lia. }
    assert (segment_lines w2 k = list_sort chunk) as Hnew.
    { unfold segment_lines. subst w2. cbn [fs]. rewrite lookup_insert_eq.
      by apply readlines_sorted_chunk. }
    assert (segment_lines w2 <$> temp_files w = segment_lines w <$> temp_files w)
      as Hmap.
    { apply list_fmap_ext. intros i p Hi. apply Hold.
      by eapply list_elem_of_lookup_2. }
    split; [rewrite Htf; exact (eq_sym (seq_S k 0))|].
    exists (consumed ++ chunk). split_and!.
    + rewrite HL, <- app_assoc. f_equal. subst rest.
      by rewrite Hc, take_drop.
    + apply Forall_app. split.
      * apply Forall_forall. intros p Hp'. rewrite Hold by done.
        rewrite Forall_forall in Hs. by apply Hs.
      * apply Forall_singleton. rewrite Hnew. apply list_sort_sorted.
    + rewrite fmap_app, concat_app, Hmap. apply Permutation_app; [done|].
      change (concat (segment_lines w2 <$> [k])) with (segment_lines w2 k ++ []).
      rewrite Hnew, app_nil_r. apply list_sort_perm.
Qed.

Lemma read_chunk_bound T fails w chunk0 chunk w' :
  0 < T → length chunk0 < T →
  read_chunk T fails (input_stream w) chunk0 w = (Ok chunk, w') →
  length chunk ≤ T.
Proof.
  intros HT Hlen Hrc.
  destruct (read_chunk_spec T fails HT (input_stream w) chunk0 w eq_refl Hlen)
    as (r & t & rest & Hrc' & _ & Hout).
  rewrite Hrc in Hrc'. injection Hrc' as <- _. simpl in Hout.
  destruct Hout as (_ & -> & _). rewrite length_app, length_take. lia.
Qed.

(** The states at the head of the loop lead to one another. *)
Lemma loop_head_step T fails w chunk w1 w2 w3 :
  read_chunk T fails (input_stream w) [] w = (Ok chunk, w1) →
  chunk ≠ [] →
  spill fails chunk w1 = (Ok tt, w2) →
  loop_head T fails w2 w3 → loop_head T fails w w3.
Proof.
  intros Hrc Hne Hsp. induction 1 as [|w' c w1' w2' _ IH Hrc' Hne' Hsp'].
  - eapply loop_head_next; [apply loop_head_start|done..].
  - eapply loop_head_next; [exact IH|done..].
Qed.

(** A normal return of phase one went through states at the head of the
    loop, and ended on an empty chunk read in the last of them. *)
Lemma phase_one_loop_head T fails fuel w w' :
  phase_one T fails fuel w = (Ok tt, w') →
  ∃ wl, loop_head T fails w wl
        ∧ read_chunk T fails (input_stream wl) [] wl = (Ok [], w').
Proof.
  revert w. induction fuel as [|fuel IH]; intros w; [done|].
  rewrite phase_one_S.
  destruct (read_chunk T fails (input_stream w) [] w) as [[chunk|e|] w1] eqn:Hrc;
    [|done|done].
  destruct chunk as [|c chunk].
  - intros [= <-]. exists w. split; [apply loop_head_start|done].
  - destruct (spill fails (c :: chunk) w1) as [[[]|e|] w2] eqn:Hsp; [|done|done].
    intros Hph. destruct (IH w2 Hph) as (wl & Hlh & Hlast).
    exists wl. split; [|done]. by eapply loop_head_step.
Qed.

(** C8. At the head of every iteration of the loop of phase one: a chunk
    accumulated from there has at most 1,000,000 lines; every segment
    written so far is in ascending order; and the lines of the segments
    written so far are, as a multiset, the lines of the input consumed so
    far. *)
Theorem phase_one_invariants fails input w :
  loop_head chunk_threshold fails (initial input) w →
  (∀ chunk0 chunk w',
     length chunk0 < chunk_threshold →
     read_chunk chunk_threshold fails (input_stream w) chunk0 w = (Ok chunk, w') →
     length chunk ≤ chunk_threshold)
  ∧ Forall (λ p, StronglySorted bytes_le (segment_lines w p)) (temp_files w)
  ∧ ∃ consumed,
      readlines input = consumed ++ input_stream w
      ∧ concat (segment_lines w <$> temp_files w) ≡ₚ consumed.
Proof.
  intros Hlh.
  destruct (loop_head_inv _ fails input w chunk_threshold_pos Hlh)
    as (_ & consumed & HL & Hs & Hp).
  split_and!; [|done|by exists consumed].
  intros chunk0 chunk w'. by apply read_chunk_bound, chunk_threshold_pos.
Qed.

Lemma phase_one_invariants_witness :
  ∃ w, temp_files w = [0]
       ∧ Forall (λ p, StronglySorted bytes_le (segment_lines w p)) (temp_files w).
Proof.
  eexists (mkState [] [] _ [0] 1 _).
  split; [reflexivity|].
  eapply (phase_one_invariants no_failure [x62;x0a;x61;x0a]).
  eapply (loop_head_next _ _ _ (initial [x62;x0a;x61;x0a]));
    [apply loop_head_start| | |].
  - vm_compute. reflexivity.
  - discriminate.
  - vm_compute. reflexivity.
Defined.

(** ** Sorting twice, and empty records *)

Lemma run_sort_sorted_input fails uf input :
  (∀ n op, fails n op = false) → well_formed input →
  StronglySorted bytes_le (readlines input) →
  (run_sort fails uf input).1 = Ok tt
  ∧ output_stream (run_sort fails uf input).2 = readlines input.
Proof.
  intros Hf Hwf Hs. pose proof (run_sort_no_failure fails uf input Hf Hwf) as Hok.
  split; [done|]. destruct (run_sort_output fails uf input Hok) as (_ & Hso & Hp).
  by apply (StronglySorted_unique bytes_le).
Qed.

(** C9. Without failures, [sort] writes an input that is already in
    ascending order back unchanged, byte for byte; and sorting the output
    of [sort] once more gives that output again. *)
Theorem sort_idempotent fails uf input :
  (∀ n op, fails n op = false) → well_formed input →
  (StronglySorted bytes_le (readlines input) →
     (run_sort fails uf input).1 = Ok tt
     ∧ concat (output_stream (run_sort fails uf input).2) = input)
  ∧ (let once := concat (output_stream (run_sort fails uf input).2) in
     (run_sort fails uf once).1 = Ok tt
     ∧ concat (output_stream (run_sort fails uf once).2) = once).
Proof.
  intros Hf Hwf. split.
  - intros Hs. destruct (run_sort_sorted_input fails uf input Hf Hwf Hs) as [Hok ->].
    split; [done|]. apply concat_readlines.
  - intros once.
    pose proof (run_sort_no_failure fails uf input Hf Hwf) as Hok.
    destruct (run_sort_output fails uf input Hok) as (_ & Hso & Hp).
    assert (Forall proper (output_stream (run_sort fails uf input).2)) as Hprop.
    { rewrite Hp. by apply well_formed_proper. }
    assert (readlines once = output_stream (run_sort fails uf input).2) as Hrl.
    { by apply readlines_concat. }
    assert (well_formed once) as Hwf'.
    { unfold well_formed. rewrite Hrl. eapply Forall_impl; [exact Hprop|].
      intros l. apply proper_endswith. }
    destruct (run_sort_sorted_input fails uf once Hf Hwf') as [Hok' Hout'].
    { by rewrite Hrl. }
    split; [done|]. rewrite Hout'. apply concat_readlines.
Qed.

Lemma sort_idempotent_witness :
  concat (output_stream
            (run_sort no_failure no_unlink_failure [x61;x0a;x61;x0a;x62;x0a]).2)
  = [x61;x0a;x61;x0a;x62;x0a].
Proof.
  assert (well_formed [x61;x0a;x61;x0a;x62;x0a]) as Hwf.
  { unfold well_formed. simpl. repeat constructor. }
  destruct (sort_idempotent no_failure no_unlink_failure
              [x61;x0a;x61;x0a;x62;x0a]) as [H _]; [reflexivity|exact Hwf|].
  apply H. simpl. repeat constructor.
Defined.

(** C10. A record with empty content, the delimiter alone, passes the
    check of [sort]; without failures the call returns normally and the
    record is in the output as many times as in the input; it counts
    as a line of its chunk like any other: the number of segments is that
    of the chunks of all the lines, an input of [k] empty records is
    written back as [k] empty records, and 1,000,001 of them fill two
    segments. *)
Theorem sort_accepts_empty_records fails uf input :
  (∀ n op, fails n op = false) → well_formed input →
  endswith_nl [nl] = true
  ∧ (run_sort fails uf input).1 = Ok tt
  ∧ length (filter (λ l, l = [nl]) (output_stream (run_sort fails uf input).2))
    = length (filter (λ l, l = [nl]) (readlines input))
  ∧ (∃ n, chunk_count chunk_threshold (length (readlines input)) n
          ∧ created (trace (run_sort fails uf input).2) = seq 0 n)
  ∧ (∀ k, input = repeat nl k →
          output_stream (run_sort fails uf input).2 = repeat [nl] k)
  ∧ (input = repeat nl (S chunk_threshold) →
     created (trace (run_sort fails uf input).2) = [0; 1]).
Proof.
  intros Hf Hwf.
  destruct (run_sort_created fails uf input Hf Hwf) as (Hok & n & Hcnt & Hcr).
  destruct (run_sort_output fails uf input Hok) as (_ & Hso & Hp).
  split_and!; [done|done| | | |].
  - by rewrite Hp.
  - by exists n.
  - intros k ->. rewrite readlines_repeat_nl in Hp.
    by apply Permutation_repeat in Hp.
  - intros ->. rewrite readlines_repeat_nl, repeat_length in Hcnt.
    apply chunk_count_succ in Hcnt as ->; [done|apply chunk_threshold_pos].
Qed.

Lemma sort_accepts_empty_records_witness :
  output_stream (run_sort no_failure no_unlink_failure (repeat nl 3)).2
  = repeat [nl] 3.
Proof.
  destruct (sort_accepts_empty_records no_failure no_unlink_failure (repeat nl 3))
    as (_ & _ & _ & _ & H & _).
  - reflexivity.
  - apply well_formed_repeat_nl.
  - by apply H.
Defined.

(** * Further properties of sort.py *)

(** ** What a failing merge has written *)

(** A sorted list followed by the sorted rest, every element of the first
    below every element of the rest, is the sorted whole. *)
Lemma sorted_prefix (ys rest : list (bytes * nat)) (L : list bytes) :
  StronglySorted key_le ys →
  Forall (λ y, Forall (key_le y) rest) ys →
  (ys ++ rest).*1 ≡ₚ L →
  ys.*1 `prefix_of` list_sort L.
Proof.
  intros Hs Hlow Hp. exists (list_sort rest.*1).
  apply (StronglySorted_unique bytes_le); [apply list_sort_sorted| |].
  - apply StronglySorted_app. split_and!.
    + intros a b Ha Hb.
      apply list_elem_of_fmap in Ha as (y & -> & Hy).
      rewrite list_sort_perm in Hb.
      apply list_elem_of_fmap in Hb as (z & -> & Hz).
      apply key_le_fst. rewrite Forall_forall in Hlow.
      specialize (Hlow y Hy). rewrite Forall_forall in Hlow. by apply Hlow.
    + eapply StronglySorted_fmap; [|exact Hs]. intros x y. apply key_le_fst.
    + apply list_sort_sorted.
  - rewrite !list_sort_perm, <- Hp, fmap_app. done.
Qed.

Section merge_partial.
Context (fails : nat → io_op → bool).

(** Whatever stops the merge, the lines written are the first lines
    yielded, and what was yielded is ascending and below what is left in
    the heap. *)
Lemma merge_loop_partial fuel h w :
  heap_wf h → heap_size h ≤ fuel →
  ∃ r t out rest,
    merge_loop fails fuel h w
      = (r, set_output_stream (output_stream w ++ out) (add_trace t w))
    ∧ r ≠ OutOfFuel
    ∧ out `prefix_of` (yields t).*1
    ∧ yields t ++ rest ≡ₚ heap_contents h
    ∧ StronglySorted key_le (yields t)
    ∧ Forall (λ y, Forall (key_le y) rest) (yields t).
Proof.
  revert h w. induction fuel as [|fuel IH]; intros h w Hwf Hfuel;
    destruct (heap_top h) as [m|] eqn:Htop.
  - pose proof (heap_top_elem_of _ _ Htop) as Hm.
    rewrite (heap_advance_size h m Hwf Hm) in Hfuel. lia.
  - apply heap_top_None in Htop as ->. exists (Ok tt), [], [], [].
    simpl. rewrite app_nil_r, add_trace_nil.
    split_and!; try done; try (by destruct w); constructor.
  - pose proof (heap_top_elem_of _ _ Htop) as Hm.
    pose proof (heap_top_bound _ _ Hwf Htop) as Hbound.
    pose proof (heap_advance_contents h m Hwf Hm) as Hperm.
    pose proof (heap_advance_wf h m Hwf Hm) as Hwf'.
    pose proof (heap_advance_size h m Hwf Hm) as Hsize.
    destruct m as [[v o] it]. simpl in Hperm, Hbound.
    rewrite Hperm in Hbound. apply Forall_cons in Hbound as [_ Hbound].
    simpl. rewrite Htop. repeat (rewrite bind_run; simpl).
    unfold write_output. rewrite bind_run.
    set (w1 := set_trace _ w).
    destruct (io_spec fails WriteOut w1) as [[|] [-> Hok]]; simpl.
    2:{ exists (Raise (OSError WriteOut)), [EvYield v o; EvIo WriteOut false],
          [], (heap_contents (heap_advance (v, o, it) h)).
        split_and!.
        - subst w1. destruct w; simpl. unfold add_trace, set_trace. simpl.
          by rewrite app_nil_r, <- app_assoc.
        - done.
        - apply prefix_nil.
        - simpl. by rewrite Hperm.
        - simpl. repeat constructor.
        - simpl. repeat constructor. done. }
    repeat (rewrite bind_run; simpl).
    set (w2 := set_output_stream _ _).
    destruct (next_line_spec fails it w2) as (r & t & -> & Hq & Hout).
    destruct r as [nx|e|]; simpl in Hout; [| |done].
    2:{ exists (Raise e), (EvYield v o :: EvIo WriteOut true :: t), [v],
          (heap_contents (heap_advance (v, o, it) h)).
        split_and!.
        - subst w2 w1. destruct w; simpl. unfold add_trace, set_trace. simpl.
          by rewrite <- !app_assoc.
        - done.
        - simpl. by rewrite quiet_yields.
        - simpl. rewrite quiet_yields by done. simpl. by rewrite Hperm.
        - simpl. rewrite quiet_yields by done. repeat constructor.
        - simpl. rewrite quiet_yields by done. repeat constructor. done. }
    destruct Hout as [Hok' ->].
    destruct (IH (heap_advance (v, o, it) h) (add_trace t w2))
      as (r' & t' & out' & rest & Heq & Hnf & Hpre & Hp & Hsort & Hlow);
      [done|lia|].
    exists r', (EvYield v o :: EvIo WriteOut true :: t ++ t'), (v :: out'), rest.
    rewrite <- Hp in Hbound. apply Forall_app in Hbound as [Hb1 Hb2].
    split_and!.
    + transitivity (merge_loop fails fuel (heap_advance (v, o, it) h)
                      (add_trace t w2)).
      * unfold heap_advance. simpl. by destruct (rd_lines it).
      * rewrite Heq. subst w2 w1. destruct w; simpl.
        unfold add_trace, set_trace, set_output_stream. simpl.
        by rewrite <- !app_assoc.
    + done.
    + simpl. rewrite yields_app, quiet_yields by done. simpl.
      by apply prefix_cons.
    + simpl. rewrite yields_app, quiet_yields by done. simpl.
      by rewrite Hperm, Hp.
    + simpl. rewrite yields_app, quiet_yields by done. simpl.
      by constructor.
    + simpl. rewrite yields_app, quiet_yields by done. simpl.
      by constructor.
  - apply heap_top_None in Htop as ->. exists (Ok tt), [], [], [].
    simpl. rewrite app_nil_r, add_trace_nil.
    split_and!; try done; try (by destruct w); constructor.
Qed.

Lemma merge_and_write_partial open_files w :
  Forall (λ f, StronglySorted bytes_le (rd_lines f)) open_files →
  ∃ r t out rest,
    merge_and_write fails open_files w
      = (r, set_output_stream (output_stream w ++ out) (add_trace t w))
    ∧ r ≠ OutOfFuel
    ∧ out `prefix_of` (yields t).*1
    ∧ yields t ++ rest ≡ₚ tagged 0 open_files
    ∧ StronglySorted key_le (yields t)
    ∧ Forall (λ y, Forall (key_le y) rest) (yields t).
Proof.
  intros Hs. unfold merge_and_write. rewrite bind_run.
  destruct (merge_init_spec fails 0 open_files [] w) as (r & t & -> & Hq & Hout).
  destruct r as [h|e|]; simpl in Hout; [| |done].
  2:{ exists (Raise e), t, [], (tagged 0 open_files). split_and!.
      - destruct w; simpl. unfold add_trace, set_trace, set_output_stream.
        simpl. by rewrite app_nil_r.
      - done.
      - apply prefix_nil.
      - by rewrite quiet_yields.
      - rewrite quiet_yields by done. constructor.
      - rewrite quiet_yields by done. constructor. }
  destruct Hout as [Hok ->]. simpl.
  destruct (merge_loop_partial (heap_size (init_entries 0 open_files))
              (init_entries 0 open_files) (add_trace t w))
    as (r' & t' & out' & rest & -> & Hnf & Hpre & Hp & Hsort & Hlow);
    [by apply init_entries_wf|done|].
  rewrite init_entries_contents in Hp.
  exists r', (t ++ t'), out', rest. split_and!.
  - destruct w; simpl. unfold add_trace, set_trace, set_output_stream.
    simpl. by rewrite <- app_assoc.
  - done.
  - by rewrite yields_app, quiet_yields.
  - by rewrite yields_app, quiet_yields.
  - by rewrite yields_app, quiet_yields.
  - by rewrite yields_app, quiet_yields.
Qed.

Lemma phase_two_partial w :
  (∀ p, p ∈ temp_files w → is_Some (fs w !! p)) →
  Forall (λ f, StronglySorted bytes_le (rd_lines f)) (reader_of w <$> temp_files w) →
  ∃ r t out rest,
    phase_two fails w
      = (r, set_output_stream (output_stream w ++ out) (add_trace t w))
    ∧ r ≠ OutOfFuel
    ∧ out `prefix_of` (yields t).*1
    ∧ yields t ++ rest ≡ₚ tagged 0 (reader_of w <$> temp_files w)
    ∧ StronglySorted key_le (yields t)
    ∧ Forall (λ y, Forall (key_le y) rest) (yields t).
Proof.
  intros Hfs Hs. unfold phase_two. repeat (rewrite bind_run; simpl).
  destruct (open_segments_spec fails (temp_files w) [] w Hfs)
    as (r & t & -> & Hq & Hout).
  destruct r as [open_files|e|]; simpl in Hout; [| |done].
  2:{ exists (Raise e), t, [], (tagged 0 (reader_of w <$> temp_files w)).
      split_and!.
      - destruct w; simpl. unfold add_trace, set_trace, set_output_stream.
        simpl. by rewrite app_nil_r.
      - done.
      - apply prefix_nil.
      - by rewrite quiet_yields.
      - rewrite quiet_yields by done. constructor.
      - rewrite quiet_yields by done. constructor. }
  destruct Hout as [Hok ->]. simpl. rewrite bind_run. unfold try_finally.
  set (open_files := reader_of w <$> temp_files w) in *.
  destruct (merge_and_write_partial open_files (add_trace t w) Hs)
    as (r1 & t1 & out & rest & -> & Hnf & Hpre & Hp & Hsort & Hlow).
  set (w1 := set_output_stream _ _).
  destruct (close_all_spec fails open_files w1) as (r2 & t2 & Hclose & Hq2 & Hout2).
  assert (∀ t3, quiet t3 → yields (t ++ t1 ++ t2 ++ t3) = yields t1) as Hy'.
  { intros t3 Hq3. rewrite !yields_app, (quiet_yields t), (quiet_yields t2),
      (quiet_yields t3) by done. simpl. by rewrite app_nil_r. }
  assert (∀ t3, set_output_stream (output_stream w ++ out)
                     (add_trace (t ++ t1 ++ t2 ++ t3) w)
                   = add_trace t3 (add_trace t2 w1)) as Hst.
  { intros t3. subst w1. destruct w; simpl.
    unfold add_trace, set_trace, set_output_stream. simpl.
    by rewrite <- !app_assoc. }
  assert (quiet []) as Hnil by constructor.
  rewrite Hclose.
  destruct r2 as [[]|e2|]; simpl in Hout2; [| |done];
    (destruct r1 as [[]|e1|]; [| |done]); simpl.
  - destruct (io_spec fails FlushOut (add_trace t2 w1)) as [ok [-> Hok3]].
    exists (if ok then Ok tt else Raise (OSError FlushOut)),
      (t ++ t1 ++ t2 ++ [EvIo FlushOut ok]), out, rest.
    rewrite Hst, Hy' by (by repeat constructor).
    split_and!; [by destruct ok|by destruct ok|done..].
  - exists (Raise e1), (t ++ t1 ++ t2 ++ []), out, rest.
    rewrite Hst, (Hy' [] Hnil), add_trace_nil. by split_and!.
  - exists (Raise e2), (t ++ t1 ++ t2 ++ []), out, rest.
    rewrite Hst, (Hy' [] Hnil), add_trace_nil. by split_and!.
  - exists (Raise e2), (t ++ t1 ++ t2 ++ []), out, rest.
    rewrite Hst, (Hy' [] Hnil), add_trace_nil. by split_and!.
Qed.
End merge_partial.

Section sort_partial.
Context (threshold : nat) (fails : nat → io_op → bool).
Hypothesis Hthreshold : 0 < threshold.

(** Phase one touches no path at or above the counter it leaves. *)
Lemma phase_one_frame fuel w :
  let o := phase_one threshold fails fuel w in
  temp_file_counter w ≤ temp_file_counter o.2
  ∧ ∀ q, temp_file_counter o.2 ≤ q → fs o.2 !! q = fs w !! q.
Proof.
  revert w. induction fuel as [|fuel IH]; intros w; [done|].
  cbv zeta. rewrite phase_one_S.
  destruct (read_chunk_spec threshold fails Hthreshold (input_stream w) [] w)
    as (r & t & rest & -> & _ & _); [done|simpl; lia|].
  destruct r as [[|c chunk]|e|]; [by destruct w..| |by destruct w|by destruct w].
  set (w1 := set_input_stream _ _).
  destruct (spill_spec fails (c :: chunk) w1) as (rs & ts & fs' & -> & Hfr & _).
  set (w2 := mkState _ _ _ _ _ _).
  assert (temp_file_counter w2 = S (temp_file_counter w)) as Hc
    by (by destruct w).
  assert (∀ q, q ≠ temp_file_counter w → fs w2 !! q = fs w !! q) as Hfs.
  { intros q Hq. simpl. rewrite Hfr; by destruct w. }
  destruct rs as [[]|e|].
  - destruct (IH w2) as [Hle Hq]. split; [lia|].
    intros q Hge. rewrite Hq by done. apply Hfs. lia.
  - simpl in *. split; [lia|]. intros q Hge. apply Hfs. lia.
  - simpl in *. split; [lia|]. intros q Hge. apply Hfs. lia.
Qed.

(** What the body of [sort] has written is a prefix of the sorted lines,
    and it leaves no file at a path it has not registered. *)
Lemma sort_body_partial w :
  temp_files w = [] → temp_file_counter w = 0 →
  Forall line_shaped (input_stream w) →
  let o := sort_body threshold fails w in
  (∃ out, output_stream o.2 = output_stream w ++ out
          ∧ out `prefix_of` list_sort (input_stream w))
  ∧ ∀ q, temp_file_counter o.2 ≤ q → fs o.2 !! q = fs w !! q.
Proof.
  intros Htf Hc Hsh. cbv zeta. unfold sort_body.
  repeat (rewrite bind_run; simpl).
  pose proof (phase_one_frame (S (length (input_stream w))) w) as Hframe.
  destruct (phase_one_spec threshold fails Hthreshold
              (S (length (input_stream w))) w)
    as (r & t & rest & fs' & n & Heq & Hscan & Hy & _ & Hout); [lia|].
  cbv zeta in Hframe. rewrite Heq in Hframe |- *. clear Heq.
  rewrite Htf, Hc in *. simpl in *. destruct Hframe as [_ Hframe].
  destruct r as [[]|e|]; simpl in Hout; [| |done].
  2:{ split; [|done]. exists []. rewrite app_nil_r. split; [done|apply prefix_nil]. }
  destruct Hout as (Hok & -> & Hend & Hcnt & Hseg & Hrest & Hcr).
  set (w1 := mkState _ _ _ _ _ _).
  assert (reader_of w1 <$> seq 0 n
          = segment_readers threshold (input_stream w) n) as Hrd.
  { unfold segment_readers. apply list_fmap_ext. intros i x Hx.
    apply lookup_seq in Hx as [-> Hx]. unfold reader_of. simpl.
    rewrite Hseg by done. simpl. by rewrite readlines_segment. }
  destruct (phase_two_partial fails w1)
    as (r2 & t2 & out & rest & -> & _ & Hpre & Hp & Hsort & Hlow).
  { simpl. intros p Hp%elem_of_seq. rewrite Hseg by lia. eauto. }
  { simpl. rewrite Hrd. apply segment_readers_sorted. }
  simpl in Hp. rewrite Hrd in Hp. simpl. split; [|done].
  exists out. split; [done|]. etrans; [exact Hpre|].
  eapply sorted_prefix; [done|done|].
  rewrite Hp, tagged_fst. apply segment_readers_lines. apply Hcnt.
Qed.
End sort_partial.

(** X1. Whatever fails and whenever, what [sort] has written to the output
    stream is a prefix of the sorted lines of its input: no line is written
    out of place, twice, or without being a line of the input. *)
Theorem sort_output_prefix fails uf input :
  output_stream (run_sort fails uf input).2 `prefix_of` list_sort (readlines input).
Proof.
  destruct (run_sort_spec fails uf input)
    as (r & t & rest & fs' & fs'' & n & out & -> & Hb & _).
  destruct (sort_body_partial chunk_threshold fails chunk_threshold_pos
              (initial input)) as [(out' & Ho & Hpre) _];
    [done|done|apply readlines_shape|].
  rewrite Hb in Ho. simpl in Ho |- *. by subst.
Qed.

(** X2. A segment file that is still in the temporary directory when [sort]
    is left, normally or by an error, is one whose [unlink] was attempted,
    failed and was logged.  When no [unlink] fails, [sort] leaves no file
    behind on any exit. *)
Theorem sort_leftover_logged fails uf input q :
  let o := run_sort fails uf input in
  is_Some (fs o.2 !! q) →
  uf q = true
  ∧ EvIo (Unlink q) false ∈ trace o.2
  ∧ EvLog q (OSError (Unlink q)) ∈ trace o.2.
Proof.
  cbv zeta.
  destruct (run_sort_spec fails uf input)
    as (r & t & rest & fs' & fs'' & n & out & -> & Hb & _ & _ & _ & Hfs & _).
  destruct (sort_body_partial chunk_threshold fails chunk_threshold_pos
              (initial input)) as [_ Hframe];
    [done|done|apply readlines_shape|].
  rewrite Hb in Hframe. simpl in Hframe |- *.
  rewrite Hfs. case_decide as Hd; [by intros [? ?]|]. intros Hsome.
  assert (q < n) as Hlt.
  { destruct (decide (q < n)); [done|]. rewrite Hframe in Hsome by lia.
    rewrite lookup_empty in Hsome. by destruct Hsome. }
  assert (unlink_ok uf fs' q = false) as Hno.
  { destruct (unlink_ok uf fs' q) eqn:E; [|done]. destruct Hd.
    split; [apply elem_of_seq; lia|done]. }
  assert (unlink_events uf fs' q
          = [EvIo (Unlink q) false; EvLog q (OSError (Unlink q))]) as Hev.
  { unfold unlink_events. by rewrite Hno. }
  assert (∀ e, e ∈ unlink_events uf fs' q →
               e ∈ t ++ (seq 0 n ≫= unlink_events uf fs')) as Hin.
  { intros e He. apply elem_of_app. right. apply list_elem_of_bind.
    exists q. split; [done|apply elem_of_seq; lia]. }
  split_and!.
  - unfold unlink_ok in Hno. rewrite bool_decide_eq_true_2 in Hno by done.
    simpl in Hno. by destruct (uf q).
  - apply Hin. rewrite Hev. left.
  - apply Hin. rewrite Hev. right. left.
Qed.

Lemma sort_leftover_logged_witness :
  let uf := λ _ : nat, true in
  let o := run_sort no_failure uf [x61; x0a]%byte in
  is_Some (fs o.2 !! 0)
  ∧ uf 0 = true
  ∧ EvIo (Unlink 0) false ∈ trace o.2
  ∧ EvLog 0 (OSError (Unlink 0)) ∈ trace o.2.
Proof.
  cbv zeta.
  assert (is_Some (fs (run_sort no_failure (λ _, true) [x61; x0a]%byte).2 !! 0))
    as Hs by (vm_compute; eauto).
  split; [exact Hs|].
  exact (sort_leftover_logged no_failure (λ _, true) [x61; x0a]%byte 0 Hs).
Defined.

(** X3. [main] without any failure, on an input whose lines all end with
    the delimiter, returns normally, has written exactly the sorted lines
    of standard input to standard output, and has removed the temporary
    directory with everything in it, also when [sort] could not unlink a
    segment. *)
Theorem main_sorts_stdin fails uf input :
  (∀ n op, fails n op = false) → well_formed input →
  let m := run_main fails uf false input in
  m.1 = Ok tt
  ∧ output_stream m.2 = list_sort (readlines input)
  ∧ fs m.2 = ∅
  ∧ last (trace m.2) = Some (EvIo Rmtree true).
Proof.
  intros Hf Hwf. cbv zeta. unfold run_main.
  set (w0 := add_trace [EvIo Mkdtemp true] (initial input)).
  assert (Forall line_shaped (input_stream w0)) as Hsh by apply readlines_shape.
  destruct (sort_spec chunk_threshold fails uf chunk_threshold_pos w0 Hsh)
    as (r & t & rest & f1 & f2 & n & out & Hs & _ & _ & Hsort & _ & _ & Hout).
  rewrite main_spec; [|apply Hf|fold w0; rewrite Hs; simpl; by intros ->].
  fold w0. rewrite Hs. simpl.
  destruct (outcome_ok _ _ _ _ _ Hout Hf) as ([] & -> & Hq).
  { intros (bad & Hbad & Hno). unfold well_formed in Hwf.
    rewrite Forall_forall in Hwf. specialize (Hwf bad Hbad). congruence. }
  simpl in Hq. destruct Hq as (_ & _ & [Hcnt _] & _ & _ & _ & -> & Hp).
  split_and!; [done| |done|].
  - apply (StronglySorted_unique bytes_le).
    + eapply StronglySorted_fmap; [|exact Hsort]. intros x y. apply key_le_fst.
    + apply list_sort_sorted.
    + rewrite list_sort_perm, Hp, tagged_fst. by apply segment_readers_lines.
  - rewrite app_comm_cons. apply last_snoc.
Qed.

Lemma main_sorts_stdin_witness :
  let input := [x62; x0a; x61; x0a]%byte in
  let m := run_main no_failure (λ _, true) false input in
  m.1 = Ok tt
  ∧ output_stream m.2 = list_sort (readlines input)
  ∧ fs m.2 = ∅
  ∧ last (trace m.2) = Some (EvIo Rmtree true).
Proof.
  apply (main_sorts_stdin no_failure (λ _, true) [x62; x0a; x61; x0a]%byte).
  - done.
  - unfold well_formed. vm_compute. by repeat constructor.
Defined.



(** * Properties of Python dictionaries *)

Section dict_facts.
Context {K V : Type} `{!EqDecision K}.
Implicit Types (d : dict K V) (k : K).

Lemma dict_get_upd_eq (f : V → V) dflt k d :
  dict_get k (dict_upd f dflt k d) = Some (f (default dflt (dict_get k d))).
Proof.
  induction d as [|[k' v] d IH]; simpl.
  - by rewrite decide_True.
  - destruct (decide (k' = k)) as [->|Hne]; simpl.
    + by rewrite decide_True.
    + by rewrite decide_False.
Qed.

Lemma dict_get_upd_ne (f : V → V) dflt k k' d :
  k' ≠ k → dict_get k' (dict_upd f dflt k d) = dict_get k' d.
Proof.
  intros Hne. induction d as [|[k0 v] d IH]; simpl.
  - by rewrite decide_False.
  - destruct (decide (k0 = k)) as [->|Hne0]; simpl.
    + by rewrite !decide_False by done.
    + destruct (decide (k0 = k')); [done|apply IH].
Qed.

Lemma dict_get_None k (d : dict K V) : dict_get k d = None ↔ k ∉ d.*1.
Proof.
  induction d as [|[k' v] d IH]; simpl.
  - split; [intros _; apply not_elem_of_nil|done].
  - rewrite not_elem_of_cons. destruct (decide (k' = k)) as [->|Hne].
    + split; [done|]. by intros [? _].
    + rewrite IH. split; [intros H; split; [congruence|done]|by intros [_ ?]].
Qed.

Lemma dict_get_elem_of k v (d : dict K V) :
  dict_get k d = Some v → (k, v) ∈ d.
Proof.
  induction d as [|[k' v'] d IH]; simpl; [done|].
  destruct (decide (k' = k)) as [->|Hne].
  - intros [= ->]. left.
  - intros H. right. by apply IH.
Qed.

Lemma elem_of_dict_get k v (d : dict K V) :
  NoDup d.*1 → (k, v) ∈ d → dict_get k d = Some v.
Proof.
  induction d as [|[k' v'] d IH]; simpl.
  - intros _ H. by apply elem_of_nil in H.
  - intros [Hk Hnd]%NoDup_cons [[= -> ->]|Hin]%elem_of_cons.
    + by rewrite decide_True.
    + rewrite decide_False; [by apply IH|].
      intros ->. apply Hk. apply list_elem_of_fmap. by exists (k, v).
Qed.

Lemma dict_upd_keys (f : V → V) dflt k d :
  (dict_upd f dflt k d).*1 = if decide (k ∈ d.*1) then d.*1 else d.*1 ++ [k].
Proof.
  induction d as [|[k' v] d IH].
  - by destruct (decide (k ∈ ([] : dict K V).*1)) as [?%elem_of_nil|].
  - cbn [dict_upd]. destruct (decide (k' = k)) as [->|Hne].
    + rewrite decide_True; [done|left].
    + rewrite !fmap_cons, IH. simpl.
      destruct (decide (k ∈ d.*1)) as [Hin|Hout].
      * rewrite decide_True; [done|by right].
      * rewrite decide_False; [done|]. rewrite not_elem_of_cons.
        split; [congruence|done].
Qed.

Lemma dict_upd_NoDup (f : V → V) dflt k d :
  NoDup d.*1 → NoDup (dict_upd f dflt k d).*1.
Proof.
  intros Hnd. rewrite dict_upd_keys. case_decide as Hin; [done|].
  apply NoDup_app. split_and!; [done| |apply NoDup_singleton].
  intros x Hx ->%list_elem_of_singleton. done.
Qed.

Lemma dict_upd_length (f : V → V) dflt k d :
  length d ≤ length (dict_upd f dflt k d) ≤ S (length d).
Proof.
  rewrite <- !(length_fmap fst), dict_upd_keys.
  case_decide; rewrite ?length_app; simpl; lia.
Qed.

Lemma dict_upd_Forall (P : V → Prop) (f : V → V) dflt k d :
  (∀ v, P v → P (f v)) → P dflt →
  Forall (λ it, P it.2) d → Forall (λ it, P it.2) (dict_upd f dflt k d).
Proof.
  intros Hf Hd. induction 1 as [|[k' v] d Hv Hall IH]; simpl.
  - repeat constructor. simpl. by apply Hf.
  - destruct (decide (k' = k)); constructor; simpl in *; auto.
Qed.

End dict_facts.

(** * Properties of s3_ls_du.py *)

Section s3_ls_du_facts.
Import s3_ls_du.

Lemma sorted_items_elem_of {V} (d : dict string V) it :
  it ∈ sorted_items d ↔ it ∈ d.
Proof. unfold sorted_items. by rewrite merge_sort_Permutation. Qed.

Lemma sorted_items_elem_of_1 {V} (d : dict string V) it :
  it ∈ sorted_items d → it ∈ d.
Proof. apply sorted_items_elem_of. Qed.

Lemma sorted_items_elem_of_2 {V} (d : dict string V) it :
  it ∈ d → it ∈ sorted_items d.
Proof. apply sorted_items_elem_of. Qed.

(** ** [update] and the directory it builds *)

Lemma update_total_bytes kp sc sz d :
  total_bytes (update kp sc sz d)
  = dict_upd (λ v, v + sz)%Z 0%Z sc (total_bytes d).
Proof. destruct kp; simpl; [done|]. by case_decide. Qed.

Lemma update_subdirectories kp sc sz d :
  subdirectories (update kp sc sz d)
  = match kp with
    | subdir :: rest =>
        if decide (length (subdirectories d) < subdir_count_limit)
        then dict_upd (update rest sc sz) Directory_init subdir (subdirectories d)
        else subdirectories d
    | [] => subdirectories d
    end.
Proof. destruct kp; simpl; [done|]. by case_decide. Qed.

Lemma build_snoc objs o :
  build (objs ++ [o]) = update o.1.1 o.1.2 o.2 (build objs).
Proof. unfold build. by rewrite foldl_app. Qed.

Lemma update_subdirectories_length kp sc sz d :
  length (subdirectories d) ≤ length (subdirectories (update kp sc sz d)).
Proof.
  rewrite update_subdirectories. destruct kp; [done|].
  case_decide; [|done]. apply dict_upd_length.
Qed.

Lemma build_NoDup objs :
  NoDup (total_bytes (build objs)).*1 ∧ NoDup (subdirectories (build objs)).*1.
Proof.
  induction objs as [|o objs [IH1 IH2]] using rev_ind.
  - split; constructor.
  - rewrite build_snoc, update_total_bytes, update_subdirectories. split.
    + by apply dict_upd_NoDup.
    + destruct (o.1.1); [done|]. case_decide; [|done]. by apply dict_upd_NoDup.
Qed.

Lemma foldr_add_app (l1 l2 : list Z) :
  foldr Z.add 0%Z (l1 ++ l2) = (foldr Z.add 0 l1 + foldr Z.add 0 l2)%Z.
Proof. induction l1 as [|x l1 IH]; simpl; lia. Qed.

Lemma usage_snoc P sc objs o :
  usage P sc (objs ++ [o])
  = (usage P sc objs
     + if decide (o.1.2 = sc ∧ P `prefix_of` o.1.1) then o.2 else 0)%Z.
Proof.
  unfold usage. rewrite omap_app, foldr_add_app. simpl.
  case_decide; simpl; lia.
Qed.

(** The total of a storage class in a directory is the sum of the sizes of
    the objects of that class given to [update]. *)
Lemma build_total_bytes objs sc :
  dict_get sc (total_bytes (build objs))
  = if decide (Exists (λ o : object, o.1.2 = sc) objs)
    then Some (usage [] sc objs) else None.
Proof.
  induction objs as [|o objs IH] using rev_ind.
  - by destruct (decide (Exists (λ o : object, o.1.2 = sc) []))
      as [?%Exists_nil|].
  - rewrite build_snoc, update_total_bytes, usage_snoc.
    destruct (decide (o.1.2 = sc)) as [Heq|Hne].
    + rewrite decide_True by (apply Exists_app; right; by left).
      rewrite Heq, dict_get_upd_eq, IH. f_equal.
      rewrite (decide_True (P := _ ∧ _)) by (split; [done|apply prefix_nil]).
      case_decide as Hex; simpl; [done|].
      unfold usage. clear IH. induction objs as [|o' objs IH]; [done|].
      simpl. rewrite decide_False.
      2:{ intros [? _]. apply Hex. by left. }
      apply IH. intros ?. apply Hex. by right.
    + rewrite dict_get_upd_ne, IH by done.
      rewrite (decide_False (P := _ ∧ _)) by (by intros [? _]).
      rewrite Z.add_0_r. apply decide_ext.
      rewrite Exists_app, Exists_cons, Exists_nil.
      split; [by left|]. by intros [?|[?|[]]].
Qed.

Lemma sub_objects_snoc name objs o :
  sub_objects name (objs ++ [o])
  = sub_objects name objs
    ++ match o.1.1 with
       | n :: rest => if decide (n = name) then [(rest, o.1.2, o.2)] else []
       | [] => []
       end.
Proof.
  unfold sub_objects. rewrite omap_app. f_equal. simpl.
  destruct (o.1.1) as [|n rest]; [done|]. by case_decide.
Qed.

(** A subdirectory exists only for a name that some object has. *)
Lemma build_subdirectories_names objs name :
  name ∈ (subdirectories (build objs)).*1 → sub_objects name objs ≠ [].
Proof.
  induction objs as [|o objs IH] using rev_ind.
  - simpl. intros H. by apply elem_of_nil in H.
  - rewrite build_snoc, update_subdirectories, sub_objects_snoc.
    destruct (o.1.1) as [|n rest].
    + rewrite app_nil_r. apply IH.
    + case_decide.
      * rewrite dict_upd_keys. destruct (decide (n = name)) as [->|Hne].
        { intros _. by destruct (sub_objects name objs). }
        rewrite app_nil_r. case_decide; [apply IH|].
        rewrite elem_of_app, list_elem_of_singleton.
        intros [Hin|Heq]; [by apply IH|congruence].
      * intros Hin. specialize (IH Hin). by destruct (sub_objects name objs).
Qed.

(** Below the limit, the subdirectory of a name is the directory built
    from the objects below that name. *)
Lemma build_subdirectories objs name :
  length (subdirectories (build objs)) < subdir_count_limit →
  dict_get name (subdirectories (build objs))
  = if decide (sub_objects name objs = []) then None
    else Some (build (sub_objects name objs)).
Proof.
  induction objs as [|o objs IH] using rev_ind; [done|].
  rewrite build_snoc. intros Hlen.
  pose proof (update_subdirectories_length o.1.1 o.1.2 o.2 (build objs)) as Hmono.
  specialize (IH ltac:(lia)).
  rewrite update_subdirectories, sub_objects_snoc.
  destruct (o.1.1) as [|n rest].
  - by rewrite app_nil_r.
  - rewrite decide_True by lia. destruct (decide (n = name)) as [->|Hne].
    + rewrite dict_get_upd_eq, IH.
      rewrite (decide_False (P := _ ++ _ = [])).
      2:{ by destruct (sub_objects name objs). }
      f_equal. rewrite build_snoc. simpl. by case_decide as Hd; [rewrite Hd|].
    + rewrite dict_get_upd_ne by done. by rewrite app_nil_r.
Qed.

Lemma usage_cons name P sc objs :
  usage (name :: P) sc objs = usage P sc (sub_objects name objs).
Proof.
  unfold usage. f_equal. unfold sub_objects.
  induction objs as [|[[kp c] sz] objs IH]; [done|].
  cbn [omap list_omap]. rewrite IH. clear IH. simpl.
  destruct kp as [|n rest].
  - rewrite decide_False; [done|]. intros [_ Hp]. by apply prefix_nil_not in Hp.
  - destruct (decide (n = name)) as [->|Hne]; simpl.
    + destruct (decide (c = sc ∧ P `prefix_of` rest)) as [[? ?]|Hno].
      * rewrite decide_True; [done|]. split; [done|by apply prefix_cons].
      * rewrite decide_False; [done|]. intros [? Hp]. apply Hno.
        split; [done|]. by apply prefix_cons_inv_2 in Hp.
    + rewrite decide_False; [done|]. intros [_ Hp].
      by apply prefix_cons_inv_1 in Hp.
Qed.

Lemma sub_objects_Exists name objs (P : list string) sc :
  Exists (λ o : object, o.1.2 = sc ∧ P `prefix_of` o.1.1) (sub_objects name objs)
  ↔ Exists (λ o : object, o.1.2 = sc ∧ name :: P `prefix_of` o.1.1) objs.
Proof.
  unfold sub_objects. induction objs as [|[[kp c] sz] objs IH]; simpl.
  - by rewrite !Exists_nil.
  - rewrite Exists_cons, <- IH. simpl. destruct kp as [|n rest]; simpl.
    + split; [by right|]. intros [[_ Hp]|?]; [|done]. by apply prefix_nil_not in Hp.
    + destruct (decide (n = name)) as [->|Hne]; simpl.
      * rewrite Exists_cons. simpl. split.
        -- intros [[? ?]|?]; [left|by right]. split; [done|by apply prefix_cons].
        -- intros [[? Hp]|?]; [left|by right]. split; [done|].
           by apply prefix_cons_inv_2 in Hp.
      * split; [by right|]. intros [[_ Hp]|?]; [|done].
        by apply prefix_cons_inv_1 in Hp.
Qed.

Lemma sub_objects_depth n name objs :
  Forall (λ o : object, length o.1.1 ≤ S n) objs →
  Forall (λ o : object, length o.1.1 ≤ n) (sub_objects name objs).
Proof.
  unfold sub_objects. induction 1 as [|[[kp c] sz] objs Ho _ IH]; simpl; [done|].
  destruct kp as [|k rest]; simpl in *; [done|].
  case_decide; [|done]. constructor; [simpl; lia|done].
Qed.

Lemma sub_objects_depth_0 name objs :
  Forall (λ o : object, length o.1.1 ≤ 0) objs → sub_objects name objs = [].
Proof.
  unfold sub_objects. induction 1 as [|[[kp c] sz] objs Ho _ IH]; simpl; [done|].
  destruct kp as [|k rest]; simpl in *; [done|lia].
Qed.

(** ** [print_usage] *)

Lemma print_usage_eq d b key :
  print_usage d b key
  = ((λ it, mkPrinted b (ljust 60 key) it.1 it.2) <$> sorted_items (total_bytes d))
    ++ (if decide (length (subdirectories d) < subdir_count_limit) then
          sorted_items ((λ it, (it.1, print_usage it.2 b)) <$> subdirectories d)
          ≫= (λ it, it.2 (lstrip_slash (key +:+ "/" +:+ it.1)))
        else []).
Proof.
  destruct d as [tb subs]. simpl. f_equal. case_decide as Hlim; [|done].
  clear Hlim. f_equal. apply (f_equal sorted_items).
  induction subs as [|[name sub] subs IH]; [done|].
  rewrite fmap_cons. simpl. f_equal. exact IH.
Qed.

Lemma or_iff_both (A B C D : Prop) : (A ↔ B) → (C ↔ D) → (A ∨ C) ↔ (B ∨ D).
Proof. tauto. Qed.

(** A row that [print_usage] prints is a total of the directory itself,
    or, below the limit, a row of one of its subdirectories. *)
Lemma print_usage_elem d b key row :
  row ∈ print_usage d b key ↔
    (∃ sc v, (sc, v) ∈ total_bytes d ∧ row = mkPrinted b (ljust 60 key) sc v)
    ∨ (length (subdirectories d) < subdir_count_limit
       ∧ ∃ name sub, (name, sub) ∈ subdirectories d
           ∧ row ∈ print_usage sub b (lstrip_slash (key +:+ "/" +:+ name))).
Proof.
  rewrite print_usage_eq, elem_of_app.
  apply or_iff_both.
  - rewrite list_elem_of_fmap. split.
    + intros ([sc v] & -> & Hin%sorted_items_elem_of_1). by exists sc, v.
    + intros (sc & v & Hin & ->). exists (sc, v).
      split; [done|by apply sorted_items_elem_of_2].
  - case_decide as Hlim.
    + rewrite list_elem_of_bind. split.
      * intros ([name f] & Hrow & Hin%sorted_items_elem_of_1). split; [done|].
        apply list_elem_of_fmap in Hin as ([name' sub] & [= -> ->] & Hin).
        by exists name', sub.
      * intros (_ & name & sub & Hin & Hrow).
        exists (name, print_usage sub b). split; [done|].
        apply sorted_items_elem_of_2, list_elem_of_fmap. by exists (name, sub).
    + split; [by intros ?%elem_of_nil|by intros [? _]].
Qed.

Lemma key_of_cons key name P :
  key_of key (name :: P) = key_of (lstrip_slash (key +:+ "/" +:+ name)) P.
Proof. done. Qed.

(** Every row printed for a directory built by [update] reports, for a
    path below it and a storage class, the sum of the sizes of the objects
    of that class below the path. *)
Lemma print_usage_sound n objs b key row :
  Forall (λ o : object, length o.1.1 ≤ n) objs →
  row ∈ print_usage (build objs) b key →
  ∃ P, p_bucket row = b
       ∧ p_key row = ljust 60 (key_of key P)
       ∧ p_bytes row = usage P (p_class row) objs
       ∧ Exists (λ o : object, o.1.2 = p_class row ∧ P `prefix_of` o.1.1) objs.
Proof.
  revert objs key. induction n as [|n IH]; intros objs key Hdepth;
    rewrite print_usage_elem; intros [(sc & v & Hin & ->)|(Hlim & name & sub & Hin & Hrow)].
  1,3: exists []; simpl;
    apply elem_of_dict_get in Hin; [|apply build_NoDup];
    rewrite build_total_bytes in Hin; case_decide as Hex; [|done];
    injection Hin as <-; split_and!; [done|done|done|];
    eapply Exists_impl; [exact Hex|]; simpl; intros o ->;
    split; [done|apply prefix_nil].
  - apply elem_of_dict_get in Hin; [|apply build_NoDup].
    rewrite build_subdirectories in Hin by done.
    by rewrite sub_objects_depth_0, decide_True in Hin.
  - apply elem_of_dict_get in Hin; [|apply build_NoDup].
    rewrite build_subdirectories in Hin by done.
    case_decide; [done|]. injection Hin as <-.
    destruct (IH _ _ (sub_objects_depth n name objs Hdepth) Hrow)
      as (P & Hb & Hk & Hv & Hex).
    exists (name :: P). rewrite key_of_cons, usage_cons.
    split_and!; [done|done|done|]. by apply sub_objects_Exists.
Qed.

(** ** [process_stream] and [main] *)

Lemma process_stream_inr decode split int total lines total' :
  process_stream decode split int total lines = inr total' →
  Forall (λ l, is_Some (record_of decode split int l)) lines
  ∧ total' = foldl add_record total (omap (record_of decode split int) lines).
Proof.
  revert total. induction lines as [|line lines IH]; intros total; simpl.
  - intros [= ->]. by split.
  - unfold process_line, record_of at 2.
    destruct (decode line) as [l|] eqn:Hd; [|done].
    destruct (split l) as [|bucket [|key [|size [|sc [|]]]]] eqn:Hs; try done.
    destruct (int size) as [sz|] eqn:Hi; [|done].
    intros [Hall ->]%IH. split; [|done]. constructor; [|done].
    unfold record_of. rewrite Hd, Hs, Hi. by eexists.
Qed.

Lemma objects_of_snoc b recs r :
  objects_of b (recs ++ [r])
  = objects_of b recs
    ++ if decide (r.1.1.1 = b)
       then [(removelast (split_on "/" r.1.1.2), r.2, r.1.2)] else [].
Proof. unfold objects_of. rewrite omap_app. f_equal. simpl. by case_decide. Qed.

Lemma add_records_NoDup recs : NoDup (foldl add_record [] recs).*1.
Proof.
  induction recs as [|r recs IH] using rev_ind; [constructor|].
  rewrite foldl_app. simpl. by apply dict_upd_NoDup.
Qed.

(** The directory of a bucket is built from the objects of the bucket. *)
Lemma add_records_get recs b :
  dict_get b (foldl add_record [] recs)
  = if decide (objects_of b recs = []) then None
    else Some (build (objects_of b recs)).
Proof.
  induction recs as [|r recs IH] using rev_ind; [done|].
  rewrite foldl_app, objects_of_snoc. simpl. unfold add_record at 1.
  destruct (decide (r.1.1.1 = b)) as [<-|Hne].
  - rewrite dict_get_upd_eq, IH.
    rewrite (decide_False (P := _ ++ _ = [])).
    2:{ by destruct (objects_of _ recs). }
    f_equal. rewrite build_snoc. simpl. by case_decide as Hd; [rewrite Hd|].
  - rewrite dict_get_upd_ne by done. by rewrite app_nil_r.
Qed.

Lemma objects_depth (objs : list object) :
  ∃ n, Forall (λ o : object, length o.1.1 ≤ n) objs.
Proof.
  induction objs as [|o objs [n IH]]; [by exists 0|].
  exists (n `max` length o.1.1). constructor; [lia|].
  eapply Forall_impl; [exact IH|]. simpl. lia.
Qed.

End s3_ls_du_facts.

(** X4. When [main] of s3_ls_du.py prints, every line of standard input was
    accepted, and every row printed is exact: it names a bucket, the key of
    a directory path and a storage class, and its number of bytes is the sum
    of the sizes of the objects of that bucket and class whose directories
    start with that path; at least one such object exists. *)
Theorem du_rows_exact decode split int stdin rows row :
  s3_ls_du.main decode split int stdin = inr rows → row ∈ rows →
  let recs := s3_ls_du.records decode split int stdin in
  let objs := s3_ls_du.objects_of (s3_ls_du.p_bucket row) recs in
  Forall (λ l, is_Some (s3_ls_du.record_of decode split int l)) (readlines stdin)
  ∧ ∃ P,
      s3_ls_du.p_key row = s3_ls_du.ljust 60 (s3_ls_du.key_of EmptyString P)
      ∧ s3_ls_du.p_bytes row = s3_ls_du.usage P (s3_ls_du.p_class row) objs
      ∧ Exists (λ o : s3_ls_du.object,
                  o.1.2 = s3_ls_du.p_class row ∧ P `prefix_of` o.1.1) objs.
Proof.
  unfold s3_ls_du.main.
  destruct (s3_ls_du.process_stream decode split int [] (readlines stdin))
    as [e|total] eqn:Hps; [done|].
  apply process_stream_inr in Hps as [Hall ->].
  intros [= <-] Hrow. cbv zeta. split; [done|].
  apply list_elem_of_bind in Hrow as ([b d] & Hrow & Hin).
  apply sorted_items_elem_of_1, elem_of_dict_get in Hin;
    [|apply add_records_NoDup].
  rewrite add_records_get in Hin. case_decide; [done|]. injection Hin as <-.
  simpl in Hrow.
  destruct (objects_depth (s3_ls_du.objects_of b
              (omap (s3_ls_du.record_of decode split int) (readlines stdin))))
    as [n Hn].
  destruct (print_usage_sound n _ _ _ _ Hn Hrow) as (P & Hb & Hk & Hv & Hex).
  exists P. unfold s3_ls_du.records. rewrite Hb. done.
Qed.

Lemma du_rows_exact_witness :
  let decode := λ _ : bytes, Some EmptyString in
  let split := λ _ : string, ["b"; "d/k"; "7"; "S"]%string in
  let int := λ _ : string, Some 7%Z in
  let stdin := [x61; x0a]%byte in
  let row := s3_ls_du.mkPrinted "b" (s3_ls_du.ljust 60 "d") "S" 7 in
  let recs := s3_ls_du.records decode split int stdin in
  let objs := s3_ls_du.objects_of (s3_ls_du.p_bucket row) recs in
  Forall (λ l, is_Some (s3_ls_du.record_of decode split int l)) (readlines stdin)
  ∧ ∃ P,
      s3_ls_du.p_key row = s3_ls_du.ljust 60 (s3_ls_du.key_of EmptyString P)
      ∧ s3_ls_du.p_bytes row = s3_ls_du.usage P (s3_ls_du.p_class row) objs
      ∧ Exists (λ o : s3_ls_du.object,
                  o.1.2 = s3_ls_du.p_class row ∧ P `prefix_of` o.1.1) objs.
Proof.
  intros decode split int stdin row.
  eapply (du_rows_exact decode split int stdin _ row).
  - vm_compute. reflexivity.
  - right. left.
Defined.

Section s3_ls_du_more.
Import s3_ls_du.

Lemma fanout_le_eq n tb subs :
  fanout_le n (mkDirectory tb subs)
  ↔ length subs ≤ n ∧ Forall (λ it, fanout_le n it.2) subs.
Proof.
  simpl. apply and_iff_compat_l.
  induction subs as [|[name sub] subs IH]; [by split; [constructor|]|].
  rewrite Forall_cons, <- IH. done.
Qed.

Lemma update_fanout kp sc sz d :
  fanout_le subdir_count_limit d → fanout_le subdir_count_limit (update kp sc sz d).
Proof.
  revert d. induction kp as [|subdir rest IH]; intros [tb subs].
  - cbn [update subdirectories total_bytes]. rewrite !fanout_le_eq. done.
  - cbn [update subdirectories total_bytes]. case_decide as Hlim.
    + rewrite !fanout_le_eq. intros [_ Hall]. split.
      * pose proof (dict_upd_length (update rest sc sz) Directory_init subdir subs).
        lia.
      * apply dict_upd_Forall; [apply IH| |done].
        apply fanout_le_eq. split; [simpl; lia|constructor].
    + rewrite !fanout_le_eq. done.
Qed.

Lemma below_cons name P objs :
  below (name :: P) objs = below P (sub_objects name objs).
Proof. done. Qed.

Lemma sub_objects_names name objs :
  sub_objects name objs ≠ [] → name ∈ child_names [] objs.
Proof.
  unfold child_names, below. simpl. rewrite elem_of_list_to_set.
  unfold sub_objects. induction objs as [|[[kp c] sz] objs IH]; [done|].
  simpl. destruct kp as [|n rest]; simpl.
  - auto.
  - destruct (decide (n = name)) as [->|Hne]; [intros _; left|].
    intros H. right. by apply IH.
Qed.

(** A directory has no more subdirectories than its objects have names. *)
Lemma build_subdirectories_size objs :
  length (subdirectories (build objs)) ≤ size (child_names [] objs).
Proof.
  rewrite <- (length_fmap fst).
  rewrite <- (size_list_to_set (C := gset string)) by apply build_NoDup.
  apply subseteq_size. intros name Hin%elem_of_list_to_set.
  by apply sub_objects_names, build_subdirectories_names.
Qed.

(** Every directory none of whose ancestors has reached the limit is
    printed, with a row for each storage class that has objects below it. *)
Lemma print_usage_complete objs b key P sc :
  (∀ Q, Q `prefix_of` P → Q ≠ P → size (child_names Q objs) < subdir_count_limit) →
  Exists (λ o : object, o.1.2 = sc ∧ P `prefix_of` o.1.1) objs →
  mkPrinted b (ljust 60 (key_of key P)) sc (usage P sc objs)
    ∈ print_usage (build objs) b key.
Proof.
  revert objs key. induction P as [|name P IH]; intros objs key Hlim Hex;
    apply print_usage_elem.
  - left. exists sc, (usage [] sc objs). split; [|done].
    apply dict_get_elem_of. rewrite build_total_bytes, decide_True; [done|].
    eapply Exists_impl; [exact Hex|]. simpl. by intros o [? _].
  - right.
    assert (length (subdirectories (build objs)) < subdir_count_limit) as Hlen.
    { eapply Nat.le_lt_trans; [apply build_subdirectories_size|].
      apply Hlim; [apply prefix_nil|done]. }
    split; [done|]. apply sub_objects_Exists in Hex.
    exists name, (build (sub_objects name objs)). split.
    + apply dict_get_elem_of. rewrite build_subdirectories by done.
      rewrite decide_False; [done|]. intros Hnil. rewrite Hnil in Hex.
      by apply Exists_nil in Hex.
    + rewrite key_of_cons, usage_cons. apply IH; [|done].
      intros Q Hpre Hne. change (child_names Q (sub_objects name objs))
        with (child_names (name :: Q) objs).
      apply Hlim; [by apply prefix_cons|congruence].
Qed.

End s3_ls_du_more.

(** X5. [Directory.update] keeps the limit: in a tree in which no directory
    has more than 50 subdirectories, none has more after an update. *)
Theorem update_keeps_limit key_parts storage_class size d :
  s3_ls_du.fanout_le s3_ls_du.subdir_count_limit d →
  s3_ls_du.fanout_le s3_ls_du.subdir_count_limit
    (s3_ls_du.update key_parts storage_class size d).
Proof. apply update_fanout. Qed.

Lemma update_keeps_limit_witness :
  s3_ls_du.fanout_le s3_ls_du.subdir_count_limit
    (s3_ls_du.update ["a"; "b"]%string "STANDARD" 5 s3_ls_du.Directory_init).
Proof.
  apply (update_keeps_limit ["a"; "b"]%string "STANDARD" 5 s3_ls_du.Directory_init).
  simpl. unfold s3_ls_du.subdir_count_limit. split; [lia|done].
Defined.

(** X6. [main] of s3_ls_du.py prints a row for every directory that has
    objects of a storage class below it, with the sum of their sizes,
    provided that each of its proper ancestors, the root of the bucket
    included, has fewer than 50 distinct subdirectory names in the input. *)
Theorem du_rows_complete decode split int stdin rows b P sc :
  let objs := s3_ls_du.objects_of b (s3_ls_du.records decode split int stdin) in
  s3_ls_du.main decode split int stdin = inr rows →
  (∀ Q, Q `prefix_of` P → Q ≠ P →
        size (s3_ls_du.child_names Q objs) < s3_ls_du.subdir_count_limit) →
  Exists (λ o : s3_ls_du.object, o.1.2 = sc ∧ P `prefix_of` o.1.1) objs →
  s3_ls_du.mkPrinted b (s3_ls_du.ljust 60 (s3_ls_du.key_of EmptyString P)) sc
    (s3_ls_du.usage P sc objs) ∈ rows.
Proof.
  cbv zeta. unfold s3_ls_du.main, s3_ls_du.records.
  destruct (s3_ls_du.process_stream decode split int [] (readlines stdin))
    as [e|total] eqn:Hps; [done|].
  apply process_stream_inr in Hps as [Hall ->].
  intros [= <-] Hlim Hex. apply list_elem_of_bind.
  set (recs := omap _ _) in *.
  exists (b, s3_ls_du.build (s3_ls_du.objects_of b recs)). split.
  - simpl. by apply print_usage_complete.
  - apply sorted_items_elem_of_2, dict_get_elem_of.
    rewrite add_records_get, decide_False; [done|].
    intros Hnil. rewrite Hnil in Hex. by apply Exists_nil in Hex.
Qed.

Lemma du_rows_complete_witness :
  let decode := λ _ : bytes, Some EmptyString in
  let split := λ _ : string, ["b"; "d/k"; "7"; "S"]%string in
  let int := λ _ : string, Some 7%Z in
  let stdin := [x61; x0a]%byte in
  let objs := s3_ls_du.objects_of "b" (s3_ls_du.records decode split int stdin) in
  ∃ rows,
    s3_ls_du.main decode split int stdin = inr rows
    ∧ s3_ls_du.mkPrinted "b" (s3_ls_du.ljust 60 (s3_ls_du.key_of EmptyString ["d"%string]))
        "S" (s3_ls_du.usage ["d"%string] "S" objs) ∈ rows.
Proof.
  intros decode split int stdin objs. eexists. split.
  - vm_compute. reflexivity.
  - eapply (du_rows_complete decode split int stdin _ "b" ["d"%string] "S").
    + vm_compute. reflexivity.
    + intros Q Hpre Hne.
      assert (Q = []) as ->.
      { destruct Q as [|q Q]; [done|]. destruct Hpre as [k Hk].
        injection Hk as <- Hk. destruct Q; [done|]. by destruct Q. }
      vm_compute. lia.
    + left. split; [done|]. by exists [].
Defined.

(** * Properties of sum_up_s3_logs.py *)

Section sum_up_facts.
Import sum_up_s3_logs.
Context (datetime_t : Type) (datetime : Z → Z → Z → Z → Z → Z → option datetime_t).
Context (strftime : datetime_t → string) (decode_utf8 : bytes → option string).
Context (threshold : nat).

Local Abbreviation process_lines :=
  (process_lines datetime_t datetime strftime decode_utf8 threshold).
Local Abbreviation line_key := (line_key datetime_t datetime strftime decode_utf8).
Local Abbreviation accepted := (accepted datetime_t datetime decode_utf8).
Local Abbreviation parse_line := (parse_line datetime_t datetime decode_utf8).

Lemma printed_count_app k l1 l2 :
  printed_count k (l1 ++ l2) = printed_count k l1 + printed_count k l2.
Proof. unfold printed_count. by rewrite omap_app, sum_list_with_app. Qed.

Lemma printed_count_absent k (c : dict counter_key nat) :
  k ∉ c.*1 → printed_count k c = 0.
Proof.
  unfold printed_count. induction c as [|[k' n] c IH]; [done|].
  rewrite fmap_cons, not_elem_of_cons. intros [Hne Hout]. simpl.
  rewrite decide_False by done. by apply IH.
Qed.

Lemma printed_count_counter k (c : dict counter_key nat) :
  NoDup c.*1 → printed_count k c = count_of k c.
Proof.
  unfold count_of. induction c as [|[k' n] c IH]; [done|].
  rewrite fmap_cons. intros [Hk Hnd]%NoDup_cons. simpl in Hk.
  change (printed_count k ((k', n) :: c))
    with (printed_count k ([(k', n)] ++ c)).
  rewrite printed_count_app. simpl. destruct (decide (k' = k)) as [->|Hne].
  - rewrite (printed_count_absent k c) by done. unfold printed_count. simpl.
    rewrite decide_True by done. simpl. lia.
  - rewrite IH by done. unfold printed_count. simpl.
    by rewrite decide_False.
Qed.

Lemma process_lines_cons_key c line stream k :
  line_key line = Some k →
  process_lines c (line :: stream)
  = let c' := dict_upd S 0 k c in
    if threshold <=? length c' then
      let r := process_lines [] stream in (print_counts c' ++ r.1, r.2)
    else process_lines c' stream.
Proof.
  unfold line_key. cbn [sum_up_s3_logs.process_lines].
  destruct (startswith (b "#") line); [done|].
  destruct (parse_line line) as [e|rec]; [done|]. by intros [= <-].
Qed.

Lemma process_lines_cons_comment c line stream :
  accepted line → line_key line = None →
  process_lines c (line :: stream) = process_lines c stream.
Proof.
  unfold accepted, line_key. cbn [sum_up_s3_logs.process_lines].
  destruct (startswith (b "#") line); [done|].
  intros [?|[rec ->]]; done.
Qed.

Lemma process_lines_cons_error c line stream e :
  ¬ accepted line → parse_line line = inl e →
  process_lines c (line :: stream) = ([], inl e).
Proof.
  unfold accepted. cbn [sum_up_s3_logs.process_lines]. intros Hacc Hp.
  destruct (startswith (b "#") line); [destruct Hacc; by left|].
  by rewrite Hp.
Qed.

Lemma accepted_or_error line :
  accepted line ∨ (¬ accepted line ∧ ∃ e, parse_line line = inl e).
Proof.
  unfold accepted. destruct (startswith (b "#") line); [by left; left|].
  destruct (parse_line line) as [e|rec] eqn:Hp.
  - right. split; [|eauto]. by intros [?|[? ?]].
  - left. right. eauto.
Qed.

Lemma line_key_accepted line k : line_key line = Some k → accepted line.
Proof.
  unfold line_key, accepted. destruct (startswith (b "#") line); [by left|].
  destruct (parse_line line); [done|]. right. eauto.
Qed.

(** The loop keeps accounts: what it has printed and what its counter
    holds add up to what the counter held and the lines it has read. *)
Lemma process_lines_counts c stream out c' :
  NoDup c.*1 →
  process_lines c stream = (out, inr c') →
  Forall accepted stream
  ∧ NoDup c'.*1
  ∧ ∃ items,
      out = format_count <$> items
      ∧ ∀ k, printed_count k items + count_of k c'
             = count_of k c + length (filter (λ l, line_key l = Some k) stream).
Proof.
  revert c out. induction stream as [|line stream IH]; intros c out Hnd.
  - intros [= <- <-]. split_and!; [done..|]. exists []. split; [done|].
    intros k. simpl. lia.
  - destruct (line_key line) as [k0|] eqn:Hkey.
    + rewrite (process_lines_cons_key _ _ _ _ Hkey). cbv zeta.
      assert (NoDup (dict_upd S 0 k0 c).*1) as Hnd' by (by apply dict_upd_NoDup).
      assert (∀ k, count_of k (dict_upd S 0 k0 c) + 0
                   = count_of k c
                     + length (filter (λ l, line_key l = Some k) [line])) as Hstep.
      { intros k. unfold count_of. simpl.
        destruct (decide (k0 = k)) as [->|Hne].
        - rewrite dict_get_upd_eq, filter_cons_True by done. simpl. lia.
        - rewrite dict_get_upd_ne, filter_cons_False by congruence. simpl. lia. }
      assert (∀ k, length (filter (λ l, line_key l = Some k) (line :: stream))
                   = length (filter (λ l, line_key l = Some k) [line])
                     + length (filter (λ l, line_key l = Some k) stream)) as Hsplit.
      { intros k. change (line :: stream) with ([line] ++ stream).
        by rewrite filter_app, length_app. }
      destruct (threshold <=? length (dict_upd S 0 k0 c)).
      * destruct (process_lines [] stream) as [out1 r1] eqn:Hrest. simpl.
        intros [= <- ->].
        destruct (IH [] out1 ltac:(constructor) Hrest)
          as (Hall & Hnd1 & items & -> & Hcount).
        split_and!; [constructor; [by eapply line_key_accepted|done]|done|].
        exists (dict_upd S 0 k0 c ++ items). split.
        { unfold print_counts. by rewrite fmap_app. }
        intros k. rewrite printed_count_app, printed_count_counter by done.
        specialize (Hcount k). specialize (Hstep k). rewrite Hsplit.
        unfold count_of in Hcount at 2. simpl in Hcount. lia.
      * intros Hrest.
        destruct (IH _ out Hnd' Hrest) as (Hall & Hnd1 & items & -> & Hcount).
        split_and!; [constructor; [by eapply line_key_accepted|done]|done|].
        exists items. split; [done|]. intros k.
        specialize (Hcount k). specialize (Hstep k). rewrite Hsplit. lia.
    + destruct (accepted_or_error line) as [Hacc|[Hno [e He]]].
      * rewrite process_lines_cons_comment by done. intros Hrest.
        destruct (IH _ out Hnd Hrest) as (Hall & Hnd1 & items & -> & Hcount).
        split_and!; [by constructor|done|]. exists items. split; [done|].
        intros k. rewrite filter_cons_False by congruence. apply Hcount.
      * by rewrite (process_lines_cons_error _ _ _ e).
Qed.

(** Reading on after a part of the stream. *)
Lemma process_lines_app c l1 l2 :
  process_lines c (l1 ++ l2)
  = match process_lines c l1 with
    | (out, inr c') => let r := process_lines c' l2 in (out ++ r.1, r.2)
    | (out, inl e) => (out, inl e)
    end.
Proof.
  revert c. induction l1 as [|line l1 IH]; intros c.
  - simpl. by destruct (process_lines c l2).
  - destruct (line_key line) as [k0|] eqn:Hkey.
    + rewrite <- app_comm_cons, !(process_lines_cons_key _ _ _ _ Hkey). cbv zeta.
      destruct (threshold <=? length (dict_upd S 0 k0 c)).
      * rewrite IH. destruct (process_lines [] l1) as [out [e|c']]; simpl.
        -- done.
        -- by rewrite app_assoc.
      * apply IH.
    + destruct (accepted_or_error line) as [Hacc|[Hno [e He]]].
      * rewrite <- app_comm_cons, !process_lines_cons_comment by done. apply IH.
      * by rewrite <- app_comm_cons, !(process_lines_cons_error _ _ _ e).
Qed.

(** Nothing is printed before the counter has [threshold] keys. *)
Lemma process_lines_quiet c stream :
  length c + length stream < threshold → (process_lines c stream).1 = [].
Proof.
  revert c. induction stream as [|line stream IH]; intros c Hlen; [done|].
  simpl in Hlen. destruct (line_key line) as [k0|] eqn:Hkey.
  - rewrite (process_lines_cons_key _ _ _ _ Hkey). cbv zeta.
    pose proof (dict_upd_length S 0 k0 c) as Hl.
    destruct (threshold <=? length (dict_upd S 0 k0 c)) eqn:Hth.
    + apply Nat.leb_le in Hth. lia.
    + apply IH. lia.
  - destruct (accepted_or_error line) as [Hacc|[Hno [e He]]].
    + rewrite process_lines_cons_comment by done. apply IH. lia.
    + by rewrite (process_lines_cons_error _ _ _ e).
Qed.

End sum_up_facts.

(** X7. When [process_stream] of sum_up_s3_logs.py ends without logging an
    exception, every line was a comment or parsed, and the counts it has
    printed add up, for every key (bucket, key, day, operation), to the
    number of lines of the stream with that key: no request is counted
    twice or left out, whatever the threshold splits. *)
Theorem log_counts_exact datetime_t datetime strftime decode_utf8 threshold
    stream out :
  sum_up_s3_logs.process_stream datetime_t datetime strftime decode_utf8
    threshold stream = (out, None) →
  Forall (sum_up_s3_logs.accepted datetime_t datetime decode_utf8) stream
  ∧ ∃ items,
      out = sum_up_s3_logs.format_count <$> items
      ∧ ∀ k, sum_up_s3_logs.printed_count k items
             = length (filter
                 (λ l, sum_up_s3_logs.line_key datetime_t datetime strftime
                         decode_utf8 l = Some k) stream).
Proof.
  unfold sum_up_s3_logs.process_stream.
  destruct (sum_up_s3_logs.process_lines _ _ _ _ _ [] stream)
    as [out1 [e|c']] eqn:Hl; [done|].
  intros [= <-].
  destruct (process_lines_counts _ _ _ _ _ [] _ _ _ NoDup_nil_2 Hl)
    as (Hall & Hnd & items & -> & Hcount).
  split; [done|]. exists (items ++ c'). split.
  - rewrite fmap_app. f_equal. by destruct c'.
  - intros k. rewrite printed_count_app, (printed_count_counter k c') by done.
    by rewrite Hcount.
Qed.

Lemma log_counts_exact_witness :
  let datetime := λ _ _ _ _ _ _ : Z, Some tt in
  let strftime := λ _ : unit, "day"%string in
  let stream := [sum_up_s3_logs.b "# comment"; sum_up_s3_logs.sample_line;
                 sum_up_s3_logs.sample_line] in
  Forall (sum_up_s3_logs.accepted unit datetime sum_up_s3_logs.decode_ascii)
    stream
  ∧ ∃ items,
      (sum_up_s3_logs.process_stream unit datetime strftime
         sum_up_s3_logs.decode_ascii sum_up_s3_logs.flush_threshold stream).1
      = sum_up_s3_logs.format_count <$> items
      ∧ ∀ k, sum_up_s3_logs.printed_count k items
             = length (filter
                 (λ l, sum_up_s3_logs.line_key unit datetime strftime
                         sum_up_s3_logs.decode_ascii l = Some k) stream).
Proof.
  intros datetime strftime stream.
  assert (∃ out, sum_up_s3_logs.process_stream unit datetime strftime
            sum_up_s3_logs.decode_ascii sum_up_s3_logs.flush_threshold stream
          = (out, None)) as [out Hout] by (vm_compute; eauto).
  rewrite Hout.
  exact (log_counts_exact unit datetime strftime sum_up_s3_logs.decode_ascii
           sum_up_s3_logs.flush_threshold stream out Hout).
Defined.

(** X8. When a line that is not a comment fails to parse, [process_stream]
    stops and logs the exception: it has printed only what the threshold
    had made it print before that line, and the counts that it would have
    printed at the end of the lines before are lost.  Nothing at all is
    printed when fewer lines than the threshold came before. *)
Theorem log_counts_lost_on_error datetime_t datetime strftime decode_utf8
    threshold before bad after e out pending :
  sum_up_s3_logs.process_lines datetime_t datetime strftime decode_utf8
    threshold [] before = (out, inr pending) →
  sum_up_s3_logs.startswith (sum_up_s3_logs.b "#") bad = false →
  sum_up_s3_logs.parse_line datetime_t datetime decode_utf8 bad = inl e →
  sum_up_s3_logs.process_stream datetime_t datetime strftime decode_utf8
    threshold before = (out ++ sum_up_s3_logs.print_counts pending, None)
  ∧ sum_up_s3_logs.process_stream datetime_t datetime strftime decode_utf8
      threshold (before ++ bad :: after) = (out, Some e)
  ∧ (length before < threshold → out = []).
Proof.
  intros Hl Hc Hp. unfold sum_up_s3_logs.process_stream.
  rewrite process_lines_app, Hl. split_and!.
  - by destruct pending.
  - rewrite (process_lines_cons_error _ _ _ _ _ _ _ _ e); [|intros [?|[? ?]]|done];
      [|congruence..]. simpl. by rewrite app_nil_r.
  - intros Hlen.
    pose proof (process_lines_quiet datetime_t datetime strftime decode_utf8
                  threshold [] before Hlen) as Hq.
    by rewrite Hl in Hq.
Qed.

Lemma log_counts_lost_on_error_witness :
  let datetime := λ _ _ _ _ _ _ : Z, Some tt in
  let strftime := λ _ : unit, "day"%string in
  let before := [sum_up_s3_logs.sample_line] in
  let bad := sum_up_s3_logs.b "no log line" in
  ∃ pending,
    pending ≠ []
    ∧ sum_up_s3_logs.process_stream unit datetime strftime
        sum_up_s3_logs.decode_ascii sum_up_s3_logs.flush_threshold before
      = ([] ++ sum_up_s3_logs.print_counts pending, None)
    ∧ sum_up_s3_logs.process_stream unit datetime strftime
        sum_up_s3_logs.decode_ascii sum_up_s3_logs.flush_threshold
        (before ++ bad :: [sum_up_s3_logs.sample_line])
      = ([], Some sum_up_s3_logs.InvalidLineFormat)
    ∧ (length before < sum_up_s3_logs.flush_threshold → [] = @nil string).
Proof.
  intros datetime strftime before bad. eexists. split; [|
    eapply (log_counts_lost_on_error unit datetime strftime
              sum_up_s3_logs.decode_ascii sum_up_s3_logs.flush_threshold
              before bad [sum_up_s3_logs.sample_line]
              sum_up_s3_logs.InvalidLineFormat [])].
  2: vm_compute; reflexivity.
  - done.
  - vm_compute; reflexivity.
  - vm_compute; reflexivity.
Defined.

(** ** [parse_date] and [parse_line] *)

Section parse_facts.
Import sum_up_s3_logs.

Lemma digit_to_N n : Byte.to_N (digit n) = (48 + n `mod` 10)%N.
Proof.
  unfold digit. destruct (Byte.of_N (48 + n `mod` 10)) as [x|] eqn:Hx.
  - by apply Byte.to_of_N in Hx.
  - apply Byte.of_N_None_iff in Hx. exfalso.
    zify. Z.to_euclidean_division_equations. lia.
Qed.

Lemma is_digit_digit n : is_digit (digit n) = true.
Proof.
  pose proof (N.mod_upper_bound n 10 ltac:(done)) as Hlt.
  unfold is_digit, byte_in. rewrite digit_to_N.
  change (Byte.to_N "0"%byte) with 48%N. change (Byte.to_N "9"%byte) with 57%N.
  apply andb_true_intro.
  split; apply N.leb_le; zify; Z.to_euclidean_division_equations; lia.
Qed.

(** The first digit of a number below [10 * k] is below [k]. *)
Lemma byte_in_digit_lt hi n k :
  (n < 10 * k)%N → (k ≤ 10)%N → Byte.to_N hi = (47 + k)%N →
  byte_in "0" hi (digit (n / 10)) = true.
Proof.
  intros Hn Hk Hhi. unfold byte_in. rewrite digit_to_N, Hhi.
  change (Byte.to_N "0"%byte) with 48%N.
  apply andb_true_intro.
  split; apply N.leb_le; zify; Z.to_euclidean_division_equations; lia.
Qed.

Lemma digit_value n : (Z.of_N (Byte.to_N (digit n)) - 48)%Z = Z.of_N (n `mod` 10).
Proof. rewrite digit_to_N. zify. Z.to_euclidean_division_equations. lia. Qed.

Lemma int_digits2 n : (n < 100)%N → int (digits2 n) = Z.of_N n.
Proof.
  intros Hn. unfold int, digits2. cbn [foldl]. rewrite !digit_value.
  zify. Z.to_euclidean_division_equations. lia.
Qed.

Lemma int_digits4 n : (n < 10000)%N → int (digits4 n) = Z.of_N n.
Proof.
  intros Hn. unfold int, digits4. cbn [foldl]. rewrite !digit_value.
  zify. Z.to_euclidean_division_equations. lia.
Qed.

(** The names of the months and their numbers. *)
Lemma month_lookup month :
  (1 ≤ month ≤ 12)%N →
  ∃ m1 m2 m3,
    month_names !! N.to_nat (month - 1) = Some [m1; m2; m3]
    ∧ is_upper m1 = true ∧ is_lower m2 = true ∧ is_lower m3 = true
    ∧ dict_get [m1; m2; m3] month_by_name = Some (Z.of_N month).
Proof.
  intros [H1 H2].
  assert (∃ k, k < 12 ∧ month = N.of_nat (S k)) as (k & Hk & ->).
  { exists (N.to_nat month - 1). lia. }
  do 12 (destruct k as [|k]; [vm_compute; by eauto 10|]). lia.
Qed.


Lemma byte_is_refl c : byte_is c c = true.
Proof. unfold byte_is. by apply Byte.byte_dec_lb. Qed.

(** A time stamp, whatever follows it, matches [re_date]. *)
Lemma timestamp_shape year month day hour minute second sign tail m1 m2 m3 :
  month_names !! N.to_nat (month - 1) = Some [m1; m2; m3] →
  timestamp year month day hour minute second sign ++ tail
  = digit (day / 10) :: digit day :: "/"%byte :: m1 :: m2 :: m3 :: "/"%byte
    :: digit (year / 1000) :: digit (year / 100) :: digit (year / 10)
    :: digit year :: ":"%byte
    :: digit (hour / 10) :: digit hour :: ":"%byte
    :: digit (minute / 10) :: digit minute :: ":"%byte
    :: digit (second / 10) :: digit second :: " "%byte :: sign
    :: "0"%byte :: "0"%byte :: "0"%byte :: "0"%byte :: tail.
Proof. intros Hm. unfold timestamp. rewrite Hm. reflexivity. Qed.

End parse_facts.

(** X9. [parse_date] reads every time stamp of the form
    [DD/Mon/YYYY:HH:MM:SS +0000]: the day below 40, the hour below 30, the
    minute below 60, the second below 70, the month one of the twelve
    English abbreviations, the sign [+] or [-].  It passes the numbers of
    the fields to [datetime] in the order year, month, day, hour, minute,
    second, and raises [ValueError] when [datetime] rejects them.  Bytes
    after the time stamp are ignored. *)
Theorem parse_date_timestamp datetime_t datetime
    year month day hour minute second sign tail :
  (year < 10000)%N → (1 ≤ month ≤ 12)%N → (day < 40)%N → (hour < 30)%N →
  (minute < 60)%N → (second < 70)%N →
  sign = "+"%byte ∨ sign = "-"%byte →
  sum_up_s3_logs.parse_date datetime_t datetime
    (sum_up_s3_logs.timestamp year month day hour minute second sign ++ tail)
  = match datetime (Z.of_N year) (Z.of_N month) (Z.of_N day)
            (Z.of_N hour) (Z.of_N minute) (Z.of_N second) with
    | Some d => inr d
    | None => inl sum_up_s3_logs.ValueError
    end.
Proof.
  intros Hy Hmo Hd Hh Hmi Hs Hsign.
  destruct (month_lookup month Hmo) as (m1 & m2 & m3 & Hname & Hu & Hl2 & Hl3 & Hget).
  rewrite (timestamp_shape _ _ _ _ _ _ _ _ _ _ _ Hname).
  unfold sum_up_s3_logs.parse_date.
  assert (sum_up_s3_logs.int (sum_up_s3_logs.digits2 day) = Z.of_N day) as Hid
    by (apply int_digits2; lia).
  assert (sum_up_s3_logs.int (sum_up_s3_logs.digits2 hour) = Z.of_N hour) as Hih
    by (apply int_digits2; lia).
  assert (sum_up_s3_logs.int (sum_up_s3_logs.digits2 minute) = Z.of_N minute)
    as Him by (apply int_digits2; lia).
  assert (sum_up_s3_logs.int (sum_up_s3_logs.digits2 second) = Z.of_N second)
    as His by (apply int_digits2; lia).
  pose proof (int_digits4 year Hy) as Hiy.
  pose proof (byte_in_digit_lt "3" day 4 ltac:(lia) ltac:(lia) eq_refl) as Hc1.
  pose proof (byte_in_digit_lt "2" hour 3 ltac:(lia) ltac:(lia) eq_refl) as Hc2.
  pose proof (byte_in_digit_lt "5" minute 6 ltac:(lia) ltac:(lia) eq_refl) as Hc3.
  pose proof (byte_in_digit_lt "6" second 7 ltac:(lia) ltac:(lia) eq_refl) as Hc4.
  unfold sum_up_s3_logs.digits2, sum_up_s3_logs.digits4 in *.
  assert ((sum_up_s3_logs.byte_is "+" sign || sum_up_s3_logs.byte_is "-" sign)
          = true) as Hsg by (by destruct Hsign as [-> | ->]).
  unfold sum_up_s3_logs.re_date.
  cbn [sum_up_s3_logs.match_classes].
  rewrite Hc1, Hc2, Hc3, Hc4, Hu, Hl2, Hl3, Hsg, !is_digit_digit, !byte_is_refl.
  cbn [andb]. change (sum_up_s3_logs.is_digit "0"%byte) with true. cbn [andb].
  unfold sum_up_s3_logs.slice. cbn [take drop].
  rewrite decide_False by (by intros [?|?]).
  rewrite Hget, Hid, Hih, Him, His, Hiy. done.
Qed.

Lemma parse_date_timestamp_witness :
  sum_up_s3_logs.parse_date unit (λ _ _ _ _ _ _, Some tt)
    (sum_up_s3_logs.timestamp 2019 5 3 2 40 29 "+"%byte
     ++ sum_up_s3_logs.b " and more")
  = inr tt.
Proof.
  apply (parse_date_timestamp unit (λ _ _ _ _ _ _, Some tt) 2019 5 3 2 40 29
           "+"%byte (sum_up_s3_logs.b " and more")); try lia. by left.
Defined.

Section parse_inverse.
Import sum_up_s3_logs.

Lemma digit_mod n m : (n `mod` 10 = m `mod` 10)%N → digit n = digit m.
Proof. unfold digit. by intros ->. Qed.

(** A byte of a class of digits is a digit. *)
Lemma byte_in_digit_inv hi x k :
  Byte.to_N hi = (47 + k)%N → (k ≤ 10)%N → byte_in "0" hi x = true →
  ∃ j, (j < k)%N ∧ x = digit j.
Proof.
  intros Hhi Hk. unfold byte_in. rewrite Hhi.
  change (Byte.to_N "0"%byte) with 48%N.
  intros [H1%N.leb_le H2%N.leb_le]%andb_prop.
  exists (Byte.to_N x - 48)%N. split; [lia|].
  unfold digit. rewrite N.mod_small by lia.
  replace (48 + (Byte.to_N x - 48))%N with (Byte.to_N x) by lia.
  by rewrite Byte.of_to_N.
Qed.

Lemma is_digit_inv x : is_digit x = true → ∃ j, (j < 10)%N ∧ x = digit j.
Proof. by apply (byte_in_digit_inv "9" x 10). Qed.

Lemma byte_is_inv c x : byte_is c x = true → x = c.
Proof. unfold byte_is. by intros ->%Byte.byte_dec_bl. Qed.

Lemma digits2_eq j1 j2 :
  (j2 < 10)%N → digits2 (10 * j1 + j2) = [digit j1; digit j2].
Proof.
  intros H2. unfold digits2.
  f_equal; [|f_equal];
    apply digit_mod; zify; Z.to_euclidean_division_equations; lia.
Qed.

Lemma digits4_eq j1 j2 j3 j4 :
  (j2 < 10)%N → (j3 < 10)%N → (j4 < 10)%N →
  digits4 (1000 * j1 + 100 * j2 + 10 * j3 + j4)
  = [digit j1; digit j2; digit j3; digit j4].
Proof.
  intros H2 H3 H4. unfold digits4.
  f_equal; [|f_equal; [|f_equal; [|f_equal]]];
    apply digit_mod; zify; Z.to_euclidean_division_equations; lia.
Qed.

Local Ltac solve_month k :=
  solve [exists k; split; [lia|]; split; [done|]; vm_compute; reflexivity].

Lemma month_lookup_inv name m :
  dict_get name month_by_name = Some m →
  ∃ month, (1 ≤ month ≤ 12)%N ∧ m = Z.of_N month
           ∧ month_names !! N.to_nat (month - 1) = Some name.
Proof.
  set (d := month_by_name). vm_compute in d. subst d. simpl.
  repeat (case_decide as Hn;
          [subst name; intros [= <-];
           first [solve_month 1%N|solve_month 2%N|solve_month 3%N
                 |solve_month 4%N|solve_month 5%N|solve_month 6%N
                 |solve_month 7%N|solve_month 8%N|solve_month 9%N
                 |solve_month 10%N|solve_month 11%N|solve_month 12%N]
          |clear Hn]).
  done.
Qed.

End parse_inverse.
Section parse_accepts.
Import sum_up_s3_logs.

Lemma match_classes_cons_inv c cs s :
  match_classes (c :: cs) s = true →
  ∃ x s', s = x :: s' ∧ c x = true ∧ match_classes cs s' = true.
Proof.
  destruct s as [|x s']; [done|]. simpl. intros [? ?]%andb_prop. eauto.
Qed.

Lemma timestamp_digits d1 d2 m1 m2 m3 y1 y2 y3 y4 h1 h2 mi1 mi2 s1 s2
    sign tail month :
  (d2 < 10)%N → (y2 < 10)%N → (y3 < 10)%N → (y4 < 10)%N → (h2 < 10)%N →
  (mi2 < 10)%N → (s2 < 10)%N →
  month_names !! N.to_nat (month - 1) = Some [m1; m2; m3] →
  digit d1 :: digit d2 :: "/"%byte :: m1 :: m2 :: m3 :: "/"%byte
    :: digit y1 :: digit y2 :: digit y3 :: digit y4 :: ":"%byte
    :: digit h1 :: digit h2 :: ":"%byte
    :: digit mi1 :: digit mi2 :: ":"%byte
    :: digit s1 :: digit s2 :: " "%byte :: sign
    :: "0"%byte :: "0"%byte :: "0"%byte :: "0"%byte :: tail
  = timestamp (1000 * y1 + 100 * y2 + 10 * y3 + y4) month (10 * d1 + d2)
      (10 * h1 + h2) (10 * mi1 + mi2) (10 * s1 + s2) sign ++ tail.
Proof.
  intros ? ? ? ? ? ? ? Hname. unfold timestamp.
  rewrite Hname, !digits2_eq, digits4_eq by done. reflexivity.
Qed.

End parse_accepts.

Ltac uncons H x Hx :=
  apply match_classes_cons_inv in H as (x & ? & -> & Hx & H).

(** X10. [parse_date] accepts nothing else: a byte string that it parses
    starts with a time stamp of that form, with an offset of [0000], and
    the result is what [datetime] gives for the numbers of its fields. *)
Theorem parse_date_accepts datetime_t datetime s d :
  sum_up_s3_logs.parse_date datetime_t datetime s = inr d →
  ∃ year month day hour minute second sign tail,
    (year < 10000)%N ∧ (1 ≤ month ≤ 12)%N ∧ (day < 40)%N ∧ (hour < 30)%N
    ∧ (minute < 60)%N ∧ (second < 70)%N
    ∧ (sign = "+"%byte ∨ sign = "-"%byte)
    ∧ s = sum_up_s3_logs.timestamp year month day hour minute second sign
          ++ tail
    ∧ datetime (Z.of_N year) (Z.of_N month) (Z.of_N day)
        (Z.of_N hour) (Z.of_N minute) (Z.of_N second) = Some d.
Proof.
  unfold sum_up_s3_logs.parse_date.
  destruct (sum_up_s3_logs.match_classes sum_up_s3_logs.re_date s) eqn:Hm;
    [|done].
  unfold sum_up_s3_logs.re_date in Hm.
  uncons Hm q1 H1. uncons Hm q2 H2. uncons Hm q3 H3. uncons Hm m1 Hm1.
  uncons Hm m2 Hm2. uncons Hm m3 Hm3. uncons Hm q7 H7. uncons Hm q8 H8.
  uncons Hm q9 H9. uncons Hm q10 H10. uncons Hm q11 H11. uncons Hm q12 H12.
  uncons Hm q13 H13. uncons Hm q14 H14. uncons Hm q15 H15. uncons Hm q16 H16.
  uncons Hm q17 H17. uncons Hm q18 H18. uncons Hm q19 H19. uncons Hm q20 H20.
  uncons Hm q21 H21. uncons Hm sign Hsign. uncons Hm q23 H23.
  uncons Hm q24 H24. uncons Hm q25 H25. uncons Hm q26 H26.
  match type of Hm with
  | sum_up_s3_logs.match_classes [] ?t = true => rename t into tail
  end.
  clear Hm.
  unfold sum_up_s3_logs.slice. cbn [take drop].
  case_decide as Htz; [done|].
  assert (q23 = "0"%byte ∧ q24 = "0"%byte ∧ q25 = "0"%byte ∧ q26 = "0"%byte)
    as (-> & -> & -> & ->).
  { destruct (decide ([q23; q24] = sum_up_s3_logs.b "00")) as [E1|E1];
      [|destruct Htz; by left].
    destruct (decide ([q25; q26] = sum_up_s3_logs.b "00")) as [E2|E2];
      [|destruct Htz; by right].
    by injection E1 as -> ->; injection E2 as -> ->. }
  destruct (dict_get [m1; m2; m3] sum_up_s3_logs.month_by_name) as [m|] eqn:Hget;
    [|done].
  apply month_lookup_inv in Hget as (month & Hmonth & -> & Hname).
  apply (byte_in_digit_inv "3" _ 4) in H1 as (d1 & Hd1 & ->); [|done|lia].
  apply is_digit_inv in H2 as (d2 & Hd2 & ->).
  apply byte_is_inv in H3 as ->. apply byte_is_inv in H7 as ->.
  apply is_digit_inv in H8 as (y1 & Hy1 & ->).
  apply is_digit_inv in H9 as (y2 & Hy2 & ->).
  apply is_digit_inv in H10 as (y3 & Hy3 & ->).
  apply is_digit_inv in H11 as (y4 & Hy4 & ->).
  apply byte_is_inv in H12 as ->.
  apply (byte_in_digit_inv "2" _ 3) in H13 as (h1 & Hh1 & ->); [|done|lia].
  apply is_digit_inv in H14 as (h2 & Hh2 & ->).
  apply byte_is_inv in H15 as ->.
  apply (byte_in_digit_inv "5" _ 6) in H16 as (mi1 & Hmi1 & ->); [|done|lia].
  apply is_digit_inv in H17 as (mi2 & Hmi2 & ->).
  apply byte_is_inv in H18 as ->.
  apply (byte_in_digit_inv "6" _ 7) in H19 as (s1 & Hs1 & ->); [|done|lia].
  apply is_digit_inv in H20 as (s2 & Hs2 & ->).
  apply byte_is_inv in H21 as ->.
  rewrite <- (digits2_eq d1 d2), <- (digits2_eq h1 h2), <- (digits2_eq mi1 mi2),
    <- (digits2_eq s1 s2), <- (digits4_eq y1 y2 y3 y4) by done.
  rewrite !int_digits2, int_digits4 by lia.
  destruct (datetime _ _ _ _ _ _) as [d'|] eqn:Hdt; [|done]. intros [= ->].
  exists (1000 * y1 + 100 * y2 + 10 * y3 + y4)%N, month, (10 * d1 + d2)%N,
    (10 * h1 + h2)%N, (10 * mi1 + mi2)%N, (10 * s1 + s2)%N, sign, tail.
  split_and!; try lia.
  - apply orb_prop in Hsign as [->%byte_is_inv| ->%byte_is_inv]; auto.
  - by apply timestamp_digits.
  - done.
Qed.

Lemma parse_date_accepts_witness :
  ∃ year month day hour minute second sign tail,
    (year < 10000)%N ∧ (1 ≤ month ≤ 12)%N ∧ (day < 40)%N ∧ (hour < 30)%N
    ∧ (minute < 60)%N ∧ (second < 70)%N
    ∧ (sign = "+"%byte ∨ sign = "-"%byte)
    ∧ sum_up_s3_logs.b "03/May/2019:02:40:29 +0000"
      = sum_up_s3_logs.timestamp year month day hour minute second sign ++ tail
    ∧ (λ _ _ _ _ _ _ : Z, Some tt) (Z.of_N year) (Z.of_N month) (Z.of_N day)
        (Z.of_N hour) (Z.of_N minute) (Z.of_N second) = Some tt.
Proof.
  apply (parse_date_accepts unit (λ _ _ _ _ _ _, Some tt)
           (sum_up_s3_logs.b "03/May/2019:02:40:29 +0000") tt).
  vm_compute. reflexivity.
Defined.
